(** * Route computation over a bidirectional graph of locations

    A shallow embedding of [graph.cpp], [route.cpp] and the
    [driving-restricted] branch of [batch.cpp], followed by the properties
    of the route engine.

    Conventions of the embedding:
    - [int] is a [Z] kept in the 32-bit two's-complement range by [wrap];
    - [std::map] is a [gmap], [std::set] a [gset]; reading a missing key with
      [operator[]] yields the value-initialised element ([0], the empty
      string, the empty vector), which is what the lookups below default to;
    - [std::priority_queue<pair<int,string>, ..., greater<>>] is a list read
      as a multiset: [top] is the least pair in the lexicographic order of
      [std::pair];
    - a function that can loop forever or read outside a vector returns an
      [outcome]. *)

From Stdlib Require Import ZArith Lia Ascii.
From stdpp Require Import base gmap sets list strings.

Local Open Scope Z_scope.
#[local] Set Warnings "-clear-no-such-hyp".

(** ** Machine integers *)

Definition INT_MAX : Z := 2147483647.
Definition INT_MIN : Z := -2147483648.

(** Reduction of an integer to the range of [int]. *)
Definition wrap (z : Z) : Z := (z + 2147483648) mod 4294967296 - 2147483648.

(** [a + b] on [int]. *)
Definition int_add (a b : Z) : Z := wrap (a + b).

Definition SIZE_MOD : Z := 18446744073709551616.

(** [a - b] on two [size_t] values (both below [SIZE_MOD]): a negative
    difference wraps around. *)
Definition size_sub (a b : Z) : Z :=
  if a - b <? 0 then a - b + SIZE_MOD else a - b.

(** ** Outcomes of a call *)

Inductive outcome (A : Type) : Type :=
| Ok (a : A)
| OutOfBounds
| NonTermination.

Arguments Ok {A} a.
Arguments OutOfBounds {A}.
Arguments NonTermination {A}.

Global Instance outcome_ret : MRet outcome := fun A a => Ok a.

Global Instance outcome_bind : MBind outcome := fun A B k m =>
  match m with
  | Ok a => k a
  | OutOfBounds => OutOfBounds
  | NonTermination => NonTermination
  end.

(** ** graph.h, graph.cpp *)

Record EdgeData : Type := mkEdgeData { drivingTime : Z; walkingTime : Z }.

(** [map<string, vector<pair<string, EdgeData>>> adj]. *)
Abbreviation Graph := (gmap string (list (string * EdgeData))).

(** [adj[u]]. *)
Definition neighbors (g : Graph) (u : string) : list (string * EdgeData) :=
  default [] (g !! u).

Definition addEdge (g : Graph) (from to : string) (dTime wTime : Z) : Graph :=
  let data := mkEdgeData dTime wTime in
  let g1 := <[from := neighbors g from ++ [(to, data)]]> g in
  <[to := neighbors g1 to ++ [(from, data)]]> g1.

(** ** parser.h *)

Record Location : Type := mkLocation
  { name : string; id : Z; code : string; hasParking : bool }.

Record Edge : Type := mkEdge
  { from : string; to : string; eDrivingTime : Z; eWalkingTime : Z }.

(** The loop of [main] (main.cpp) that builds the graph from the parsed
    segments. *)
Definition buildGraph (edges : list Edge) : Graph :=
  foldl (fun g e => addEdge g (from e) (to e) (eDrivingTime e) (eWalkingTime e))
        ∅ edges.

(** ** parser.cpp *)

(** [for (const auto& loc : locations) if (loc.id == id) return loc.code;
     return "";] *)
Fixpoint getCodeById (locations : list Location) (wanted : Z) : string :=
  match locations with
  | [] => ""
  | loc :: rest =>
      if id loc =? wanted then code loc else getCodeById rest wanted
  end.

(** [for (const auto& loc : locations) if (loc.code == code) return loc.id;
     return -1;] *)
Fixpoint getIdByCode (locations : list Location) (wanted : string) : Z :=
  match locations with
  | [] => -1
  | loc :: rest =>
      if bool_decide (code loc = wanted) then id loc
      else getIdByCode rest wanted
  end.

(** [trimmed.erase(remove(trimmed.begin(), trimmed.end(), ' '),
     trimmed.end());] *)
Fixpoint cleanCode (s : string) : string :=
  match s with
  | EmptyString => EmptyString
  | String c rest =>
      if Ascii.eqb c " "%char then cleanCode rest else String c (cleanCode rest)
  end.

(** ** The search state of the three Dijkstra loops of route.cpp *)

Record DState : Type := mkDState
  { dist : gmap string Z;
    prev : gmap string string;
    visited : gset string;
    pq : list (Z * string) }.

(** [dist[v]]. *)
Definition distAt (d : gmap string Z) (v : string) : Z := default 0 (d !! v).

(** [prev[at]]. *)
Definition prevAt (p : gmap string string) (v : string) : string :=
  default EmptyString (p !! v).

(** [operator<=] of [pair<int,string>]. *)
Definition pairLeb (a b : Z * string) : bool :=
  (a.1 <? b.1) || ((a.1 =? b.1) && String.leb a.2 b.2).

(** [pq.top()]. *)
Fixpoint pqTop (q : list (Z * string)) : option (Z * string) :=
  match q with
  | [] => None
  | x :: rest =>
      match pqTop rest with
      | None => Some x
      | Some m => if pairLeb x m then Some x else Some m
      end
  end.

(** Removal of one copy of [x]. *)
Fixpoint removeOne (x : Z * string) (q : list (Z * string)) : list (Z * string) :=
  match q with
  | [] => []
  | y :: rest => if decide (x = y) then rest else y :: removeOne x rest
  end.

(** [auto [d, u] = pq.top(); pq.pop();] *)
Definition pqPop (q : list (Z * string)) : option ((Z * string) * list (Z * string)) :=
  match pqTop q with
  | None => None
  | Some m => Some (m, removeOne m q)
  end.

(** The three loops differ only in the [continue] guards of the edge loop. *)
Definition skipShortest (u v : string) (edge : EdgeData) : bool :=
  drivingTime edge =? -1.

Definition skipRestricted (avoidNodes : gset string)
    (avoidSegments : gset (string * string))
    (u v : string) (edge : EdgeData) : bool :=
  if drivingTime edge =? -1 then true
  else if bool_decide (v ∈ avoidNodes) then true
  else bool_decide ((u, v) ∈ avoidSegments) || bool_decide ((v, u) ∈ avoidSegments).

Section Search.

Variable skip : string -> string -> EdgeData -> bool.
Variable g : Graph.

(** The body of [for (const auto& [v, edge] : adj[u])]: the [continue]
    guards, then the relaxation of [v]. *)
Definition relaxEdge (u v : string) (edge : EdgeData) (st : DState) : DState :=
  if skip u v edge then st
  else
    let nd := int_add (distAt (dist st) u) (drivingTime edge) in
    if distAt (dist st) v >? nd then
      {| dist := <[v := nd]> (dist st);
         prev := <[v := u]> (prev st);
         visited := visited st;
         pq := (nd, v) :: pq st |}
    else st.

Fixpoint relaxEdges (u : string) (edges : list (string * EdgeData))
    (st : DState) : DState :=
  match edges with
  | [] => st
  | (v, edge) :: rest => relaxEdges u rest (relaxEdge u v edge st)
  end.

(** One iteration of [while (!pq.empty())], for the popped pair. *)
Definition visitNode (u : string) (rest : list (Z * string)) (st : DState) : DState :=
  if bool_decide (u ∈ visited st) then
    {| dist := dist st; prev := prev st; visited := visited st; pq := rest |}
  else
    relaxEdges u (neighbors g u)
      {| dist := dist st; prev := prev st;
         visited := {[u]} ∪ visited st; pq := rest |}.

Fixpoint dijkstraLoop (fuel : nat) (st : DState) : option DState :=
  match pqPop (pq st) with
  | None => Some st
  | Some ((_, u), rest) =>
      match fuel with
      | O => None
      | S fuel' => dijkstraLoop fuel' (visitNode u rest st)
      end
  end.

(** [for (const auto& node : adj) dist[node.first] = INT_MAX;
     dist[source] = 0; pq.push({0, source});] *)
Definition initState (source : string) : DState :=
  {| dist := <[source := 0]> ((fun _ => INT_MAX) <$> g);
     prev := ∅;
     visited := ∅;
     pq := [(0, source)] |}.

(** The number of adjacency entries: every push but the first is paid for
    by one of them. *)
Definition edgeCount : nat :=
  map_fold (fun _ l acc => (length l + acc)%nat) O g.

(** [for (string at = dest; at != source; at = prev[at]) path.push_back(at);] *)
Fixpoint walkBack (fuel : nat) (p : gmap string string) (source at_ : string)
    (path : list string) : option (list string) :=
  if decide (at_ = source) then Some path
  else
    match fuel with
    | O => None
    | S fuel' => walkBack fuel' p source (prevAt p at_) (path ++ [at_])
    end.

Definition search (source dest : string) : outcome (list string) :=
  match dijkstraLoop (S edgeCount) (initState source) with
  | None => NonTermination
  | Some st =>
      if bool_decide (dest ∈ dom (prev st)) then
        match walkBack (S (size (prev st))) (prev st) source dest [] with
        | None => NonTermination
        | Some path => Ok (reverse (path ++ [source]))
        end
      else Ok []
  end.

End Search.

Definition dijkstraShortestPath (g : Graph) (source dest : string)
    : outcome (list string) :=
  search skipShortest g source dest.

Definition dijkstraRestricted (g : Graph) (source dest : string)
    (avoidNodes : gset string) (avoidSegments : gset (string * string))
    : outcome (list string) :=
  search (skipRestricted avoidNodes avoidSegments) g source dest.

(** *** findAlternativeRoute *)

(** [v[i]]: reading outside the vector is an error. *)
Definition vecAt (v : list string) (i : Z) : option string :=
  if (0 <=? i) then v !! Z.to_nat i else None.

(** [set<string> forbiddenNodes(first, last)]: the range constructor walks
    [first] up to [last] and reads every position on the way.  Iterators are
    positions in the vector. *)
Fixpoint insertRange (fuel : nat) (v : list string) (first last : Z)
    (acc : gset string) : outcome (gset string) :=
  if first =? last then Ok acc
  else
    match fuel with
    | O => NonTermination
    | S fuel' =>
        match vecAt v first with
        | None => OutOfBounds
        | Some x => insertRange fuel' v (first + 1) last ({[x]} ∪ acc)
        end
    end.

(** [for (size_t i = 0; i < mainPath.size() - 1; ++i) { insert; insert }] *)
Fixpoint insertSegments (fuel : nat) (mainPath : list string) (i : Z)
    (acc : gset (string * string)) : outcome (gset (string * string)) :=
  if i <? size_sub (Z.of_nat (length mainPath)) 1 then
    match fuel with
    | O => NonTermination
    | S fuel' =>
        match vecAt mainPath i, vecAt mainPath (i + 1) with
        | Some a, Some b =>
            insertSegments fuel' mainPath (i + 1) ({[(b, a)]} ∪ ({[(a, b)]} ∪ acc))
        | _, _ => OutOfBounds
        end
    end
  else Ok acc.

Definition skipAlternative (forbiddenNodes : gset string)
    (forbiddenEdges : gset (string * string))
    (u v : string) (edge : EdgeData) : bool :=
  if drivingTime edge =? -1 then true
  else if bool_decide (v ∈ forbiddenNodes) then true
  else bool_decide ((u, v) ∈ forbiddenEdges) || bool_decide ((v, u) ∈ forbiddenEdges).

Definition forbiddenNodesOf (mainPath : list string) : outcome (gset string) :=
  insertRange (S (length mainPath)) mainPath
    (0 + 1) (Z.of_nat (length mainPath) - 1) ∅.

Definition forbiddenEdgesOf (mainPath : list string)
    : outcome (gset (string * string)) :=
  insertSegments (S (length mainPath)) mainPath 0 ∅.

Definition findAlternativeRoute (g : Graph) (source dest : string)
    (mainPath : list string) : outcome (list string) :=
  forbiddenNodes ← forbiddenNodesOf mainPath;
  forbiddenEdges ← forbiddenEdgesOf mainPath;
  search (skipAlternative forbiddenNodes forbiddenEdges) g source dest.

(** *** calculateDrivingTime, calculateWalkingTime *)

(** The inner [for] of both functions: the first entry of [adj[path[i]]]
    whose neighbour is [path[i+1]]. *)
Fixpoint firstEdgeTo (v : string) (edges : list (string * EdgeData))
    : option EdgeData :=
  match edges with
  | [] => None
  | (w, edge) :: rest => if decide (w = v) then Some edge else firstEdgeTo v rest
  end.

Section Aggregate.

(** The weight the function reads: [edge.drivingTime] or [edge.walkingTime]. *)
Variable weight : EdgeData -> Z.
Variable g : Graph.

(** The outer [for] over the positions [i], [i+1] of the path. *)
Fixpoint sumTimes (path : list string) (total : Z) : Z :=
  match path with
  | a :: (b :: _) as rest =>
      match firstEdgeTo b (neighbors g a) with
      | Some edge =>
          if weight edge =? -1 then -1
          else sumTimes rest (int_add total (weight edge))
      | None => -1
      end
  | _ => total
  end.

Definition calculateTime (path : list string) : Z :=
  if (length path <? 2)%nat then 0 else sumTimes path 0.

End Aggregate.

Definition calculateDrivingTime (g : Graph) (path : list string) : Z :=
  calculateTime drivingTime g path.

Definition calculateWalkingTime (g : Graph) (path : list string) : Z :=
  calculateTime walkingTime g path.

(** *** findEcoRoute *)

Definition isEmpty {A : Type} (l : list A) : bool :=
  match l with [] => true | _ => false end.

Record Best : Type := mkBest
  { bestPark : string;
    bestTotal : Z;
    bestWalkTime : Z;
    bestDrivePath : list string;
    bestWalkPath : list string }.

Definition initBest : Best := mkBest "" INT_MAX (-1) [] [].

(** [for (const auto& loc : locations) if (loc.hasParking)
     parkingCandidates.push_back(loc.code);] *)
Definition parkingCodes (locations : list Location) : list string :=
  code <$> filter (fun loc => hasParking loc = true) locations.

Section Eco.

Variable g : Graph.
Variables source dest : string.
Variable maxWalkTime : Z.
Variable avoidNodes : gset string.
Variable avoidSegments : gset (string * string).

(** [for (const auto& park : parkingCandidates) ...] *)
Fixpoint ecoLoop (parkingCandidates : list string) (b : Best) : outcome Best :=
  match parkingCandidates with
  | [] => Ok b
  | park :: rest =>
      if bool_decide (park ∈ avoidNodes) then ecoLoop rest b
      else
        drivePath ← dijkstraRestricted g source park avoidNodes avoidSegments;
        walkPath ← dijkstraRestricted g park dest avoidNodes avoidSegments;
        if isEmpty drivePath || isEmpty walkPath then ecoLoop rest b
        else
          let driveTime := calculateDrivingTime g drivePath in
          let walkTime := calculateWalkingTime g walkPath in
          if walkTime >? maxWalkTime then ecoLoop rest b
          else
            let total := int_add driveTime walkTime in
            if (total <? bestTotal b)
               || ((total =? bestTotal b) && (walkTime >? bestWalkTime b))
            then ecoLoop rest (mkBest park total walkTime drivePath walkPath)
            else ecoLoop rest b
  end.

(** The result is the tuple and the text left in [message]. *)
Definition findEcoRoute (locations : list Location)
    : outcome (list string * string * list string * string) :=
  let parkingCandidates := parkingCodes locations in
  if isEmpty parkingCandidates then
    Ok ([], "", [], "No parking nodes available.")
  else
    b ← ecoLoop parkingCandidates initBest;
    if isEmpty (bestDrivePath b) || isEmpty (bestWalkPath b) then
      Ok ([], "", [], "No viable eco route found.")
    else
      Ok (bestDrivePath b, bestPark b, bestWalkPath b, "Eco route found.").

End Eco.

(** ** batch.cpp *)

(** The [driving] mode: the best route and its alternative. *)
Definition batchDriving (g : Graph) (sourceCode destCode : string)
    : outcome (list string * list string) :=
  path ← dijkstraShortestPath g sourceCode destCode;
  alt ← findAlternativeRoute g sourceCode destCode path;
  Ok (path, alt).

(** The [driving-restricted] mode: [includeCode] is empty when the request
    names no mandatory node. *)
Definition batchRestricted (g : Graph) (sourceCode destCode includeCode : string)
    (avoidCodes : gset string) (avoidSegmentCodes : gset (string * string))
    : outcome (list string) :=
  if negb (bool_decide (includeCode = "")) then
    p1 ← dijkstraRestricted g sourceCode includeCode avoidCodes avoidSegmentCodes;
    p2 ← dijkstraRestricted g includeCode destCode avoidCodes avoidSegmentCodes;
    if negb (isEmpty p1) && negb (isEmpty p2) then
      Ok (removelast p1 ++ p2)
    else Ok []
  else
    dijkstraRestricted g sourceCode destCode avoidCodes avoidSegmentCodes.

(** The conversion of the ids of a request into codes, then the
    [driving-restricted] mode and what it prints: [None] for [none],
    otherwise the ids of the nodes of the route and its driving time.
    [includeNodeId] is [-1] when the request names no mandatory node. *)
Definition batchRestrictedRequest (locations : list Location) (g : Graph)
    (sourceId destId includeNodeId : Z) (avoidNodeIds : gset Z)
    (avoidSegmentIds : gset (Z * Z)) : outcome (option (list Z * Z)) :=
  let sourceCode := getCodeById locations sourceId in
  let destCode := getCodeById locations destId in
  let includeCode :=
    if negb (includeNodeId =? -1) then getCodeById locations includeNodeId
    else "" in
  let avoidCodes : gset string :=
    set_map (getCodeById locations) avoidNodeIds in
  let avoidSegmentCodes : gset (string * string) :=
    set_map (fun ids : Z * Z =>
               (getCodeById locations ids.1, getCodeById locations ids.2))
            avoidSegmentIds in
  path ← batchRestricted g sourceCode destCode includeCode
                         avoidCodes avoidSegmentCodes;
  if isEmpty path then Ok None
  else Ok (Some (getIdByCode locations <$> path, calculateDrivingTime g path)).

(** ** main.cpp *)

(** [handleOption], case 1, once the two ids are read: [None] stands for
    the text [Rota impossível.], otherwise the ids printed and the time. *)
Definition handleOptionFastest (locations : list Location) (g : Graph)
    (src dst : Z) : outcome (option (list Z * Z)) :=
  let code1 := getCodeById locations src in
  let code2 := getCodeById locations dst in
  path ← dijkstraShortestPath g code1 code2;
  let time := calculateDrivingTime g path in
  if isEmpty path then Ok None
  else Ok (Some (getIdByCode locations <$> path, time)).

(** * Vocabulary of the statements *)

(** ** Work and weight still ahead of the search *)

(** The sum of [w] over the adjacency lists of the nodes outside [vis]. *)
Definition pendingSum {A : Type} (add : A -> A -> A) (zero : A)
    (w : list (string * EdgeData) -> A) (vis : gset string) (g : Graph) : A :=
  map_fold (fun u l acc => add (if decide (u ∈ vis) then zero else w l) acc)
           zero g.

(** The adjacency entries of the nodes not visited yet. *)
Definition pendingEdges (vis : gset string) (g : Graph) : nat :=
  pendingSum Nat.add O (@length _) vis g.

(** What is left to do: the queued pairs and the adjacency entries of the
    nodes not visited yet. *)
Definition workLeft (g : Graph) (st : DState) : nat :=
  (length (pq st) + pendingEdges (visited st) g)%nat.

(** ** Paths *)

(** The segments a path traverses, in order. *)
Definition segmentsOf (path : list string) : list (string * string) :=
  zip path (tail path).

(** The predecessor chain that [walkBack] follows from a node to the
    source. *)
Inductive chainTo (p : gmap string string) (s : string)
    : string -> list string -> Prop :=
| chain_done : chainTo p s s []
| chain_step a l :
    a ≠ s -> chainTo p s (prevAt p a) l -> chainTo p s a (a :: l).

(** The nodes of a path strictly between its two ends. *)
Definition intermediateNodes (mainPath : list string) : list string :=
  take (length mainPath - 2) (drop 1 mainPath).

(** ** Invariants of the search *)

(** Queued and visited nodes are the source or have a predecessor; a
    predecessor is a visited node with an edge that passed the guards. *)
Record Reach (skip : string -> string -> EdgeData -> bool) (g : Graph)
    (source : string) (st : DState) : Prop := mkReach
  { reach_pq : forall k y, (k, y) ∈ pq st -> y = source \/ y ∈ dom (prev st);
    reach_visited : forall y, y ∈ visited st -> y = source \/ y ∈ dom (prev st);
    reach_prev : forall v u, prev st !! v = Some u ->
        u ∈ visited st /\
        exists e, (v, e) ∈ neighbors g u /\ skip u v e = false }.

(** ** Well-formed graphs: no negative duration, no overflow *)

(** The driving times of an adjacency list, the sentinel counted as zero. *)
Definition driveWeight (l : list (string * EdgeData)) : Z :=
  foldr (fun ve acc => Z.max 0 (drivingTime ve.2) + acc) 0 l.

(** The driving times of the whole adjacency map. *)
Definition driveTotal (g : Graph) : Z :=
  map_fold (fun _ l acc => driveWeight l + acc) 0 g.

Definition edgeOk (ve : string * EdgeData) : Prop :=
  drivingTime ve.2 = -1 \/ 0 <= drivingTime ve.2.

(** Driving times are durations or the sentinel, and no sum of them leaves
    the range of [int]. *)
Definition wfGraph (g : Graph) : Prop :=
  map_Forall (fun _ l => Forall edgeOk l) g /\ driveTotal g <= INT_MAX.

Global Instance edgeOk_dec ve : Decision (edgeOk ve).
Proof. unfold edgeOk. apply _. Defined.

Global Instance wfGraph_dec g : Decision (wfGraph g).
Proof. unfold wfGraph. apply _. Defined.

Definition pendingDrive (vis : gset string) (g : Graph) : Z :=
  pendingSum Z.add 0 driveWeight vis g.

(** Every distance written so far is a duration that leaves [slack] below
    the total of the graph; the source keeps distance zero and never gets a
    predecessor. *)
Record BoundedBy (g : Graph) (source : string) (slack : Z) (st : DState)
    : Prop := mkBoundedBy
  { bnd_source_dist : distAt (dist st) source = 0;
    bnd_source_prev : prev st !! source = None;
    bnd_slack : 0 <= slack <= driveTotal g;
    bnd_dist : forall n, n ∈ dom (prev st) ->
        0 <= distAt (dist st) n /\ distAt (dist st) n + slack <= driveTotal g }.

Definition Bounded (skip : string -> string -> EdgeData -> bool) (g : Graph)
    (source : string) (st : DState) : Prop :=
  Reach skip g source st /\
  BoundedBy g source (pendingDrive (visited st) g) st.

(** Visited nodes are no farther than anything queued; every reached node
    that is not visited yet is queued at its current distance; and a
    visited node was visited after its predecessor ([rk] is the time of
    the visit). *)
Record Mono (source : string) (rk : string -> nat) (st : DState) : Prop := mkMono
  { mono_visited : forall x k y,
      x ∈ visited st -> (k, y) ∈ pq st -> distAt (dist st) x <= k;
    mono_pq : forall k y, (k, y) ∈ pq st -> distAt (dist st) y <= k;
    mono_live : forall y,
      y = source \/ y ∈ dom (prev st) -> y ∉ visited st ->
      (distAt (dist st) y, y) ∈ pq st;
    mono_rank : forall v u,
      prev st !! v = Some u -> v ∈ visited st -> (rk u < rk v)%nat;
    mono_rank_bound : forall x,
      x ∈ visited st -> (rk x < size (visited st))%nat }.

(** While the edges of [u] are relaxed, no visited node is farther than
    [u]. *)
Definition Pivot (u : string) (st : DState) : Prop :=
  u ∈ visited st /\
  forall x, x ∈ visited st -> distAt (dist st) x <= distAt (dist st) u.

Definition Settled (skip : string -> string -> EdgeData -> bool) (g : Graph)
    (source : string) (st : DState) : Prop :=
  Bounded skip g source st /\ exists rk, Mono source rk st.

(** ** Time aggregation *)

(** What the inner loop finds for the segment from [a] to [b]: the weight
    of the first adjacency entry of [a] that leads to [b], unless there is
    none or its weight is the sentinel. *)
Definition segmentTime (weight : EdgeData -> Z) (g : Graph) (a b : string)
    : option Z :=
  match firstEdgeTo b (neighbors g a) with
  | Some edge => if weight edge =? -1 then None else Some (weight edge)
  | None => None
  end.

(** The exact sum of the segment times of a path. *)
Definition pathSum (weight : EdgeData -> Z) (g : Graph) (path : list string) : Z :=
  foldr (fun ab acc => default 0 (segmentTime weight g ab.1 ab.2) + acc) 0
        (segmentsOf path).

Definition validPath (weight : EdgeData -> Z) (g : Graph) (path : list string)
    : Prop :=
  forall a b, (a, b) ∈ segmentsOf path -> is_Some (segmentTime weight g a b).

(** ** The choice of the parking node *)

Section Candidates.

Variable g : Graph.
Variables source dest : string.
Variable maxWalkTime : Z.
Variable avoidNodes : gset string.
Variable avoidSegments : gset (string * string).

(** What the body of the candidate loop computes for [park] before it
    compares: nothing when the candidate is discarded, otherwise the two
    legs, the walking time and the total time. *)
Definition survivor (park : string) : outcome (option Best) :=
  if bool_decide (park ∈ avoidNodes) then Ok None
  else
    drivePath ← dijkstraRestricted g source park avoidNodes avoidSegments;
    walkPath ← dijkstraRestricted g park dest avoidNodes avoidSegments;
    if isEmpty drivePath || isEmpty walkPath then Ok None
    else
      let driveTime := calculateDrivingTime g drivePath in
      let walkTime := calculateWalkingTime g walkPath in
      if walkTime >? maxWalkTime then Ok None
      else Ok (Some (mkBest park (int_add driveTime walkTime) walkTime
                            drivePath walkPath)).

(** The comparison of the loop: [c] replaces [b]. *)
Definition better (c b : Best) : bool :=
  (bestTotal c <? bestTotal b)
  || ((bestTotal c =? bestTotal b) && (bestWalkTime c >? bestWalkTime b)).

(** After the candidates [seen]: no candidate seen beats [b], and [b] is
    the initial value or the first candidate seen that beats all the
    earlier ones. *)
Definition Chosen (seen : list string) (b : Best) : Prop :=
  (forall c c', c ∈ seen -> survivor c = Ok (Some c') -> better c' b = false) /\
  (b = initBest \/
   exists pre post,
     seen = pre ++ bestPark b :: post /\
     survivor (bestPark b) = Ok (Some b) /\
     forall c c', c ∈ pre -> survivor c = Ok (Some c') -> better b c' = true).

End Candidates.

(** ** Graphs built by [addEdge] *)

(** Every neighbour listed in the map has an adjacency list of its own. *)
Definition graphClosed (g : Graph) : Prop :=
  map_Forall (fun _ l => Forall (fun ve : string * EdgeData => ve.1 ∈ dom g) l) g.

(** No adjacency list names the same neighbour twice. *)
Definition simpleGraph (g : Graph) : Prop :=
  map_Forall (fun _ (l : list (string * EdgeData)) => NoDup (l.*1)) g.

Global Instance graphClosed_dec g : Decision (graphClosed g).
Proof. unfold graphClosed. apply _. Defined.

Global Instance simpleGraph_dec g : Decision (simpleGraph g).
Proof. unfold simpleGraph. apply _. Defined.

(** The data of the entries of [l] that lead to [b], in order. *)
Definition entriesTo (b : string) (l : list (string * EdgeData)) : list EdgeData :=
  (filter (fun ve : string * EdgeData => ve.1 = b) l).*2.

(** ** Aggregation read as a fold over the segment times *)

(** The segment times of a path, in order. *)
Definition timesOf (weight : EdgeData -> Z) (g : Graph) (path : list string)
    : list (option Z) :=
  (fun ab : string * string => segmentTime weight g ab.1 ab.2) <$> segmentsOf path.

(** The running total of [sumTimes] over a list of segment times. *)
Fixpoint foldTimes (ts : list (option Z)) (total : Z) : Z :=
  match ts with
  | [] => total
  | Some w :: rest => foldTimes rest (int_add total w)
  | None :: _ => -1
  end.

Definition sumZ (ws : list Z) : Z := foldr Z.add 0 ws.

(** ** Routes and their cost *)

(** A route with one adjacency entry chosen for each step, every entry
    passing the guards of the search, and the exact sum of the driving
    times of the chosen entries. *)
Inductive realises (skip : string -> string -> EdgeData -> bool) (g : Graph)
    : list string -> Z -> Prop :=
| realises_one x : realises skip g [x] 0
| realises_cons x y rest e c :
    (y, e) ∈ neighbors g x -> skip x y e = false ->
    realises skip g (y :: rest) c ->
    realises skip g (x :: y :: rest) (drivingTime e + c).

(** Every segment of the path has an adjacency entry open to cars. *)
Definition drivable (g : Graph) (path : list string) : Prop :=
  forall a b, (a, b) ∈ segmentsOf path ->
    exists e, (b, e) ∈ neighbors g a /\ drivingTime e ≠ -1.

(** The distance of a node with a predecessor is the distance of the
    predecessor plus the driving time of an entry between them; a node of
    the map that was never reached still has the initial distance. *)
Record Exact (skip : string -> string -> EdgeData -> bool) (g : Graph)
    (source : string) (st : DState) : Prop := mkExact
  { exact_prev : forall v u, prev st !! v = Some u ->
      exists e, (v, e) ∈ neighbors g u /\ skip u v e = false /\
                distAt (dist st) v = distAt (dist st) u + drivingTime e;
    exact_unreached : forall y,
      y ∈ dom g -> y ≠ source -> y ∉ dom (prev st) ->
      distAt (dist st) y = INT_MAX }.

(** The entries [l] of [x] have been relaxed: their targets are reached
    and are no farther than through [x]. *)
Definition relaxedFrom (skip : string -> string -> EdgeData -> bool)
    (source : string) (st : DState) (x : string)
    (l : list (string * EdgeData)) : Prop :=
  forall v e, (v, e) ∈ l -> skip x v e = false ->
    (v = source \/ v ∈ dom (prev st)) /\
    distAt (dist st) v <= distAt (dist st) x + drivingTime e.

(** All entries of the visited nodes have been relaxed, those of [u] only
    as far as [done]. *)
Definition RelaxedBut (skip : string -> string -> EdgeData -> bool) (g : Graph)
    (source : string) (u : string) (done : list (string * EdgeData))
    (st : DState) : Prop :=
  (forall x, x ∈ visited st -> x ≠ u ->
     relaxedFrom skip source st x (neighbors g x)) /\
  relaxedFrom skip source st u done.

Definition Relaxed (skip : string -> string -> EdgeData -> bool) (g : Graph)
    (source : string) (st : DState) : Prop :=
  forall x, x ∈ visited st -> relaxedFrom skip source st x (neighbors g x).

Definition Optimal (skip : string -> string -> EdgeData -> bool) (g : Graph)
    (source : string) (st : DState) : Prop :=
  Settled skip g source st /\ Exact skip g source st /\
  Relaxed skip g source st.

(** The path keeps clear of the excluded nodes after its first one and of
    the excluded segments, in both directions. *)
Definition respects (avoidNodes : gset string)
    (avoidSegments : gset (string * string)) (path : list string) : Prop :=
  forall a b, (a, b) ∈ segmentsOf path ->
    (b ∉ avoidNodes) /\ ((a, b) ∉ avoidSegments) /\ ((b, a) ∉ avoidSegments).

(** ** Characters of a code *)

Fixpoint hasSpace (s : string) : bool :=
  match s with
  | EmptyString => false
  | String c rest => Ascii.eqb c " "%char || hasSpace rest
  end.

(** ** The same map with other walking times *)

(** Every entry keeps its neighbour and its driving time and gets the
    walking time [h] gives it. *)
Definition setWalking (h : EdgeData -> Z) (g : Graph) : Graph :=
  (fun l : list (string * EdgeData) =>
     (fun ve : string * EdgeData =>
        (ve.1, mkEdgeData (drivingTime ve.2) (h ve.2))) <$> l) <$> g.

(** * The example of the specification and other concrete maps *)

(** A–B (10, 20), B–D (10, 20), A–C (5, no walking), C–D (5, 15); C has
    parking. *)
Definition scenarioGraph : Graph :=
  buildGraph [mkEdge "A" "B" 10 20; mkEdge "B" "D" 10 20;
              mkEdge "A" "C" 5 (-1); mkEdge "C" "D" 5 15].

Definition scenarioLocations : list Location :=
  [mkLocation "a" 1 "A" false; mkLocation "b" 2 "B" false;
   mkLocation "c" 3 "C" true; mkLocation "d" 4 "D" false].

(** A single segment A–B (10, 20). *)
Definition twoNodeGraph : Graph := buildGraph [mkEdge "A" "B" 10 20].

(** A segment listed twice, the first time closed to cars. *)
Definition parallelGraph : Graph :=
  buildGraph [mkEdge "A" "B" (-1) 5; mkEdge "A" "B" 7 5; mkEdge "B" "C" 3 5].

(** B and C have parking. *)
Definition twoParkings : list Location :=
  [mkLocation "a" 1 "A" false; mkLocation "b" 2 "B" true;
   mkLocation "c" 3 "C" true; mkLocation "d" 4 "D" false].

(** A, C and D have parking. *)
Definition parkingAtEnds : list Location :=
  [mkLocation "a" 1 "A" true; mkLocation "b" 2 "B" false;
   mkLocation "c" 3 "C" true; mkLocation "d" 4 "D" true].

(** A–C (5, 10), C–D (5, no walking); C has parking. *)
Definition unwalkableGraph : Graph :=
  buildGraph [mkEdge "A" "C" 5 10; mkEdge "C" "D" 5 (-1)].

(** S–A with a negative driving time, then A–D (1, 1); S has parking. *)
Definition negativeStartGraph : Graph :=
  buildGraph [mkEdge "S" "A" (-5) 1; mkEdge "A" "D" 1 1].

Definition parkingAtStart : list Location :=
  [mkLocation "s" 1 "S" true; mkLocation "a" 2 "A" false;
   mkLocation "d" 3 "D" false].

(** S–A (1, 1) and A–B with a negative driving time. *)
Definition negativeGraph : Graph :=
  buildGraph [mkEdge "S" "A" 1 1; mkEdge "A" "B" (-5) 1].

(** * Properties *)

(** ** Machine integers *)

Lemma wrap_small z : INT_MIN <= z <= INT_MAX -> wrap z = z.
Proof.
  unfold wrap, INT_MIN, INT_MAX. intros H.
  rewrite Z.mod_small; lia.
Qed.

Lemma wrap_range z : INT_MIN <= wrap z <= INT_MAX.
Proof.
  unfold wrap, INT_MIN, INT_MAX.
  pose proof (Z.mod_pos_bound (z + 2147483648) 4294967296). lia.
Qed.

Lemma wrap_add_l a b : wrap (wrap a + b) = wrap (a + b).
Proof.
  unfold wrap.
  replace ((a + 2147483648) mod 4294967296 - 2147483648 + b + 2147483648)
    with ((a + 2147483648) mod 4294967296 + b) by lia.
  rewrite Zplus_mod_idemp_l. f_equal. f_equal. lia.
Qed.

Lemma int_add_assoc a b c : int_add (int_add a b) c = int_add a (int_add b c).
Proof.
  unfold int_add. rewrite wrap_add_l.
  rewrite (Z.add_comm a (wrap (b + c))), wrap_add_l. f_equal. lia.
Qed.

Lemma int_add_0_l a : INT_MIN <= a <= INT_MAX -> int_add 0 a = a.
Proof. intros. unfold int_add. by rewrite wrap_small. Qed.

(** ** The priority queue *)

Lemma pqTop_elem q m : pqTop q = Some m -> m ∈ q.
Proof.
  revert m. induction q as [|x q IH]; intros m; simpl; [done|].
  destruct (pqTop q) as [m'|] eqn:E.
  - destruct (pairLeb x m'); intros [= <-]; [left | right; by apply IH].
  - intros [= <-]. left.
Qed.

Lemma pqTop_least q m x : pqTop q = Some m -> x ∈ q -> m.1 <= x.1.
Proof.
  revert m. induction q as [|y q IH]; intros m; simpl; [done|].
  intros Htop Hx.
  destruct (pqTop q) as [m'|] eqn:E.
  - destruct (pairLeb y m') eqn:Hle.
    + injection Htop as <-.
      apply elem_of_cons in Hx as [-> | Hx]; [lia|].
      specialize (IH m' eq_refl Hx).
      unfold pairLeb in Hle.
      apply orb_true_iff in Hle as [Hlt | Heq]; [lia|].
      apply andb_true_iff in Heq as [Heq _]. lia.
    + injection Htop as <-.
      apply elem_of_cons in Hx as [-> | Hx]; [|by apply IH].
      unfold pairLeb in Hle.
      apply orb_false_iff in Hle as [Hlt _]. lia.
  - destruct q; [|simpl in E; destruct (pqTop q); [destruct (pairLeb p _)|]; done].
    injection Htop as <-.
    apply elem_of_cons in Hx as [-> | Hx]; [lia | by apply elem_of_nil in Hx].
Qed.

Lemma removeOne_subset x q y : y ∈ removeOne x q -> y ∈ q.
Proof.
  induction q as [|z q IH]; simpl; [done|].
  destruct (decide (x = z)); [by right|].
  intros [-> | H]%elem_of_cons; [left | right; by apply IH].
Qed.

Lemma removeOne_other x q y : y ∈ q -> y ≠ x -> y ∈ removeOne x q.
Proof.
  induction q as [|z q IH]; simpl; [done|].
  intros [-> | H]%elem_of_cons Hne.
  - destruct (decide (x = z)); [congruence | left].
  - destruct (decide (x = z)); [done | right; by apply IH].
Qed.

Lemma removeOne_length x q : x ∈ q -> S (length (removeOne x q)) = length q.
Proof.
  induction q as [|z q IH]; simpl; [by intros ?%elem_of_nil|].
  intros Hx. destruct (decide (x = z)); [done|].
  apply elem_of_cons in Hx as [-> | Hx]; [done|].
  simpl. by rewrite IH.
Qed.

Lemma pqPop_Some q m rest :
  pqPop q = Some (m, rest) ->
  m ∈ q /\ S (length rest) = length q /\
  (forall x, x ∈ q -> m.1 <= x.1) /\
  (forall x, x ∈ rest -> x ∈ q) /\
  (forall x, x ∈ q -> x ≠ m -> x ∈ rest).
Proof.
  unfold pqPop. destruct (pqTop q) as [m'|] eqn:E; [|done].
  intros [= <- <-]. pose proof (pqTop_elem _ _ E) as Hm.
  repeat split.
  - done.
  - by apply removeOne_length.
  - intros x Hx. by eapply pqTop_least.
  - intros x. apply removeOne_subset.
  - intros x Hx Hne. by apply removeOne_other.
Qed.

Lemma pqPop_None q : pqPop q = None -> q = [].
Proof.
  unfold pqPop. destruct q as [|x q]; [done|]. simpl.
  destruct (pqTop q); [destruct (pairLeb x p)|]; done.
Qed.

(** ** Sums over the adjacency map *)

Section MapSum.

Context {A : Type} (add : A -> A -> A) (zero : A).
Hypothesis add_zero : forall x, add zero x = x.
Hypothesis add_swap : forall x y z, add x (add y z) = add y (add x z).

Variable w : list (string * EdgeData) -> A.
Hypothesis w_nil : w [] = zero.

Local Abbreviation pendingSum := (pendingSum add zero w).

Lemma pendingSum_insert vis (g : Graph) u l :
  g !! u = None ->
  pendingSum vis (<[u := l]> g)
  = add (if decide (u ∈ vis) then zero else w l) (pendingSum vis g).
Proof.
  intros Hu. unfold pendingSum.
  rewrite map_fold_insert_L; [done | | done].
  intros. apply add_swap.
Qed.

Lemma pendingSum_visit vis (g : Graph) u :
  u ∉ vis ->
  pendingSum vis g = add (w (neighbors g u)) (pendingSum ({[u]} ∪ vis) g).
Proof.
  intros Hu. induction g as [|k l m Hk IH] using map_ind.
  - unfold neighbors, pendingSum. rewrite lookup_empty, !map_fold_empty. simpl.
    by rewrite w_nil, add_zero.
  - rewrite !pendingSum_insert by done. rewrite IH.
    unfold neighbors. destruct (decide (k = u)) as [-> | Hne].
    + rewrite lookup_insert_eq, Hk. simpl. rewrite w_nil, add_zero.
      rewrite decide_False by done.
      rewrite decide_True by set_solver. by rewrite add_zero.
    + rewrite lookup_insert_ne by done.
      destruct (decide (k ∈ vis)) as [Hin | Hin].
      * rewrite decide_True by set_solver. by rewrite !add_zero.
      * rewrite decide_False by set_solver. apply add_swap.
Qed.

End MapSum.

Lemma pendingEdges_empty (g : Graph) : pendingEdges ∅ g = edgeCount g.
Proof.
  unfold pendingEdges, edgeCount.
  induction g as [|k l m Hk IH] using map_ind.
  - unfold pendingSum. by rewrite !map_fold_empty.
  - rewrite pendingSum_insert by (done || intros; lia).
    rewrite map_fold_insert_L by (done || intros; lia).
    rewrite IH. by rewrite decide_False by set_solver.
Qed.

Lemma pendingEdges_visit vis (g : Graph) u :
  u ∉ vis ->
  pendingEdges vis g
  = (length (neighbors g u) + pendingEdges ({[u]} ∪ vis) g)%nat.
Proof.
  intros. unfold pendingEdges.
  apply (pendingSum_visit Nat.add O); auto; intros; lia.
Qed.

(** ** The main loop terminates *)

Section SearchFacts.

Variable skip : string -> string -> EdgeData -> bool.
Variable g : Graph.

Local Abbreviation workLeft := (workLeft g).

Lemma relaxEdge_visited u v e st :
  visited (relaxEdge skip u v e st) = visited st.
Proof.
  unfold relaxEdge. destruct (skip u v e); [done|].
  by destruct (_ >? _).
Qed.

Lemma relaxEdge_pq_length u v e st :
  (length (pq (relaxEdge skip u v e st)) <= S (length (pq st)))%nat.
Proof.
  unfold relaxEdge. destruct (skip u v e); [lia|].
  destruct (_ >? _); simpl; lia.
Qed.

Lemma relaxEdges_visited u edges st :
  visited (relaxEdges skip u edges st) = visited st.
Proof.
  revert st. induction edges as [|[v e] edges IH]; intros st; simpl; [done|].
  by rewrite IH, relaxEdge_visited.
Qed.

Lemma relaxEdges_pq_length u edges st :
  (length (pq (relaxEdges skip u edges st)) <= length edges + length (pq st))%nat.
Proof.
  revert st. induction edges as [|[v e] edges IH]; intros st; simpl; [lia|].
  specialize (IH (relaxEdge skip u v e st)).
  pose proof (relaxEdge_pq_length u v e st). lia.
Qed.

Lemma visitNode_workLeft st d u rest :
  pqPop (pq st) = Some ((d, u), rest) ->
  (S (workLeft (visitNode skip g u rest st)) <= workLeft st)%nat.
Proof.
  intros (_ & Hlen & _)%pqPop_Some.
  unfold visitNode, workLeft. case_bool_decide as Hvis; simpl.
  - lia.
  - rewrite relaxEdges_visited. simpl.
    pose proof (relaxEdges_pq_length u (neighbors g u)
      {| dist := dist st; prev := prev st;
         visited := {[u]} ∪ visited st; pq := rest |}) as Hpq.
    simpl in Hpq. rewrite (pendingEdges_visit (visited st) g u) by done. lia.
Qed.

Lemma dijkstraLoop_terminates fuel st :
  (workLeft st <= fuel)%nat ->
  exists st', dijkstraLoop skip g fuel st = Some st'.
Proof.
  revert st. induction fuel as [|fuel IH]; intros st Hfuel.
  - simpl. destruct (pqPop (pq st)) as [[[d u] rest]|] eqn:E; [|eauto].
    apply visitNode_workLeft in E. lia.
  - simpl. destruct (pqPop (pq st)) as [[[d u] rest]|] eqn:E; [|eauto].
    apply IH. apply visitNode_workLeft in E. lia.
Qed.

Lemma dijkstraLoop_initState source :
  exists st, dijkstraLoop skip g (S (edgeCount g)) (initState g source) = Some st.
Proof.
  apply dijkstraLoop_terminates.
  unfold workLeft, initState. simpl. rewrite pendingEdges_empty. lia.
Qed.

(** An invariant of the loop holds of its final state, whose queue is
    empty. *)
Lemma dijkstraLoop_invariant (P : DState -> Prop) :
  (forall st d u rest,
      P st -> pqPop (pq st) = Some ((d, u), rest) ->
      P (visitNode skip g u rest st)) ->
  forall fuel st st',
    P st -> dijkstraLoop skip g fuel st = Some st' -> P st' /\ pq st' = [].
Proof.
  intros Hstep fuel. induction fuel as [|fuel IH]; intros st st' HP; simpl.
  - destruct (pqPop (pq st)) as [[[d u] rest]|] eqn:E; [done|].
    intros [= <-]. split; [done | by apply pqPop_None].
  - destruct (pqPop (pq st)) as [[[d u] rest]|] eqn:E.
    + apply IH. by eapply Hstep.
    + intros [= <-]. split; [done | by apply pqPop_None].
Qed.

Lemma relaxEdges_invariant (P : DState -> Prop) u edges :
  (forall st v e, P st -> (v, e) ∈ edges -> P (relaxEdge skip u v e st)) ->
  forall st, P st -> P (relaxEdges skip u edges st).
Proof.
  induction edges as [|[v e] edges IH]; intros Hstep st HP; simpl; [done|].
  apply IH.
  - intros st' v' e' HP' Hin. apply Hstep; [done | by right].
  - apply Hstep; [done | left].
Qed.

End SearchFacts.

(** ** Paths *)

Lemma segmentsOf_snoc r y x :
  last r = Some y -> segmentsOf (r ++ [x]) = segmentsOf r ++ [(y, x)].
Proof.
  unfold segmentsOf. induction r as [|a [|b r] IH]; simpl; intros Hlast.
  - done.
  - by injection Hlast as ->.
  - f_equal. by apply IH.
Qed.

Lemma segmentsOf_app r1 a r2 :
  segmentsOf (r1 ++ a :: r2)
  = segmentsOf (r1 ++ [a]) ++ segmentsOf (a :: r2).
Proof.
  unfold segmentsOf. induction r1 as [|b [|c r1] IH]; simpl.
  - done.
  - done.
  - f_equal. apply IH.
Qed.

Lemma segmentsOf_nodes r x y :
  (x, y) ∈ segmentsOf r -> x ∈ r /\ y ∈ tail r.
Proof.
  unfold segmentsOf. intros H. apply elem_of_zip_l in H as Hx.
  apply elem_of_zip_r in H as Hy. done.
Qed.

Lemma walkBack_chain fuel p s a acc path :
  walkBack fuel p s a acc = Some path ->
  exists l, path = acc ++ l /\ chainTo p s a l.
Proof.
  revert a acc. induction fuel as [|fuel IH]; intros a acc; simpl.
  - destruct (decide (a = s)) as [-> | Hne]; [|done].
    intros [= <-]. exists []. split; [by rewrite app_nil_r | constructor].
  - destruct (decide (a = s)) as [-> | Hne].
    + intros [= <-]. exists []. split; [by rewrite app_nil_r | constructor].
    + intros (l & -> & Hl)%IH. exists (a :: l).
      split; [by rewrite <- app_assoc | by constructor].
Qed.

Lemma chainTo_det p s a l1 l2 :
  chainTo p s a l1 -> chainTo p s a l2 -> l1 = l2.
Proof.
  intros H1. revert l2. induction H1 as [|a l Hne H1 IH]; intros l2 H2.
  - by inversion H2.
  - inversion H2 as [|a' l' Hne' H2']; subst; [done|].
    f_equal. by apply IH.
Qed.

Lemma chainTo_suffix p s a l1 b l2 :
  chainTo p s a (l1 ++ b :: l2) -> chainTo p s b (b :: l2).
Proof.
  revert a. induction l1 as [|c l1 IH]; intros a H; simpl in H.
  - by inversion H; subst.
  - inversion H; subst. eauto.
Qed.

Lemma chainTo_fresh p s a l : chainTo p s a (a :: l) -> a ∉ l.
Proof.
  intros H Hin. apply list_elem_of_split in Hin as (l1 & l2 & ->).
  pose proof (chainTo_suffix p s a (a :: l1) a l2 H) as H'.
  pose proof (chainTo_det _ _ _ _ _ H H') as Heq.
  apply (f_equal length) in Heq. simpl in Heq.
  rewrite length_app in Heq. simpl in Heq. lia.
Qed.

Lemma chainTo_NoDup p s a l : chainTo p s a l -> NoDup l /\ s ∉ l.
Proof.
  induction 1 as [|a l Hne H [IH1 IH2]].
  - split; [constructor | by intros ?%elem_of_nil].
  - split.
    + constructor; [|done]. apply (chainTo_fresh p s). by constructor.
    + intros [-> | Hin]%elem_of_cons; done.
Qed.

(** *** The steps allowed to [walkBack] are enough *)

Lemma chainTo_walkBack p s a l : forall fuel acc,
  chainTo p s a l -> (length l <= fuel)%nat ->
  walkBack fuel p s a acc = Some (acc ++ l).
Proof.
  intros fuel acc H. revert fuel acc.
  induction H as [|a l Hne H IH]; intros fuel acc Hlen.
  - destruct fuel; simpl; rewrite decide_True by done; by rewrite app_nil_r.
  - destruct fuel as [|fuel]; [simpl in Hlen; lia|]. simpl.
    rewrite decide_False by done. rewrite IH by (simpl in Hlen; lia).
    by rewrite <- app_assoc.
Qed.

Lemma chainTo_successors p s a l :
  chainTo p s a l -> prevAt p <$> l = tail (l ++ [s]).
Proof.
  induction 1 as [|a l Hne H IH]; [done|].
  rewrite fmap_cons, IH. inversion H; subst; done.
Qed.

Lemma NoDup_fmap_eq {A B} (f : A -> B) (l : list A) x y :
  NoDup (f <$> l) -> x ∈ l -> y ∈ l -> f x = f y -> x = y.
Proof.
  induction l as [|a l IH]; [by intros _ ?%elem_of_nil|].
  rewrite fmap_cons. intros [Ha Hnd]%NoDup_cons.
  intros [-> | Hx]%elem_of_cons [-> | Hy]%elem_of_cons Heq.
  - done.
  - exfalso. apply Ha. rewrite Heq. by apply list_elem_of_fmap_2.
  - exfalso. apply Ha. rewrite <- Heq. by apply list_elem_of_fmap_2.
  - by apply IH.
Qed.

(** A chain repeats no node and each node outside the map steps to the
    empty string, so at most one node of a chain is outside the map. *)
Lemma chainTo_length p s a l :
  chainTo p s a l -> (length l <= S (size p))%nat.
Proof.
  intros H.
  destruct (chainTo_NoDup _ _ _ _ H) as [Hnd Hs].
  assert (NoDup (prevAt p <$> l)) as Hsucc.
  { rewrite (chainTo_successors _ _ _ _ H).
    destruct l as [|x l]; [simpl; apply NoDup_nil_2|]. simpl.
    apply NoDup_cons in Hnd as [_ Hnd].
    apply NoDup_app. split; [done|]. split; [|apply NoDup_singleton].
    intros y Hy ->%list_elem_of_singleton. apply Hs. by right. }
  assert (exists z, forall x, x ∈ l -> x ∈ dom p \/ x = z) as [z Hz].
  { destruct (decide (Forall (fun x => x ∈ dom p) l)) as [Hall | Hnot].
    - exists a. intros x Hx. left. by eapply Forall_forall in Hall.
    - apply not_Forall_Exists, Exists_exists in Hnot as (z & Hzl & Hzd);
        [|apply _].
      exists z. intros x Hx.
      destruct (decide (x ∈ dom p)) as [|Hxd]; [by left | right].
      apply (NoDup_fmap_eq (prevAt p) l); try done.
      unfold prevAt.
      apply not_elem_of_dom in Hxd, Hzd. by rewrite Hxd, Hzd. }
  rewrite <- (size_list_to_set (C := gset string) l Hnd).
  assert (list_to_set l ⊆ dom p ∪ ({[z]} : gset string)) as Hsub.
  { intros x Hx%elem_of_list_to_set. destruct (Hz x Hx); set_solver. }
  apply subseteq_size in Hsub.
  pose proof (size_union_alt (dom p) ({[z]} : gset string)) as Hsz.
  assert (size ({[z]} ∖ dom p : gset string) <= 1)%nat as H1.
  { etrans; [apply subseteq_size, subseteq_difference_l; reflexivity|].
    by rewrite size_singleton. }
  rewrite size_dom in Hsz. lia.
Qed.

(** If the walk reaches the source at all, it does so within the steps
    that [search] allows: running out of them means that the loop of the
    source never ends. *)
Lemma walkBack_fuel_enough fuel p s a acc path :
  walkBack fuel p s a acc = Some path ->
  walkBack (S (size p)) p s a acc = Some path.
Proof.
  intros (l & -> & Hl)%walkBack_chain.
  apply chainTo_walkBack; [done|]. by eapply chainTo_length.
Qed.

(** The path that [search] hands back for a chain: the source, then the
    chain in reverse. *)
Lemma chainTo_route p s a l :
  chainTo p s a l ->
  reverse (l ++ [s]) = s :: reverse l /\
  last (reverse (l ++ [s])) = Some a /\
  (forall x y, (x, y) ∈ segmentsOf (reverse (l ++ [s])) ->
               y ∈ l /\ x = prevAt p y).
Proof.
  induction 1 as [|a l Hne H (IH1 & IH2 & IH3)].
  - split; [done|]. split; [done|].
    intros x y. unfold segmentsOf. simpl. by intros ?%elem_of_nil.
  - assert (reverse ((a :: l) ++ [s]) = reverse (l ++ [s]) ++ [a]) as Hrev.
    { simpl. by rewrite reverse_cons. }
    rewrite Hrev. split; [|split].
    + rewrite IH1. rewrite reverse_cons. done.
    + by rewrite last_snoc.
    + intros x y. rewrite (segmentsOf_snoc _ _ _ IH2).
      intros [Hin | Hin]%elem_of_app.
      * apply IH3 in Hin as [? ?]. split; [by right | done].
      * apply list_elem_of_singleton in Hin as [= -> ->]. split; [left | done].
Qed.

(** ** The structure of the search state *)

Section Reachability.

Variable skip : string -> string -> EdgeData -> bool.
Variable g : Graph.
Variable source : string.

Local Abbreviation Reach := (Reach skip g source).

Lemma Reach_init : Reach (initState g source).
Proof.
  split; simpl.
  - intros k y [= _ ->]%list_elem_of_singleton. by left.
  - intros y ?%not_elem_of_empty. done.
  - intros v u. by rewrite lookup_empty.
Qed.

Lemma Reach_relaxEdge st u v e :
  Reach st -> u ∈ visited st -> (v, e) ∈ neighbors g u ->
  Reach (relaxEdge skip u v e st).
Proof.
  intros [Hpq Hvis Hprev] Hu Hin. unfold relaxEdge.
  destruct (skip u v e) eqn:Hskip; [done|].
  destruct (_ >? _); [|done].
  split; simpl.
  - intros k y [[= _ ->] | Hy]%elem_of_cons.
    + right. rewrite dom_insert_L. set_solver.
    + destruct (Hpq _ _ Hy); [by left | right].
      rewrite dom_insert_L. set_solver.
  - intros y Hy. destruct (Hvis _ Hy); [by left | right].
    rewrite dom_insert_L. set_solver.
  - intros v' u'. destruct (decide (v = v')) as [<- | Hne].
    + rewrite lookup_insert_eq. intros [= <-]. eauto.
    + rewrite lookup_insert_ne by done. apply Hprev.
Qed.

Lemma Reach_visitNode st d u rest :
  Reach st -> pqPop (pq st) = Some ((d, u), rest) ->
  Reach (visitNode skip g u rest st).
Proof.
  intros HR (Hin & _ & _ & Hsub & _)%pqPop_Some.
  destruct HR as [Hpq Hvis Hprev].
  unfold visitNode. case_bool_decide as Hu.
  - split; simpl; eauto.
  - refine (proj1 (relaxEdges_invariant skip
      (fun st' => Reach st' /\ u ∈ visited st') u _ _ _ _)).
    + intros st' v e [HR' Hu'] Hve. split.
      * by apply Reach_relaxEdge.
      * by rewrite relaxEdge_visited.
    + split; [|simpl; set_solver].
      split; simpl.
      * eauto.
      * intros y [->%elem_of_singleton | Hy]%elem_of_union; eauto.
      * intros v w Hvw. destruct (Hprev _ _ Hvw) as [? ?].
        split; [set_solver | done].
Qed.

Lemma Reach_final fuel st :
  dijkstraLoop skip g fuel (initState g source) = Some st ->
  Reach st /\ pq st = [].
Proof.
  apply dijkstraLoop_invariant; [|apply Reach_init].
  intros. by eapply Reach_visitNode.
Qed.

Lemma Reach_chain st a l :
  Reach st -> chainTo (prev st) source a l ->
  a = source \/ a ∈ dom (prev st) ->
  forall y, y ∈ l -> prev st !! y = Some (prevAt (prev st) y).
Proof.
  intros HR. induction 1 as [|a l Hne H IH]; intros Ha y Hy.
  - by apply elem_of_nil in Hy.
  - destruct Ha as [-> | Ha]; [done|].
    apply elem_of_dom in Ha as [u Hu].
    apply elem_of_cons in Hy as [-> | Hy].
    + unfold prevAt. by rewrite Hu.
    + apply IH; [|done].
      unfold prevAt. rewrite Hu. simpl.
      destruct (reach_prev _ _ _ _ HR _ _ Hu) as [Hvis _].
      by apply (reach_visited _ _ _ _ HR).
Qed.

(** What [search] returns: the empty path, or a path from the source to
    the destination that repeats no node and whose every segment is an
    adjacency entry that passed the guards. *)
Lemma search_route dest r :
  search skip g source dest = Ok r -> r ≠ [] ->
  (exists t, r = source :: t) /\
  last r = Some dest /\
  NoDup r /\
  (forall x y, (x, y) ∈ segmentsOf r ->
     exists e, (y, e) ∈ neighbors g x /\ skip x y e = false).
Proof.
  unfold search.
  destruct (dijkstraLoop _ _ _ _) as [st|] eqn:Hloop; [|done].
  apply Reach_final in Hloop as [HR _].
  case_bool_decide as Hdest; [|by intros [= <-]].
  destruct (walkBack _ _ _ _ _) as [path|] eqn:Hwalk; [|done].
  apply walkBack_chain in Hwalk as (l & -> & Hchain). simpl.
  intros [= <-] _.
  destruct (chainTo_route _ _ _ _ Hchain) as (Hrev & Hlast & Hseg).
  destruct (chainTo_NoDup _ _ _ _ Hchain) as [Hnd Hs].
  split; [eauto|]. split; [done|]. split.
  - rewrite Hrev. constructor.
    + by rewrite elem_of_reverse.
    + by rewrite reverse_Permutation.
  - intros x y Hxy. apply Hseg in Hxy as [Hy ->].
    pose proof (Reach_chain st dest l HR Hchain (or_intror Hdest) y Hy) as Hp.
    by destruct (reach_prev _ _ _ _ HR _ _ Hp) as [_ ?].
Qed.

(** The search never reads outside a vector. *)
Lemma search_in_bounds dest : search skip g source dest ≠ OutOfBounds.
Proof.
  unfold search. destruct (dijkstraLoop _ _ _ _); [|done].
  case_bool_decide; [|done]. by destruct (walkBack _ _ _ _ _).
Qed.

(** [search] reports non-termination only when the walk back from the
    destination never meets the source, however long it goes on. *)
Lemma search_NonTermination dest :
  search skip g source dest = NonTermination ->
  exists st,
    dijkstraLoop skip g (S (edgeCount g)) (initState g source) = Some st /\
    forall fuel acc, walkBack fuel (prev st) source dest acc = None.
Proof.
  unfold search.
  destruct (dijkstraLoop_initState skip g source) as [st Hst]. rewrite Hst.
  case_bool_decide; [|done].
  destruct (walkBack (S _) _ _ _ _) as [path|] eqn:Hwalk; [done|].
  intros _. exists st. split; [done|]. intros fuel acc.
  destruct (walkBack fuel _ _ _ acc) as [path|] eqn:Hfuel; [|done].
  apply walkBack_chain in Hfuel as (l & _ & Hl).
  rewrite (chainTo_walkBack _ _ _ l (S (size (prev st))) [] Hl) in Hwalk;
    [done | by eapply chainTo_length].
Qed.

End Reachability.

Lemma tail_segmentsOf r y :
  y ∈ tail r -> exists x, (x, y) ∈ segmentsOf r.
Proof.
  unfold segmentsOf. induction r as [|a [|b r] IH]; simpl.
  - by intros ?%elem_of_nil.
  - by intros ?%elem_of_nil.
  - intros [-> | Hy]%elem_of_cons.
    + exists a. left.
    + destruct (IH Hy) as [x Hx]. exists x. by right.
Qed.

(** ** The guards of the three loops *)

Lemma skipRestricted_false avoidNodes avoidSegments u v e :
  skipRestricted avoidNodes avoidSegments u v e = false ->
  drivingTime e ≠ (-1) ∧ (v ∉ avoidNodes) ∧
  ((u, v) ∉ avoidSegments) ∧ ((v, u) ∉ avoidSegments).
Proof.
  unfold skipRestricted.
  destruct (drivingTime e =? -1) eqn:Hd; [done|].
  case_bool_decide as Hv; [done|].
  intros [H1 H2]%orb_false_iff.
  apply bool_decide_eq_false in H1, H2. apply Z.eqb_neq in Hd. done.
Qed.

Lemma skipAlternative_restricted forbiddenNodes forbiddenEdges u v e :
  skipAlternative forbiddenNodes forbiddenEdges u v e
  = skipRestricted forbiddenNodes forbiddenEdges u v e.
Proof. done. Qed.

Lemma skipRestricted_empty u v e :
  skipRestricted ∅ ∅ u v e = skipShortest u v e.
Proof.
  unfold skipRestricted, skipShortest.
  destruct (drivingTime e =? -1); [done|].
  rewrite !bool_decide_eq_false_2 by set_solver. done.
Qed.

(** The loop reads the guards only through their values. *)
Section SkipExt.

Variables skip1 skip2 : string -> string -> EdgeData -> bool.
Hypothesis skip_ext : forall u v e, skip1 u v e = skip2 u v e.
Variable g : Graph.

Lemma relaxEdges_ext u edges st :
  relaxEdges skip1 u edges st = relaxEdges skip2 u edges st.
Proof.
  revert st. induction edges as [|[v e] edges IH]; intros st; simpl; [done|].
  rewrite IH. unfold relaxEdge. by rewrite skip_ext.
Qed.

Lemma dijkstraLoop_ext fuel st :
  dijkstraLoop skip1 g fuel st = dijkstraLoop skip2 g fuel st.
Proof.
  revert st. induction fuel as [|fuel IH]; intros st; simpl; [done|].
  destruct (pqPop (pq st)) as [[[d u] rest]|]; [|done].
  rewrite IH. unfold visitNode. by rewrite relaxEdges_ext.
Qed.

Lemma search_ext source dest :
  search skip1 g source dest = search skip2 g source dest.
Proof. unfold search. by rewrite dijkstraLoop_ext. Qed.

End SkipExt.

(** ** Well-formed graphs: no negative duration, no overflow *)

Lemma driveWeight_nonneg l : 0 <= driveWeight l.
Proof. induction l as [|ve l IH]; simpl; lia. Qed.

Lemma pendingDrive_empty (g : Graph) : pendingDrive ∅ g = driveTotal g.
Proof.
  unfold pendingDrive, driveTotal.
  induction g as [|k l m Hk IH] using map_ind.
  - unfold pendingSum. by rewrite !map_fold_empty.
  - rewrite pendingSum_insert by (done || intros; lia).
    rewrite map_fold_insert_L by (done || intros; lia).
    rewrite IH. by rewrite decide_False by set_solver.
Qed.

Lemma pendingDrive_nonneg vis (g : Graph) : 0 <= pendingDrive vis g.
Proof.
  unfold pendingDrive.
  induction g as [|k l m Hk IH] using map_ind.
  - unfold pendingSum. by rewrite map_fold_empty.
  - rewrite pendingSum_insert by (done || intros; lia).
    pose proof (driveWeight_nonneg l). destruct (decide (k ∈ vis)); lia.
Qed.

Lemma pendingDrive_visit vis (g : Graph) u :
  u ∉ vis ->
  pendingDrive vis g
  = driveWeight (neighbors g u) + pendingDrive ({[u]} ∪ vis) g.
Proof.
  intros. unfold pendingDrive.
  apply (pendingSum_visit Z.add 0); auto; intros; lia.
Qed.

Lemma wfGraph_neighbors g u : wfGraph g -> Forall edgeOk (neighbors g u).
Proof.
  intros [Hall _]. unfold neighbors.
  destruct (g !! u) as [l|] eqn:E; simpl; [|constructor].
  by apply (Hall u l).
Qed.

Lemma distAt_insert d v x n :
  distAt (<[v := x]> d) n = if decide (v = n) then x else distAt d n.
Proof.
  unfold distAt. destruct (decide (v = n)) as [-> | Hne].
  - by rewrite lookup_insert_eq.
  - by rewrite lookup_insert_ne.
Qed.

Section Bounds.

Variable skip : string -> string -> EdgeData -> bool.
Hypothesis skip_sentinel : forall u v e, drivingTime e = -1 -> skip u v e = true.
Variable g : Graph.
Hypothesis g_wf : wfGraph g.
Variable source : string.

Local Abbreviation Reach := (Reach skip g source).
Local Abbreviation BoundedBy := (BoundedBy g source).
Local Abbreviation Bounded := (Bounded skip g source).
Local Abbreviation Mono := (Mono source).
Local Abbreviation Settled := (Settled skip g source).

Lemma BoundedBy_node slack st n :
  BoundedBy slack st -> n = source \/ n ∈ dom (prev st) ->
  0 <= distAt (dist st) n /\ distAt (dist st) n + slack <= driveTotal g.
Proof.
  intros [Hs _ Hslack Hd] [-> | Hn]; [|by apply Hd].
  rewrite Hs. lia.
Qed.

(** Under the bound the relaxation adds without wrapping. *)
Lemma relaxEdge_no_wrap slack st u e :
  BoundedBy (Z.max 0 (drivingTime e) + slack) st ->
  0 <= slack ->
  u = source \/ u ∈ dom (prev st) ->
  0 <= drivingTime e ->
  int_add (distAt (dist st) u) (drivingTime e)
  = distAt (dist st) u + drivingTime e.
Proof.
  intros HB Hslack Hu Hd.
  destruct (BoundedBy_node _ _ _ HB Hu) as [H0 H1].
  destruct g_wf as [_ Htot].
  unfold int_add. apply wrap_small. unfold INT_MIN. lia.
Qed.

Lemma BoundedBy_relaxEdge slack st u v e :
  BoundedBy (Z.max 0 (drivingTime e) + slack) st ->
  0 <= slack ->
  u = source \/ u ∈ dom (prev st) ->
  edgeOk (v, e) ->
  BoundedBy slack (relaxEdge skip u v e st).
Proof.
  intros HB Hslack Hu Hok.
  assert (BoundedBy slack st) as HB0.
  { destruct HB as [Hs Hp Hsl Hd]. split; [done | done | lia |].
    intros n Hn. specialize (Hd n Hn). lia. }
  unfold relaxEdge. destruct (skip u v e) eqn:Hskip; [done|].
  destruct Hok as [Hm1 | Hd]; simpl in *.
  { by rewrite skip_sentinel in Hskip. }
  rewrite (relaxEdge_no_wrap slack) by done.
  destruct (Z.gtb_spec (distAt (dist st) v) (distAt (dist st) u + drivingTime e))
    as [Hgt | Hle]; [|done].
  destruct (BoundedBy_node _ _ _ HB Hu) as [Hu0 Hu1].
  destruct HB as [Hs Hp Hsl Hdist].
  assert (v ≠ source) as Hv by (intros ->; lia).
  split; simpl.
  - rewrite distAt_insert. by rewrite decide_False.
  - by rewrite lookup_insert_ne.
  - lia.
  - intros n. rewrite dom_insert_L, distAt_insert.
    destruct (decide (v = n)) as [<- | Hne]; [lia|].
    intros Hn. assert (n ∈ dom (prev st)) as Hn' by set_solver.
    specialize (Hdist n Hn'). lia.
Qed.

Lemma relaxEdge_dom_prev st u v e n :
  n ∈ dom (prev st) -> n ∈ dom (prev (relaxEdge skip u v e st)).
Proof.
  unfold relaxEdge. destruct (skip u v e); [done|].
  destruct (_ >? _); [|done]. simpl. rewrite dom_insert_L. set_solver.
Qed.

Lemma BoundedBy_relaxEdges slack u edges st :
  BoundedBy (driveWeight edges + slack) st ->
  0 <= slack ->
  u = source \/ u ∈ dom (prev st) ->
  Forall edgeOk edges ->
  BoundedBy slack (relaxEdges skip u edges st).
Proof.
  revert st. induction edges as [|[v e] edges IH]; intros st HB Hslack Hu Hok.
  - done.
  - simpl in *. apply Forall_cons in Hok as [Hve Hok].
    pose proof (driveWeight_nonneg edges).
    apply IH; [| done | | done].
    + apply BoundedBy_relaxEdge; [| lia | done | done].
      by rewrite Z.add_assoc.
    + destruct Hu as [-> | Hu]; [by left | right].
      by apply relaxEdge_dom_prev.
Qed.

Lemma Bounded_init : Bounded (initState g source).
Proof.
  split; [apply Reach_init|].
  split; simpl.
  - by rewrite distAt_insert, decide_True.
  - apply lookup_empty.
  - rewrite pendingDrive_empty. pose proof (pendingDrive_nonneg ∅ g) as H.
    rewrite pendingDrive_empty in H. lia.
  - intros n. rewrite dom_empty_L. by intros ?%not_elem_of_empty.
Qed.

Lemma Bounded_visitNode st d u rest :
  Bounded st -> pqPop (pq st) = Some ((d, u), rest) ->
  Bounded (visitNode skip g u rest st).
Proof.
  intros [HR HB] Hpop. split; [by eapply Reach_visitNode|].
  apply pqPop_Some in Hpop as (Hin & _).
  unfold visitNode. case_bool_decide as Hu.
  - destruct HB. split; done.
  - rewrite relaxEdges_visited. simpl.
    apply BoundedBy_relaxEdges.
    + rewrite <- pendingDrive_visit by done.
      destruct HB. split; done.
    + apply pendingDrive_nonneg.
    + simpl. by apply (reach_pq _ _ _ _ HR d).
    + by apply wfGraph_neighbors.
Qed.

Lemma Bounded_final fuel st :
  dijkstraLoop skip g fuel (initState g source) = Some st ->
  Bounded st /\ pq st = [].
Proof.
  apply dijkstraLoop_invariant; [|apply Bounded_init].
  intros. by eapply Bounded_visitNode.
Qed.

(** A search from a node to itself finds no predecessor for it and
    returns the empty path. *)
Lemma search_self : search skip g source source = Ok [].
Proof.
  unfold search.
  destruct (dijkstraLoop_initState skip g source) as [st Hst].
  rewrite Hst. apply Bounded_final in Hst as [[_ HB] _].
  rewrite bool_decide_eq_false_2; [done|].
  rewrite elem_of_dom, (bnd_source_prev _ _ _ _ HB). by intros [? ?].
Qed.

(** *** The order of the visits *)

Lemma Mono_relaxEdge rk st u v e :
  Mono rk st -> Pivot u st ->
  (skip u v e = false ->
     0 <= drivingTime e /\
     int_add (distAt (dist st) u) (drivingTime e)
     = distAt (dist st) u + drivingTime e) ->
  Mono rk (relaxEdge skip u v e st) /\ Pivot u (relaxEdge skip u v e st).
Proof.
  intros HM [Hu Hord] Hadd. unfold relaxEdge.
  destruct (skip u v e); [done|].
  destruct (Hadd eq_refl) as [Hd ->].
  destruct (Z.gtb_spec (distAt (dist st) v) (distAt (dist st) u + drivingTime e))
    as [Hgt | Hle]; [|done].
  assert (v ∉ visited st) as Hv.
  { intros Hv. specialize (Hord v Hv). lia. }
  assert (forall x, x ∈ visited st -> v ≠ x) as Hne by (intros x Hx ->; done).
  destruct HM as [M1 M2 M3 M4 M5].
  split; [split|split]; simpl.
  - intros x k y Hx Hin. rewrite distAt_insert, decide_False by auto.
    apply elem_of_cons in Hin as [[= -> ->] | Hin]; [|eauto].
    specialize (Hord x Hx). lia.
  - intros k y Hin. rewrite distAt_insert.
    apply elem_of_cons in Hin as [[= -> ->] | Hin].
    + by rewrite decide_True.
    + destruct (decide (v = y)) as [<- | Hvy]; [|eauto].
      specialize (M2 _ _ Hin). lia.
  - intros y Hy Hvis. rewrite distAt_insert.
    destruct (decide (v = y)) as [<- | Hvy]; [left|].
    right. apply M3; [|done].
    destruct Hy as [-> | Hy]; [by left | right].
    rewrite dom_insert_L in Hy. set_solver.
  - intros v' u' Hp Hv'. rewrite lookup_insert_ne in Hp by auto. eauto.
  - done.
  - done.
  - intros x Hx. rewrite !distAt_insert, !decide_False by auto. auto.
Qed.

Lemma Mono_relaxEdges rk slack u edges st :
  BoundedBy (driveWeight edges + slack) st ->
  0 <= slack ->
  u = source \/ u ∈ dom (prev st) ->
  Forall edgeOk edges ->
  Mono rk st -> Pivot u st ->
  Mono rk (relaxEdges skip u edges st).
Proof.
  revert st.
  induction edges as [|[v e] edges IH]; intros st HB Hslack Hu Hok HM HP.
  - done.
  - simpl in *. apply Forall_cons in Hok as [Hve Hok].
    pose proof (driveWeight_nonneg edges).
    assert (BoundedBy (Z.max 0 (drivingTime e) + (driveWeight edges + slack)) st)
      as HB' by (by rewrite Z.add_assoc).
    destruct (Mono_relaxEdge rk st u v e HM HP) as [HM' HP'].
    { intros Hskip. destruct Hve as [Hm1 | Hd]; simpl in *.
      - by rewrite skip_sentinel in Hskip.
      - split; [done|].
        apply (relaxEdge_no_wrap (driveWeight edges + slack)); (done || lia). }
    apply IH; [| done | | done | done | done].
    + apply BoundedBy_relaxEdge; (done || lia).
    + destruct Hu as [-> | Hu]; [by left | right].
      by apply relaxEdge_dom_prev.
Qed.

Lemma Settled_init : Settled (initState g source).
Proof.
  split; [apply Bounded_init|]. exists (fun _ => O).
  split; simpl.
  - intros x k y ?%not_elem_of_empty. done.
  - intros k y [= <- ->]%list_elem_of_singleton.
    by rewrite distAt_insert, decide_True.
  - intros y [-> | Hy] _.
    + rewrite distAt_insert, decide_True by done. left.
    + rewrite dom_empty_L in Hy. by apply not_elem_of_empty in Hy.
  - intros v u. by rewrite lookup_empty.
  - intros x ?%not_elem_of_empty. done.
Qed.

Lemma Settled_visitNode st d u rest :
  Settled st -> pqPop (pq st) = Some ((d, u), rest) ->
  Settled (visitNode skip g u rest st).
Proof.
  intros [HBd (rk & HM)] Hpop.
  split; [by eapply Bounded_visitNode|].
  destruct HBd as [HR HB].
  apply pqPop_Some in Hpop as (Hin & _ & Hmin & Hsub & Hrest).
  destruct HM as [M1 M2 M3 M4 M5].
  unfold visitNode. case_bool_decide as Hu.
  - exists rk. split; simpl; eauto.
    intros y Hy Hvis. apply Hrest; [by apply M3|].
    intros [= _ ->]. done.
  - assert (u = source \/ u ∈ dom (prev st)) as Hfin
      by (by apply (reach_pq _ _ _ _ HR d)).
    assert (distAt (dist st) u = d) as Hd.
    { pose proof (M2 _ _ Hin) as Hle.
      pose proof (Hmin _ (M3 u Hfin Hu)) as Hge. simpl in Hge. lia. }
    set (rk' := fun x => if decide (x = u) then size (visited st) else rk x).
    exists rk'.
    apply (Mono_relaxEdges rk' (pendingDrive ({[u]} ∪ visited st) g)).
    + rewrite <- pendingDrive_visit by done. destruct HB. split; done.
    + apply pendingDrive_nonneg.
    + done.
    + by apply wfGraph_neighbors.
    + split; simpl.
      * intros x k y [->%elem_of_singleton | Hx]%elem_of_union Hky.
        -- rewrite Hd. apply (Hmin (k, y)). auto.
        -- eauto.
      * eauto.
      * intros y Hy Hvis. apply Hrest; [apply M3; [done | set_solver]|].
        intros [= _ ->]. set_solver.
      * intros v w Hp Hv. destruct (reach_prev _ _ _ _ HR _ _ Hp) as [Hw _].
        unfold rk'. rewrite (decide_False (P := w = u)) by (intros ->; done).
        apply elem_of_union in Hv as [->%elem_of_singleton | Hv].
        -- rewrite decide_True by done. by apply M5.
        -- rewrite decide_False by (intros ->; done). eauto.
      * intros x Hx.
        rewrite size_union, size_singleton by set_solver.
        unfold rk'. destruct (decide (x = u)) as [-> | Hne]; [lia|].
        assert (x ∈ visited st) as Hx' by set_solver.
        specialize (M5 x Hx'). lia.
    + split; simpl; [set_solver|].
      intros x [->%elem_of_singleton | Hx]%elem_of_union; [lia|].
      rewrite Hd. apply (M1 x d u); done.
Qed.

Lemma Settled_final fuel st :
  dijkstraLoop skip g fuel (initState g source) = Some st ->
  Settled st /\ pq st = [].
Proof.
  apply dijkstraLoop_invariant; [|apply Settled_init].
  intros. by eapply Settled_visitNode.
Qed.

(** Once the queue is empty the predecessor chain of a reached node
    leads to the source, each step going back in time. *)
Lemma walkBack_terminates rk st fuel a acc :
  Reach st -> Mono rk st -> pq st = [] ->
  a = source \/ a ∈ dom (prev st) ->
  (rk a < fuel)%nat ->
  exists path, walkBack fuel (prev st) source a acc = Some path.
Proof.
  intros HR HM Hpq. revert a acc.
  induction fuel as [|fuel IH]; intros a acc Ha Hrk; [lia|].
  simpl. destruct (decide (a = source)) as [-> | Hne]; [eauto|].
  destruct Ha as [-> | Ha]; [done|].
  assert (a ∈ visited st) as Hvis.
  { destruct (decide (a ∈ visited st)) as [|Hn]; [done|].
    pose proof (mono_live _ _ _ HM a (or_intror Ha) Hn) as Hin.
    rewrite Hpq in Hin. by apply elem_of_nil in Hin. }
  apply elem_of_dom in Ha as [w Hw].
  unfold prevAt. rewrite Hw. simpl.
  destruct (reach_prev _ _ _ _ HR _ _ Hw) as [Hwv _].
  apply IH.
  - by apply (reach_visited _ _ _ _ HR).
  - pose proof (mono_rank _ _ _ HM _ _ Hw Hvis). lia.
Qed.

(** On a well-formed graph the search returns a path. *)
Lemma search_total dest : exists r, search skip g source dest = Ok r.
Proof.
  unfold search.
  destruct (dijkstraLoop_initState skip g source) as [st Hst].
  rewrite Hst. apply Settled_final in Hst as [[[HR HB] (rk & HM)] Hpq].
  case_bool_decide as Hdest; [|eauto].
  destruct (walkBack_terminates rk st (S (size (prev st))) dest []
              HR HM Hpq (or_intror Hdest)) as [path ->]; [|eauto].
  assert (dest ∈ visited st) as Hvis.
  { destruct (decide (dest ∈ visited st)) as [|Hn]; [done|].
    pose proof (mono_live _ _ _ HM dest (or_intror Hdest) Hn) as Hin.
    rewrite Hpq in Hin. by apply elem_of_nil in Hin. }
  pose proof (mono_rank_bound _ _ _ HM _ Hvis) as Hrk.
  assert (visited st ⊆ dom (prev st) ∪ {[source]}) as Hsub.
  { intros x Hx. destruct (reach_visited _ _ _ _ HR x Hx); set_solver. }
  apply subseteq_size in Hsub.
  pose proof (size_union_alt (dom (prev st)) {[source]}) as Hsz.
  assert (size ({[source]} ∖ dom (prev st) : gset string) <= 1)%nat as H1.
  { etrans; [apply subseteq_size, subseteq_difference_l; reflexivity|].
    by rewrite size_singleton. }
  rewrite size_dom in Hsz. lia.
Qed.

End Bounds.

(** ** The forbidden sets of findAlternativeRoute *)

Lemma vecAt_nat (v : list string) (i : nat) : vecAt v (Z.of_nat i) = v !! i.
Proof.
  unfold vecAt. rewrite (proj2 (Z.leb_le _ _)) by lia. by rewrite Nat2Z.id.
Qed.

Lemma insertRange_ok (v : list string) n : forall fuel i acc,
  (i + n <= length v)%nat -> (n < fuel)%nat ->
  insertRange fuel v (Z.of_nat i) (Z.of_nat (i + n)) acc
  = Ok (list_to_set (take n (drop i v)) ∪ acc).
Proof.
  induction n as [|n IH]; intros fuel i acc Hlen Hfuel.
  - destruct fuel; [lia|]. simpl.
    rewrite Nat.add_0_r, Z.eqb_refl. f_equal. set_solver.
  - destruct fuel as [|fuel]; [lia|]. simpl.
    rewrite (proj2 (Z.eqb_neq _ _)) by lia.
    rewrite vecAt_nat.
    destruct (v !! i) as [x|] eqn:Hx.
    2:{ apply lookup_ge_None in Hx. lia. }
    replace (Z.of_nat i + 1) with (Z.of_nat (S i)) by lia.
    replace (Z.of_nat (i + S n)) with (Z.of_nat (S i + n)) by lia.
    rewrite IH by lia.
    rewrite (drop_S v x i Hx). simpl. f_equal. set_solver.
Qed.

Lemma insertRange_fault (v : list string) fuel first last acc :
  Z.of_nat (length v) <= first -> first ≠ last ->
  insertRange (S fuel) v first last acc = OutOfBounds.
Proof.
  intros Hlen Hne. simpl.
  rewrite (proj2 (Z.eqb_neq _ _)) by done.
  unfold vecAt. destruct (0 <=? first) eqn:E; [|done].
  rewrite lookup_ge_None_2; [done | lia].
Qed.

Lemma forbiddenNodesOf_short mainPath :
  (length mainPath < 2)%nat -> forbiddenNodesOf mainPath = OutOfBounds.
Proof.
  intros H. unfold forbiddenNodesOf. apply insertRange_fault; lia.
Qed.

Lemma forbiddenNodesOf_ok mainPath :
  (2 <= length mainPath)%nat ->
  forbiddenNodesOf mainPath = Ok (list_to_set (intermediateNodes mainPath)).
Proof.
  intros H. unfold forbiddenNodesOf, intermediateNodes.
  replace (0 + 1) with (Z.of_nat 1) by done.
  replace (Z.of_nat (length mainPath) - 1)
    with (Z.of_nat (1 + (length mainPath - 2))) by lia.
  rewrite insertRange_ok by lia. f_equal. set_solver.
Qed.

Lemma segmentsOf_cons a b r :
  segmentsOf (a :: b :: r) = (a, b) :: segmentsOf (b :: r).
Proof. done. Qed.

Lemma insertSegments_ok (mainPath : list string) n : forall fuel i acc,
  length mainPath = S (i + n) -> (n < fuel)%nat ->
  exists E, insertSegments fuel mainPath (Z.of_nat i) acc = Ok E /\
    forall a b, (a, b) ∈ E <->
      (a, b) ∈ acc \/ (a, b) ∈ segmentsOf (drop i mainPath)
      \/ (b, a) ∈ segmentsOf (drop i mainPath).
Proof.
  induction n as [|n IH]; intros fuel i acc Hlen Hfuel.
  - destruct fuel; [lia|]. simpl. unfold size_sub.
    rewrite (proj2 (Z.ltb_ge (_ - 1) 0)) by lia.
    rewrite (proj2 (Z.ltb_ge _ _)) by lia.
    exists acc. split; [done|]. intros a b.
    assert (length (drop i mainPath) = 1%nat) as Hd by (rewrite length_drop; lia).
    destruct (drop i mainPath) as [|x [|y r]]; simpl in Hd; try lia.
    unfold segmentsOf. simpl. set_solver.
  - destruct fuel as [|fuel]; [lia|]. simpl. unfold size_sub.
    rewrite (proj2 (Z.ltb_ge (_ - 1) 0)) by lia.
    rewrite (proj2 (Z.ltb_lt _ _)) by lia.
    replace (Z.of_nat i + 1) with (Z.of_nat (S i)) by lia.
    rewrite !vecAt_nat.
    destruct (mainPath !! i) as [x|] eqn:Hx.
    2:{ apply lookup_ge_None in Hx. lia. }
    destruct (mainPath !! S i) as [y|] eqn:Hy.
    2:{ apply lookup_ge_None in Hy. lia. }
    destruct (IH fuel (S i) ({[(y, x)]} ∪ ({[(x, y)]} ∪ acc)))
      as (E & -> & HE); [lia | lia |].
    exists E. split; [done|]. intros a b. rewrite HE.
    rewrite (drop_S mainPath x i Hx), (drop_S mainPath y (S i) Hy).
    rewrite segmentsOf_cons. rewrite <- (drop_S mainPath y (S i) Hy).
    set_solver.
Qed.

Lemma forbiddenEdgesOf_ok mainPath :
  (1 <= length mainPath)%nat ->
  exists E, forbiddenEdgesOf mainPath = Ok E /\
    forall a b, (a, b) ∈ E <->
      (a, b) ∈ segmentsOf mainPath \/ (b, a) ∈ segmentsOf mainPath.
Proof.
  intros H. unfold forbiddenEdgesOf.
  destruct (insertSegments_ok mainPath (length mainPath - 1)
              (S (length mainPath)) 0 ∅) as (E & HE & Hin); [lia | lia |].
  exists E. split; [done|]. intros a b. rewrite Hin. simpl. set_solver.
Qed.

Lemma findAlternativeRoute_short g source dest mainPath :
  (length mainPath < 2)%nat ->
  findAlternativeRoute g source dest mainPath = OutOfBounds.
Proof.
  intros H. unfold findAlternativeRoute.
  by rewrite forbiddenNodesOf_short.
Qed.

Lemma findAlternativeRoute_search g source dest mainPath :
  (2 <= length mainPath)%nat ->
  exists E,
    (forall a b, (a, b) ∈ E <->
       (a, b) ∈ segmentsOf mainPath \/ (b, a) ∈ segmentsOf mainPath) /\
    findAlternativeRoute g source dest mainPath
    = search (skipAlternative (list_to_set (intermediateNodes mainPath)) E)
             g source dest.
Proof.
  intros H. destruct (forbiddenEdgesOf_ok mainPath) as (E & HE & Hin); [lia|].
  exists E. split; [done|]. unfold findAlternativeRoute.
  by rewrite forbiddenNodesOf_ok, HE.
Qed.

Lemma skipShortest_sentinel u v e :
  drivingTime e = -1 -> skipShortest u v e = true.
Proof. unfold skipShortest. intros ->. done. Qed.

Lemma skipRestricted_sentinel avoidNodes avoidSegments u v e :
  drivingTime e = -1 -> skipRestricted avoidNodes avoidSegments u v e = true.
Proof. unfold skipRestricted. intros ->. done. Qed.

(** On a well-formed graph the three searches return. *)
Lemma dijkstraShortestPath_total g source dest :
  wfGraph g -> exists p, dijkstraShortestPath g source dest = Ok p.
Proof. intros. apply search_total; [apply skipShortest_sentinel | done]. Qed.

Lemma dijkstraRestricted_total g source dest avoidNodes avoidSegments :
  wfGraph g ->
  exists p, dijkstraRestricted g source dest avoidNodes avoidSegments = Ok p.
Proof. intros. apply search_total; [apply skipRestricted_sentinel | done]. Qed.

Lemma findAlternativeRoute_total g source dest mainPath :
  wfGraph g -> (2 <= length mainPath)%nat ->
  exists p, findAlternativeRoute g source dest mainPath = Ok p.
Proof.
  intros Hwf Hlen.
  destruct (findAlternativeRoute_search g source dest mainPath Hlen)
    as (E & _ & ->).
  apply search_total; [|done]. apply skipRestricted_sentinel.
Qed.

Lemma dijkstraRestricted_self g x avoidNodes avoidSegments :
  wfGraph g -> dijkstraRestricted g x x avoidNodes avoidSegments = Ok [].
Proof. intros. apply search_self; [apply skipRestricted_sentinel | done]. Qed.

(** What every path of [dijkstraRestricted] satisfies. *)
Lemma dijkstraRestricted_route g source dest avoidNodes avoidSegments p :
  dijkstraRestricted g source dest avoidNodes avoidSegments = Ok p ->
  p ≠ [] ->
  (exists t, p = source :: t) /\ last p = Some dest /\ NoDup p /\
  (forall a b, (a, b) ∈ segmentsOf p ->
     (exists e, (b, e) ∈ neighbors g a /\ drivingTime e ≠ -1) /\
     (b ∉ avoidNodes) /\ ((a, b) ∉ avoidSegments) /\ ((b, a) ∉ avoidSegments)).
Proof.
  intros Hp Hne.
  destruct (search_route _ _ _ _ _ Hp Hne) as (Hhd & Hlast & Hnd & Hseg).
  split; [done|]. split; [done|]. split; [done|].
  intros a b Hab. destruct (Hseg a b Hab) as (e & Hin & Hskip).
  apply skipRestricted_false in Hskip as (? & ? & ? & ?).
  split; [eauto | done].
Qed.

(** ** Time aggregation *)

Section AggregateFacts.

Variable weight : EdgeData -> Z.
Variable g : Graph.

Local Abbreviation segmentTime := (segmentTime weight g).
Local Abbreviation pathSum := (pathSum weight g).
Local Abbreviation validPath := (validPath weight g).

Lemma sumTimes_cons a b r total :
  sumTimes weight g (a :: b :: r) total
  = match segmentTime a b with
    | Some w => sumTimes weight g (b :: r) (int_add total w)
    | None => -1
    end.
Proof.
  simpl. unfold segmentTime.
  destruct (firstEdgeTo b (neighbors g a)) as [edge|]; [|done].
  by destruct (weight edge =? -1).
Qed.

Lemma calculateTime_sumTimes path :
  calculateTime weight g path = sumTimes weight g path 0.
Proof.
  unfold calculateTime. destruct path as [|a [|b r]]; done.
Qed.

Lemma firstEdgeTo_None v edges :
  firstEdgeTo v edges = None <-> forall e, (v, e) ∉ edges.
Proof.
  induction edges as [|[w e'] edges IH]; simpl.
  - split; [intros _ e; apply not_elem_of_nil | done].
  - destruct (decide (w = v)) as [-> | Hne].
    + split; [done|]. intros H. exfalso. apply (H e'). left.
    + rewrite IH. split.
      * intros H e [[= ? ?] | Hin]%elem_of_cons; [done | by apply (H e)].
      * intros H e Hin. apply (H e). by right.
Qed.

Lemma firstEdgeTo_Some v edges e :
  firstEdgeTo v edges = Some e -> (v, e) ∈ edges.
Proof.
  induction edges as [|[w e'] edges IH]; simpl; [done|].
  destruct (decide (w = v)) as [-> | Hne].
  - intros [= ->]. left.
  - intros H. right. by apply IH.
Qed.

Lemma validPath_tail a b r : validPath (a :: b :: r) -> validPath (b :: r).
Proof. intros H x y Hxy. apply H. rewrite segmentsOf_cons. by right. Qed.

(** A segment without a usable edge makes the whole aggregate [-1]. *)
Lemma sumTimes_invalid path total a b :
  (a, b) ∈ segmentsOf path -> segmentTime a b = None ->
  sumTimes weight g path total = -1.
Proof.
  revert total. induction path as [|x [|y r] IH]; intros total Hin Hnone.
  - unfold segmentsOf in Hin. by apply elem_of_nil in Hin.
  - unfold segmentsOf in Hin. by apply elem_of_nil in Hin.
  - rewrite sumTimes_cons. rewrite segmentsOf_cons in Hin.
    apply elem_of_cons in Hin as [[= -> ->] | Hin].
    + by rewrite Hnone.
    + destruct (segmentTime x y); [by apply IH | done].
Qed.

Lemma sumTimes_valid path total :
  sumTimes weight g path total ≠ -1 -> validPath path.
Proof.
  intros Hne a b Hin.
  destruct (segmentTime a b) eqn:E; [done|].
  exfalso. apply Hne. by eapply sumTimes_invalid.
Qed.

Lemma sumTimes_range path total :
  INT_MIN <= total <= INT_MAX ->
  INT_MIN <= sumTimes weight g path total <= INT_MAX.
Proof.
  revert total. induction path as [|x [|y r] IH]; intros total Ht; try done.
  rewrite sumTimes_cons. destruct (segmentTime x y).
  - apply IH. apply wrap_range.
  - unfold INT_MIN, INT_MAX. lia.
Qed.

Lemma sumTimes_shift path x y :
  validPath path ->
  sumTimes weight g path (int_add x y) = int_add x (sumTimes weight g path y).
Proof.
  revert y. induction path as [|a [|b r] IH]; intros y Hv; try done.
  rewrite !sumTimes_cons.
  destruct (Hv a b) as [w Hw]; [rewrite segmentsOf_cons; left|].
  rewrite Hw, int_add_assoc. apply IH. by eapply validPath_tail.
Qed.

Lemma sumTimes_app q w t total :
  validPath (q ++ [w]) ->
  sumTimes weight g (q ++ w :: t) total
  = sumTimes weight g (w :: t) (sumTimes weight g (q ++ [w]) total).
Proof.
  revert total. induction q as [|a q IH]; intros total Hv; [done|].
  destruct q as [|b q].
  - simpl app. rewrite !sumTimes_cons.
    destruct (Hv a w) as [x Hx]; [left|]. by rewrite Hx.
  - change ((a :: b :: q) ++ w :: t) with (a :: b :: (q ++ w :: t)).
    change ((a :: b :: q) ++ [w]) with (a :: b :: (q ++ [w])).
    rewrite !sumTimes_cons.
    destruct (Hv a b) as [x Hx]; [left|]. rewrite Hx.
    apply (IH (int_add total x)). by eapply validPath_tail.
Qed.

(** Joining two legs at their common node adds their aggregates. *)
Lemma calculateTime_join q w t :
  calculateTime weight g (q ++ [w]) ≠ -1 ->
  calculateTime weight g (w :: t) ≠ -1 ->
  calculateTime weight g (q ++ w :: t)
  = int_add (calculateTime weight g (q ++ [w]))
            (calculateTime weight g (w :: t)).
Proof.
  rewrite !calculateTime_sumTimes. intros H1 H2.
  apply sumTimes_valid in H1 as Hv1. apply sumTimes_valid in H2 as Hv2.
  rewrite sumTimes_app by done.
  set (x := sumTimes weight g (q ++ [w]) 0).
  assert (int_add x 0 = x) as Hx.
  { unfold int_add. rewrite Z.add_0_r. apply wrap_small.
    apply sumTimes_range. unfold INT_MIN, INT_MAX. lia. }
  transitivity (sumTimes weight g (w :: t) (int_add x 0)); [by rewrite Hx|].
  by apply sumTimes_shift.
Qed.

(** On durations that do not overflow the aggregate is the exact sum. *)
Lemma sumTimes_exact path total :
  (forall a b, (a, b) ∈ segmentsOf path ->
     exists w, segmentTime a b = Some w /\ 0 <= w) ->
  0 <= total -> total + pathSum path <= INT_MAX ->
  sumTimes weight g path total = total + pathSum path.
Proof.
  unfold pathSum.
  revert total. induction path as [|x [|y r] IH]; intros total Hv Ht Hmax.
  - simpl. lia.
  - simpl. lia.
  - rewrite sumTimes_cons. rewrite segmentsOf_cons in *. simpl in *.
    destruct (Hv x y) as (w & Hw & Hw0); [left|].
    rewrite Hw in *. simpl in *.
    assert (0 <= foldr (fun ab acc => default 0 (segmentTime ab.1 ab.2) + acc)
                   0 (segmentsOf (y :: r))) as Hrest.
    { assert (forall a b, (a, b) ∈ segmentsOf (y :: r) ->
                exists w, segmentTime a b = Some w /\ 0 <= w) as Hv'
        by (intros a b Hab; apply Hv; by right).
      clear -Hv'. induction (segmentsOf (y :: r)) as [|[a b] l IHl]; simpl; [lia|].
      destruct (Hv' a b) as (w & -> & ?); [left|]. simpl.
      assert (0 <= foldr (fun ab acc => default 0 (segmentTime ab.1 ab.2) + acc) 0 l).
      { apply IHl. intros a' b' Hab. apply Hv'. by right. }
      lia. }
    unfold int_add. rewrite wrap_small by (unfold INT_MIN; lia).
    rewrite IH; [lia | | lia | lia].
    intros a b Hab. apply Hv. by right.
Qed.

End AggregateFacts.

(** ** Lists *)

Lemma last_removelast {A} (l : list A) x :
  last l = Some x -> l = removelast l ++ [x].
Proof.
  induction l as [|a [|b l] IH]; intros H; [done | |].
  - by injection H as ->.
  - change (removelast (a :: b :: l)) with (a :: removelast (b :: l)).
    simpl. f_equal. by apply IH.
Qed.

Lemma filter_eq_absent (w : string) (l : list string) :
  w ∉ l -> filter (fun n => n = w) l = [].
Proof.
  induction l as [|a l IH]; intros H; [done|].
  rewrite filter_cons. rewrite decide_False by (intros ->; apply H; left).
  apply IH. intros Hin. apply H. by right.
Qed.

(** ** The choice of the parking node *)

Section EcoFacts.

Variable g : Graph.
Variables source dest : string.
Variable maxWalkTime : Z.
Variable avoidNodes : gset string.
Variable avoidSegments : gset (string * string).

Local Abbreviation survivor :=
  (survivor g source dest maxWalkTime avoidNodes avoidSegments).
Local Abbreviation Chosen :=
  (Chosen g source dest maxWalkTime avoidNodes avoidSegments).
Local Abbreviation ecoLoop :=
  (ecoLoop g source dest maxWalkTime avoidNodes avoidSegments).

Lemma ecoLoop_cons park rest b :
  ecoLoop (park :: rest) b
  = c ← survivor park;
    match c with
    | Some c =>
        if better c b
        then ecoLoop rest c
        else ecoLoop rest b
    | None => ecoLoop rest b
    end.
Proof.
  simpl. unfold survivor. case_bool_decide; [done|].
  destruct (dijkstraRestricted g source park _ _) as [drive| |]; [|done..].
  simpl.
  destruct (dijkstraRestricted g park dest _ _) as [walk| |]; [|done..].
  simpl. destruct (isEmpty drive || isEmpty walk); [done|].
  destruct (_ >? maxWalkTime); done.
Qed.

Lemma survivor_Some park b :
  survivor park = Ok (Some b) ->
  (park ∉ avoidNodes) /\
  bestPark b = park /\
  dijkstraRestricted g source park avoidNodes avoidSegments
    = Ok (bestDrivePath b) /\
  dijkstraRestricted g park dest avoidNodes avoidSegments
    = Ok (bestWalkPath b) /\
  bestDrivePath b ≠ [] /\ bestWalkPath b ≠ [] /\
  bestWalkTime b = calculateWalkingTime g (bestWalkPath b) /\
  bestWalkTime b <= maxWalkTime /\
  bestTotal b = int_add (calculateDrivingTime g (bestDrivePath b))
                        (calculateWalkingTime g (bestWalkPath b)).
Proof.
  unfold survivor. case_bool_decide as Hpark; [done|].
  destruct (dijkstraRestricted g source park _ _) as [drive| |]; [|done..].
  simpl.
  destruct (dijkstraRestricted g park dest _ _) as [walk| |]; [|done..].
  simpl. destruct drive as [|x drive]; [done|].
  destruct walk as [|y walk]; [done|]. simpl.
  destruct (Z.gtb_spec (calculateWalkingTime g (y :: walk)) maxWalkTime);
    [done|].
  intros [= <-]. simpl. repeat split; done.
Qed.

Lemma better_irrefl b : better b b = false.
Proof. unfold better. lia. Qed.

Lemma better_spec c b :
  better c b = true <->
  bestTotal c < bestTotal b \/
  (bestTotal c = bestTotal b /\ bestWalkTime b < bestWalkTime c).
Proof. unfold better. lia. Qed.

Lemma not_better_spec c b :
  better c b = false <->
  bestTotal b < bestTotal c \/
  (bestTotal b = bestTotal c /\ bestWalkTime c <= bestWalkTime b).
Proof. unfold better. lia. Qed.

Lemma Chosen_step seen park b :
  Chosen seen b ->
  forall c, survivor park = Ok c ->
    Chosen (seen ++ [park])
           match c with
           | Some c => if better c b then c else b
           | None => b
           end.
Proof.
  intros [Hbest Hfirst] c Hc.
  assert (b = initBest \/
    exists pre post, seen ++ [park] = pre ++ bestPark b :: post /\
      survivor (bestPark b) = Ok (Some b) /\
      forall c c', c ∈ pre -> survivor c = Ok (Some c') -> better b c' = true)
    as Hfirst'.
  { destruct Hfirst as [-> | (pre & post & -> & Hsurv & Hpre)]; [by left|].
    right. exists pre, (post ++ [park]).
    split; [by rewrite <- app_assoc | done]. }
  destruct c as [c|].
  - destruct (better c b) eqn:Hcb.
    + split.
      * intros x x' [Hx | ->%list_elem_of_singleton]%elem_of_app Hx'.
        -- specialize (Hbest x x' Hx Hx'). apply better_spec in Hcb.
           apply not_better_spec in Hbest. apply not_better_spec. lia.
        -- rewrite Hc in Hx'. injection Hx' as <-. apply better_irrefl.
      * right. apply survivor_Some in Hc as Hpark.
        destruct Hpark as (_ & Hpark & _).
        exists seen, []. rewrite Hpark. split; [done|]. split; [done|].
        intros x x' Hx Hx'. specialize (Hbest x x' Hx Hx').
        apply better_spec in Hcb. apply not_better_spec in Hbest.
        apply better_spec. lia.
    + split; [|done].
      intros x x' [Hx | ->%list_elem_of_singleton]%elem_of_app Hx'; [eauto|].
      rewrite Hc in Hx'. by injection Hx' as <-.
  - split; [|done].
    intros x x' [Hx | ->%list_elem_of_singleton]%elem_of_app Hx'; [eauto|].
    by rewrite Hc in Hx'.
Qed.

Lemma ecoLoop_Chosen cands : forall seen b b',
  Chosen seen b ->
  ecoLoop cands b = Ok b' ->
  Chosen (seen ++ cands) b'.
Proof.
  induction cands as [|park rest IH]; intros seen b b' HC.
  - simpl. intros [= <-]. by rewrite app_nil_r.
  - rewrite ecoLoop_cons.
    destruct (survivor park) as [c| |] eqn:Hc; [|done..]. simpl.
    pose proof (Chosen_step seen park b HC c Hc) as HC'.
    replace (seen ++ park :: rest) with ((seen ++ [park]) ++ rest)
      by (by rewrite <- app_assoc).
    destruct c as [c|]; [destruct (better c b)|]; by apply IH.
Qed.

Lemma Chosen_nil : Chosen [] initBest.
Proof. split; [|by left]. intros c c' ?%elem_of_nil. done. Qed.

(** The loop returns whenever the searches do. *)
Lemma ecoLoop_total cands b :
  wfGraph g ->
  exists b', ecoLoop cands b
             = Ok b'.
Proof.
  intros Hwf. revert b. induction cands as [|park rest IH]; intros b.
  - simpl. eauto.
  - simpl. case_bool_decide; [apply IH|].
    destruct (dijkstraRestricted_total g source park avoidNodes avoidSegments Hwf)
      as [drive ->].
    destruct (dijkstraRestricted_total g park dest avoidNodes avoidSegments Hwf)
      as [walk ->].
    simpl. destruct (_ || _); [apply IH|].
    destruct (_ >? maxWalkTime); [apply IH|].
    destruct (_ || _); apply IH.
Qed.

(** A route handed back by [findEcoRoute] is the choice of the loop. *)
Lemma findEcoRoute_Chosen locations drive park walk msg :
  findEcoRoute g source dest maxWalkTime avoidNodes avoidSegments locations
    = Ok (drive, park, walk, msg) ->
  drive ≠ [] ->
  exists b,
    Chosen (parkingCodes locations) b /\ b ≠ initBest /\
    bestDrivePath b = drive /\ bestPark b = park /\ bestWalkPath b = walk.
Proof.
  unfold findEcoRoute.
  destruct (isEmpty (parkingCodes locations)); [by intros [= <- _ _ _]|].
  destruct (ecoLoop _ _) as [b| |] eqn:Hloop; [|done..]. simpl.
  destruct (isEmpty (bestDrivePath b) || isEmpty (bestWalkPath b));
    [by intros [= <- _ _ _]|].
  intros [= <- <- <- _] Hne.
  exists b. split; [|split; [|done]].
  - apply (ecoLoop_Chosen _ [] initBest b Chosen_nil Hloop).
  - intros ->. done.
Qed.

Lemma findEcoRoute_total locations :
  wfGraph g ->
  exists r, findEcoRoute g source dest maxWalkTime avoidNodes avoidSegments
              locations = Ok r.
Proof.
  intros Hwf. unfold findEcoRoute.
  destruct (isEmpty (parkingCodes locations)); [eauto|].
  destruct (ecoLoop_total (parkingCodes locations) initBest Hwf) as [b ->].
  simpl. destruct (_ || _); eauto.
Qed.

(** When no route is handed back, no surviving candidate beats the
    initial value of the loop. *)
Lemma findEcoRoute_none locations park walk msg c c' :
  findEcoRoute g source dest maxWalkTime avoidNodes avoidSegments locations
    = Ok ([], park, walk, msg) ->
  c ∈ parkingCodes locations -> survivor c = Ok (Some c') ->
  better c' initBest = false.
Proof.
  unfold findEcoRoute.
  destruct (parkingCodes locations) as [|x cands] eqn:Hcands.
  { intros _ ?%elem_of_nil. done. }
  simpl isEmpty. cbv iota.
  destruct (ecoLoop _ _) as [b| |] eqn:Hloop; [|done..].
  pose proof (ecoLoop_Chosen _ [] initBest b Chosen_nil Hloop) as [Hbest Hfirst].
  simpl. intros Hres Hc Hc'.
  destruct Hfirst as [-> | (pre & post & _ & Hsurv & _)]; [by eapply Hbest|].
  apply survivor_Some in Hsurv as (_ & _ & _ & _ & Hd & Hw & _).
  destruct (bestDrivePath b); [done|]. destruct (bestWalkPath b); [done|].
  simpl in Hres. done.
Qed.

(** What does hold of a route handed back: its legs are the two restricted
    searches through the parking node, which is not excluded, and the
    aggregate that [calculateWalkingTime] reports for the walk leg does not
    exceed the budget. *)
Lemma findEcoRoute_legs locations drive park walk msg :
  findEcoRoute g source dest maxWalkTime avoidNodes avoidSegments locations
    = Ok (drive, park, walk, msg) ->
  drive ≠ [] ->
  (park ∉ avoidNodes) /\
  dijkstraRestricted g source park avoidNodes avoidSegments = Ok drive /\
  dijkstraRestricted g park dest avoidNodes avoidSegments = Ok walk /\
  calculateWalkingTime g walk <= maxWalkTime.
Proof.
  intros Hres Hne.
  destruct (findEcoRoute_Chosen _ _ _ _ _ Hres Hne)
    as (b & [_ Hfirst] & Hinit & <- & <- & <-).
  destruct Hfirst as [-> | (_ & _ & _ & Hsurv & _)]; [done|].
  apply survivor_Some in Hsurv as (? & _ & ? & ? & _ & _ & Hw & ? & _).
  rewrite <- Hw. done.
Qed.

End EcoFacts.

Lemma scenarioGraph_wf : wfGraph scenarioGraph.
Proof. apply (bool_decide_unpack (wfGraph scenarioGraph)). vm_compute. exact I. Qed.

(** Outside the well-formed graphs the searches need not return: with a
    negative driving time the predecessors of A and B point at each other
    and the walk back from A never meets the source. *)
Example negative_duration_never_returns :
  dijkstraShortestPath negativeGraph "S" "A" = NonTermination.
Proof. vm_compute. reflexivity. Qed.

(** There the source can get a predecessor, a search from a node to itself
    returns that node, and the parking node can be the source. *)
Example negative_duration_parks_at_source :
  dijkstraRestricted negativeStartGraph "S" "S" ∅ ∅ = Ok ["S"] /\
  findEcoRoute negativeStartGraph "S" "D" 15 ∅ ∅ parkingAtStart
  = Ok (["S"], "S", ["S"; "A"; "D"], "Eco route found.").
Proof. split; vm_compute; reflexivity. Qed.

(** * The claims *)

(** C9.  With both exclusion sets empty, [dijkstraRestricted] returns
    exactly what [dijkstraShortestPath] returns on the same graph, source
    and destination. *)
Theorem restricted_without_exclusions_is_shortest g source dest :
  dijkstraRestricted g source dest ∅ ∅ = dijkstraShortestPath g source dest.
Proof.
  unfold dijkstraRestricted, dijkstraShortestPath.
  apply search_ext. apply skipRestricted_empty.
Qed.

(** C3, as the code has it.  A path returned by [dijkstraRestricted]
    has no excluded node after its first one (the source is never tested
    against the excluded nodes) and traverses no excluded segment in either
    direction; an excluded destination other than the source is never
    reached.  On a well-formed graph the call returns. *)
Theorem restricted_route_avoids g source dest avoidNodes avoidSegments :
  (forall p, dijkstraRestricted g source dest avoidNodes avoidSegments = Ok p ->
     (forall n, n ∈ tail p -> n ∉ avoidNodes) /\
     (forall a b, (a, b) ∈ segmentsOf p ->
        ((a, b) ∉ avoidSegments) /\ ((b, a) ∉ avoidSegments)) /\
     (source ∉ avoidNodes -> forall n, n ∈ p -> n ∉ avoidNodes) /\
     (dest ∈ avoidNodes -> dest ≠ source -> p = [])) /\
  (wfGraph g ->
   exists p, dijkstraRestricted g source dest avoidNodes avoidSegments = Ok p).
Proof.
  split; [|apply dijkstraRestricted_total].
  intros p Hp.
  assert (forall n, n ∈ tail p -> n ∉ avoidNodes) as Htail.
  { intros n Hn. destruct p as [|x p]; [by apply elem_of_nil in Hn|].
    destruct (dijkstraRestricted_route _ _ _ _ _ _ Hp) as (_ & _ & _ & Hseg); [done|].
    destruct (tail_segmentsOf _ _ Hn) as [a Ha].
    by destruct (Hseg _ _ Ha) as (_ & ? & _). }
  split; [done|]. split; [|split].
  - intros a b Hab. destruct p as [|x p].
    { unfold segmentsOf in Hab. by apply elem_of_nil in Hab. }
    destruct (dijkstraRestricted_route _ _ _ _ _ _ Hp) as (_ & _ & _ & Hseg); [done|].
    by destruct (Hseg _ _ Hab) as (_ & _ & ? & ?).
  - intros Hs n Hn. destruct p as [|x p]; [by apply elem_of_nil in Hn|].
    destruct (dijkstraRestricted_route _ _ _ _ _ _ Hp) as ([t Ht] & _); [done|].
    injection Ht as -> ->.
    apply elem_of_cons in Hn as [-> | Hn]; [done | by apply Htail].
  - intros Hd Hne. destruct p as [|x p]; [done|]. exfalso.
    destruct (dijkstraRestricted_route _ _ _ _ _ _ Hp) as ([t Ht] & Hlast & _); [done|].
    injection Ht as -> ->.
    destruct t as [|y t]; [simpl in Hlast; congruence|].
    apply (Htail dest); [|done]. simpl.
    change (last (source :: y :: t)) with (last (y :: t)) in Hlast.
    apply list_elem_of_lookup. exists (pred (length (y :: t))).
    by rewrite <- last_lookup.
Qed.

Lemma restricted_route_avoids_witness :
  dijkstraRestricted scenarioGraph "A" "D" {["C"]} ∅ = Ok ["A"; "B"; "D"] /\
  (forall n, n ∈ ["A"; "B"; "D"] -> n ∉ ({["C"]} : gset string)) /\
  exists p, dijkstraRestricted scenarioGraph "A" "D" {["C"]} ∅ = Ok p.
Proof.
  destruct (restricted_route_avoids scenarioGraph "A" "D" {["C"]} ∅) as [H1 H2].
  assert (dijkstraRestricted scenarioGraph "A" "D" {["C"]} ∅
          = Ok ["A"; "B"; "D"]) as E by (vm_compute; reflexivity).
  split; [exact E|]. split.
  - destruct (H1 _ E) as (_ & _ & H & _). apply H.
    rewrite elem_of_singleton. discriminate.
  - apply H2. exact scenarioGraph_wf.
Defined.

(** C3, as stated, fails when the source is itself excluded: the search
    from [A] with [A] excluded returns a path through [A]. *)
Lemma restricted_route_keeps_excluded_source :
  dijkstraRestricted twoNodeGraph "A" "B" {["A"]} ∅ = Ok ["A"; "B"] /\
  "A" ∈ ["A"; "B"] /\ "A" ∈ ({["A"]} : gset string).
Proof.
  split; [vm_compute; reflexivity|]. split; [left|].
  by apply elem_of_singleton.
Qed.

(** C2, what the code does instead.  On every well-formed graph
    [dijkstraShortestPath g x x] is the empty path, the value that also
    stands for "no route": the source never gets a predecessor, so the
    test [!prev.count(dest)] returns before the single-node path is
    built. *)
Theorem shortest_path_to_self_is_empty g x :
  wfGraph g -> dijkstraShortestPath g x x = Ok [].
Proof. intros. apply search_self; [apply skipShortest_sentinel | done]. Qed.

Lemma shortest_path_to_self_is_empty_witness :
  wfGraph twoNodeGraph /\ dijkstraShortestPath twoNodeGraph "A" "A" = Ok [].
Proof.
  assert (wfGraph twoNodeGraph) as Hwf.
  { apply (bool_decide_unpack (wfGraph twoNodeGraph)). vm_compute. exact I. }
  split; [exact Hwf|].
  apply (shortest_path_to_self_is_empty twoNodeGraph "A" Hwf).
Defined.

(** C6, what the code does instead.  With a main path of fewer than two
    nodes the construction of [forbiddenNodes] from
    [mainPath.begin() + 1] to [mainPath.end() - 1] reads outside the
    vector; no path, empty or not, is returned. *)
Theorem alternative_route_short_main_path_out_of_bounds
    g source dest mainPath :
  (length mainPath < 2)%nat ->
  findAlternativeRoute g source dest mainPath = OutOfBounds.
Proof. apply findAlternativeRoute_short. Qed.

Lemma alternative_route_short_main_path_out_of_bounds_witness :
  (length (@nil string) < 2)%nat /\
  findAlternativeRoute scenarioGraph "A" "E" [] = OutOfBounds.
Proof.
  split; [simpl; lia|].
  apply (alternative_route_short_main_path_out_of_bounds scenarioGraph "A" "E" []).
  simpl. lia.
Defined.

(** The [driving] mode of the batch file reaches that call whenever the
    destination cannot be reached. *)
Example batchDriving_unreachable :
  dijkstraShortestPath scenarioGraph "A" "E" = Ok [] /\
  batchDriving scenarioGraph "A" "E" = OutOfBounds.
Proof. split; vm_compute; reflexivity. Qed.

(** C5.  A path returned by [findAlternativeRoute] meets an intermediate
    node of the main path only at its own source, and traverses no segment
    of the main path in either direction.  On a well-formed graph and a
    main path of at least two nodes the call returns. *)
Theorem alternative_route_disjoint g source dest mainPath :
  (forall p, findAlternativeRoute g source dest mainPath = Ok p ->
     (forall n, n ∈ p -> n ∈ intermediateNodes mainPath -> n = source) /\
     (forall a b, (a, b) ∈ segmentsOf p ->
        ((a, b) ∉ segmentsOf mainPath) /\ ((b, a) ∉ segmentsOf mainPath))) /\
  (wfGraph g -> (2 <= length mainPath)%nat ->
   exists p, findAlternativeRoute g source dest mainPath = Ok p).
Proof.
  split; [|apply findAlternativeRoute_total].
  intros p Hp.
  destruct (decide (length mainPath < 2)%nat) as [Hshort | Hlong].
  { by rewrite findAlternativeRoute_short in Hp. }
  destruct (findAlternativeRoute_search g source dest mainPath)
    as (E & HE & Heq); [lia|].
  rewrite Heq in Hp.
  destruct p as [|x p].
  { split; [intros n Hn; by apply elem_of_nil in Hn|].
    intros a b Hab. unfold segmentsOf in Hab. by apply elem_of_nil in Hab. }
  destruct (dijkstraRestricted_route g source dest _ _ _ Hp)
    as ([t Ht] & _ & _ & Hseg); [done|].
  injection Ht as -> ->. split.
  - intros n [-> | Hn]%elem_of_cons Hmid; [done|]. exfalso.
    destruct (tail_segmentsOf (source :: t) n Hn) as [a Ha].
    destruct (Hseg _ _ Ha) as (_ & Hnot & _).
    apply Hnot. by apply elem_of_list_to_set.
  - intros a b Hab. destruct (Hseg _ _ Hab) as (_ & _ & H1 & H2).
    rewrite HE in H1. rewrite HE in H2. split; intros ?; [apply H1 | apply H2]; auto.
Qed.

Lemma alternative_route_disjoint_witness :
  findAlternativeRoute scenarioGraph "A" "D" ["A"; "C"; "D"]
  = Ok ["A"; "B"; "D"] /\
  (forall n, n ∈ ["A"; "B"; "D"] ->
             n ∈ intermediateNodes ["A"; "C"; "D"] -> n = "A") /\
  exists p, findAlternativeRoute scenarioGraph "A" "D" ["A"; "C"; "D"] = Ok p.
Proof.
  destruct (alternative_route_disjoint scenarioGraph "A" "D" ["A"; "C"; "D"])
    as [H1 H2].
  assert (findAlternativeRoute scenarioGraph "A" "D" ["A"; "C"; "D"]
          = Ok ["A"; "B"; "D"]) as E by (vm_compute; reflexivity).
  split; [exact E|]. split.
  - by destruct (H1 _ E) as [H _].
  - apply H2; [exact scenarioGraph_wf | simpl; lia].
Defined.

(** C8.  Both aggregations return zero on a path of fewer than two nodes;
    they return [-1] as soon as some segment of the path has no adjacency
    entry, or the entry the code reads for it (the first one leading to the
    next node) carries the sentinel; and on a path whose segments all carry
    durations that sum within [int] they return that sum, which is not
    [-1]. *)
Theorem time_aggregation_invalid g path :
  ((length path < 2)%nat ->
     calculateDrivingTime g path = 0 /\ calculateWalkingTime g path = 0) /\
  (forall a b, (a, b) ∈ segmentsOf path ->
     (forall e, (b, e) ∉ neighbors g a) \/
     (exists e, firstEdgeTo b (neighbors g a) = Some e /\ drivingTime e = -1) ->
     calculateDrivingTime g path = -1) /\
  (forall a b, (a, b) ∈ segmentsOf path ->
     (forall e, (b, e) ∉ neighbors g a) \/
     (exists e, firstEdgeTo b (neighbors g a) = Some e /\ walkingTime e = -1) ->
     calculateWalkingTime g path = -1) /\
  ((forall a b, (a, b) ∈ segmentsOf path ->
      exists w, segmentTime drivingTime g a b = Some w /\ 0 <= w) ->
   pathSum drivingTime g path <= INT_MAX ->
   calculateDrivingTime g path = pathSum drivingTime g path /\
   calculateDrivingTime g path ≠ -1) /\
  ((forall a b, (a, b) ∈ segmentsOf path ->
      exists w, segmentTime walkingTime g a b = Some w /\ 0 <= w) ->
   pathSum walkingTime g path <= INT_MAX ->
   calculateWalkingTime g path = pathSum walkingTime g path /\
   calculateWalkingTime g path ≠ -1) /\
  -1 ≠ 0.
Proof.
  assert (forall weight,
    (forall a b, (a, b) ∈ segmentsOf path ->
       (forall e, (b, e) ∉ neighbors g a) \/
       (exists e, firstEdgeTo b (neighbors g a) = Some e /\ weight e = -1) ->
       calculateTime weight g path = -1) /\
    ((forall a b, (a, b) ∈ segmentsOf path ->
        exists w, segmentTime weight g a b = Some w /\ 0 <= w) ->
     pathSum weight g path <= INT_MAX ->
     calculateTime weight g path = pathSum weight g path /\
     calculateTime weight g path ≠ -1)) as Hgen.
  { intros weight. split.
    - intros a b Hab Hbad. rewrite calculateTime_sumTimes.
      apply (sumTimes_invalid weight g path 0 a b Hab).
      unfold segmentTime. destruct Hbad as [Hno | (e & -> & ->)]; [|done].
      apply firstEdgeTo_None in Hno. by rewrite Hno.
    - intros Hv Hmax. rewrite calculateTime_sumTimes.
      rewrite (sumTimes_exact weight g path 0 Hv) by lia.
      split; [lia|].
      assert (0 <= pathSum weight g path); [|lia].
      clear Hmax. unfold pathSum.
      induction (segmentsOf path) as [|[a b] l IHl]; simpl; [lia|].
      destruct (Hv a b) as (w & -> & ?); [left|]. simpl.
      assert (0 <= foldr (fun ab acc => default 0 (segmentTime weight g ab.1 ab.2) + acc) 0 l).
      { apply IHl. intros a' b' Hab. apply Hv. by right. }
      lia. }
  split; [|split; [|split; [|split; [|split]]]].
  - intros Hlen. unfold calculateDrivingTime, calculateWalkingTime, calculateTime.
    by rewrite (proj2 (Nat.ltb_lt _ _) Hlen).
  - apply (Hgen drivingTime).
  - apply (Hgen walkingTime).
  - apply (Hgen drivingTime).
  - apply (Hgen walkingTime).
  - done.
Qed.

Lemma time_aggregation_invalid_witness :
  (length ["A"] < 2)%nat /\ calculateDrivingTime scenarioGraph ["A"] = 0 /\
  ("A", "C") ∈ segmentsOf ["A"; "C"; "D"] /\
  firstEdgeTo "C" (neighbors scenarioGraph "A") = Some (mkEdgeData 5 (-1)) /\
  calculateWalkingTime scenarioGraph ["A"; "C"; "D"] = -1.
Proof.
  split; [simpl; lia|]. split.
  { apply (proj1 (time_aggregation_invalid scenarioGraph ["A"])). simpl. lia. }
  assert (("A", "C") ∈ segmentsOf ["A"; "C"; "D"]) as Hin by left.
  assert (firstEdgeTo "C" (neighbors scenarioGraph "A")
          = Some (mkEdgeData 5 (-1))) as Hfirst by (vm_compute; reflexivity).
  split; [exact Hin|]. split; [exact Hfirst|].
  destruct (time_aggregation_invalid scenarioGraph ["A"; "C"; "D"])
    as (_ & _ & Hwalk & _).
  apply (Hwalk "A" "C" Hin). right. exists (mkEdgeData 5 (-1)).
  split; [exact Hfirst | reflexivity].
Defined.

(** C4, as the code has it.  With a mandatory node [W], if a leg is the
    empty path the result is the empty path; otherwise the result is the
    first leg without its last node followed by the second leg, [W] occurs
    in it exactly once, and, provided neither leg's aggregated driving time
    is the invalid value [-1], its aggregated driving time is the sum (on
    [int]) of the two.  On a well-formed graph the call returns. *)
Theorem waypoint_route_composition
    g source dest W avoidNodes avoidSegments :
  W ≠ "" ->
  (forall p1 p2,
     dijkstraRestricted g source W avoidNodes avoidSegments = Ok p1 ->
     dijkstraRestricted g W dest avoidNodes avoidSegments = Ok p2 ->
     (p1 = [] \/ p2 = [] ->
        batchRestricted g source dest W avoidNodes avoidSegments = Ok []) /\
     (p1 ≠ [] -> p2 ≠ [] ->
        batchRestricted g source dest W avoidNodes avoidSegments
        = Ok (removelast p1 ++ p2) /\
        length (filter (fun n => n = W) (removelast p1 ++ p2)) = 1%nat /\
        (calculateDrivingTime g p1 ≠ -1 -> calculateDrivingTime g p2 ≠ -1 ->
           calculateDrivingTime g (removelast p1 ++ p2)
           = int_add (calculateDrivingTime g p1) (calculateDrivingTime g p2)))) /\
  (wfGraph g ->
   exists r, batchRestricted g source dest W avoidNodes avoidSegments = Ok r).
Proof.
  intros HW. split.
  - intros p1 p2 Hp1 Hp2. unfold batchRestricted.
    rewrite bool_decide_eq_false_2 by done. simpl.
    rewrite Hp1, Hp2. simpl. split.
    + intros [-> | ->]; [done|]. by destruct p1.
    + intros Hne1 Hne2.
      destruct (dijkstraRestricted_route _ _ _ _ _ _ Hp1 Hne1)
        as (_ & Hlast & Hnd1 & _).
      destruct (dijkstraRestricted_route _ _ _ _ _ _ Hp2 Hne2)
        as ([t Ht] & _ & Hnd2 & _).
      apply last_removelast in Hlast.
      set (q := removelast p1) in *.
      split; [by destruct p1, p2|].
      rewrite Hlast in Hnd1. apply NoDup_app in Hnd1 as (_ & Hq & _).
      subst p2. apply NoDup_cons in Hnd2 as [Ht _].
      split.
      * rewrite filter_app, filter_cons, decide_True by done.
        rewrite !filter_eq_absent; [done | done |].
        intros Hin. apply (Hq W Hin). left.
      * rewrite Hlast. unfold calculateDrivingTime. apply calculateTime_join.
  - intros Hwf. unfold batchRestricted.
    rewrite bool_decide_eq_false_2 by done. simpl.
    destruct (dijkstraRestricted_total g source W avoidNodes avoidSegments Hwf)
      as [p1 ->].
    destruct (dijkstraRestricted_total g W dest avoidNodes avoidSegments Hwf)
      as [p2 ->].
    simpl. destruct (_ && _); eauto.
Qed.

Lemma waypoint_route_composition_witness :
  "B" ≠ "" /\
  batchRestricted scenarioGraph "A" "D" "B" ∅ ∅ = Ok ["A"; "B"; "D"] /\
  calculateDrivingTime scenarioGraph ["A"; "B"; "D"]
  = int_add (calculateDrivingTime scenarioGraph ["A"; "B"])
            (calculateDrivingTime scenarioGraph ["B"; "D"]) /\
  exists r, batchRestricted scenarioGraph "A" "D" "B" ∅ ∅ = Ok r.
Proof.
  assert ("B" ≠ "") as HW by discriminate.
  destruct (waypoint_route_composition scenarioGraph "A" "D" "B" ∅ ∅ HW)
    as [H1 H2].
  assert (dijkstraRestricted scenarioGraph "A" "B" ∅ ∅ = Ok ["A"; "B"]) as E1
    by (vm_compute; reflexivity).
  assert (dijkstraRestricted scenarioGraph "B" "D" ∅ ∅ = Ok ["B"; "D"]) as E2
    by (vm_compute; reflexivity).
  destruct (H1 _ _ E1 E2) as [_ H].
  destruct H as (Hr & _ & Hsum); [discriminate | discriminate |].
  split; [exact HW|]. split; [exact Hr|]. split.
  - apply Hsum; vm_compute; discriminate.
  - apply H2. exact scenarioGraph_wf.
Defined.

(** C4, as stated, fails on a segment listed twice whose first entry is
    closed to cars: each search takes the open entry, the aggregation
    reads the closed one, and the aggregate of the joined route is not the
    sum of the aggregates of its legs. *)
Lemma waypoint_time_not_additive :
  dijkstraRestricted parallelGraph "A" "B" ∅ ∅ = Ok ["A"; "B"] /\
  dijkstraRestricted parallelGraph "B" "C" ∅ ∅ = Ok ["B"; "C"] /\
  batchRestricted parallelGraph "A" "C" "B" ∅ ∅ = Ok ["A"; "B"; "C"] /\
  calculateDrivingTime parallelGraph ["A"; "B"; "C"] = -1 /\
  calculateDrivingTime parallelGraph ["A"; "B"]
  + calculateDrivingTime parallelGraph ["B"; "C"] = 2.
Proof. repeat split; vm_compute; reflexivity. Qed.

(** C7.  A route handed back by [findEcoRoute] is that of a candidate
    that survived the filter; every surviving candidate before it in the
    list has a larger total time, or the same total time and a smaller
    walking time; every surviving candidate after it has a larger total
    time, or the same total time and no larger walking time.  A route is
    handed back as soon as some surviving candidate beats the initial
    values of the loop, and on a well-formed graph the call returns. *)
Theorem eco_route_selection
    g source dest maxWalkTime avoidNodes avoidSegments locations :
  (forall drive park walk msg,
     findEcoRoute g source dest maxWalkTime avoidNodes avoidSegments locations
       = Ok (drive, park, walk, msg) ->
     drive ≠ [] ->
     exists pre post b,
       parkingCodes locations = pre ++ park :: post /\
       survivor g source dest maxWalkTime avoidNodes avoidSegments park
         = Ok (Some b) /\
       bestDrivePath b = drive /\ bestWalkPath b = walk /\
       (forall c c', c ∈ pre ->
          survivor g source dest maxWalkTime avoidNodes avoidSegments c
            = Ok (Some c') ->
          bestTotal b < bestTotal c' \/
          (bestTotal b = bestTotal c' /\ bestWalkTime c' < bestWalkTime b)) /\
       (forall c c', c ∈ post ->
          survivor g source dest maxWalkTime avoidNodes avoidSegments c
            = Ok (Some c') ->
          bestTotal b < bestTotal c' \/
          (bestTotal b = bestTotal c' /\ bestWalkTime c' <= bestWalkTime b))) /\
  (forall drive park walk msg c c',
     findEcoRoute g source dest maxWalkTime avoidNodes avoidSegments locations
       = Ok (drive, park, walk, msg) ->
     c ∈ parkingCodes locations ->
     survivor g source dest maxWalkTime avoidNodes avoidSegments c
       = Ok (Some c') ->
     bestTotal c' < INT_MAX \/ -1 < bestWalkTime c' ->
     drive ≠ []) /\
  (wfGraph g ->
   exists r,
     findEcoRoute g source dest maxWalkTime avoidNodes avoidSegments locations
     = Ok r).
Proof.
  split; [|split; [|apply findEcoRoute_total]].
  - intros drive park walk msg Hres Hne.
    destruct (findEcoRoute_Chosen _ _ _ _ _ _ _ _ _ _ _ Hres Hne)
      as (b & [Hbest Hfirst] & Hinit & <- & <- & <-).
    destruct Hfirst as [-> | (pre & post & Hsplit & Hsurv & Hpre)]; [done|].
    exists pre, post, b. split; [done|]. split; [done|].
    split; [done|]. split; [done|]. split.
    + intros c c' Hc Hc'. specialize (Hpre c c' Hc Hc').
      apply better_spec in Hpre. lia.
    + intros c c' Hc Hc'.
      assert (c ∈ parkingCodes locations) as Hin.
      { rewrite Hsplit. apply elem_of_app. right. by right. }
      specialize (Hbest c c' Hin Hc'). apply not_better_spec in Hbest. lia.
  - intros drive park walk msg c c' Hres Hin Hc Hbeats ->.
    pose proof (findEcoRoute_none _ _ _ _ _ _ _ _ _ _ _ _ Hres Hin Hc) as Hnot.
    apply not_better_spec in Hnot. simpl in Hnot.
    apply survivor_Some in Hc as (_ & _ & _ & _ & _ & _ & _ & _ & Htot).
    pose proof (wrap_range (calculateDrivingTime g (bestDrivePath c')
                            + calculateWalkingTime g (bestWalkPath c'))) as Hr.
    unfold int_add in Htot. rewrite <- Htot in Hr. lia.
Qed.

Lemma eco_route_selection_witness :
  findEcoRoute scenarioGraph "A" "D" 30 ∅ ∅ twoParkings
    = Ok (["A"; "C"], "C", ["C"; "D"], "Eco route found.") /\
  (exists pre post b,
     parkingCodes twoParkings = pre ++ "C" :: post /\
     survivor scenarioGraph "A" "D" 30 ∅ ∅ "C" = Ok (Some b) /\
     bestDrivePath b = ["A"; "C"] /\ bestWalkPath b = ["C"; "D"] /\
     forall c c', c ∈ pre ->
       survivor scenarioGraph "A" "D" 30 ∅ ∅ c = Ok (Some c') ->
       bestTotal b < bestTotal c' \/
       (bestTotal b = bestTotal c' /\ bestWalkTime c' < bestWalkTime b)) /\
  exists r, findEcoRoute scenarioGraph "A" "D" 30 ∅ ∅ twoParkings = Ok r.
Proof.
  destruct (eco_route_selection scenarioGraph "A" "D" 30 ∅ ∅ twoParkings)
    as (H1 & _ & H3).
  assert (findEcoRoute scenarioGraph "A" "D" 30 ∅ ∅ twoParkings
          = Ok (["A"; "C"], "C", ["C"; "D"], "Eco route found.")) as E
    by (vm_compute; reflexivity).
  split; [exact E|]. split.
  - destruct (H1 _ _ _ _ E) as (pre & post & b & ? & ? & ? & ? & ? & _);
      [discriminate|].
    exists pre, post, b. auto.
  - apply H3. exact scenarioGraph_wf.
Defined.

(** C10.  On a well-formed graph [dijkstraRestricted] from a node to
    itself returns the empty path, so a parking node that is the source or
    the destination is discarded, and the parking node of a route handed
    back by [findEcoRoute] is neither.  The call returns. *)
Theorem eco_route_parking_not_endpoint
    g source dest maxWalkTime avoidNodes avoidSegments locations :
  wfGraph g ->
  (forall x, dijkstraRestricted g x x avoidNodes avoidSegments = Ok []) /\
  survivor g source dest maxWalkTime avoidNodes avoidSegments source = Ok None /\
  survivor g source dest maxWalkTime avoidNodes avoidSegments dest = Ok None /\
  (forall drive park walk msg,
     findEcoRoute g source dest maxWalkTime avoidNodes avoidSegments locations
       = Ok (drive, park, walk, msg) ->
     drive ≠ [] -> park ≠ source /\ park ≠ dest) /\
  (exists r,
     findEcoRoute g source dest maxWalkTime avoidNodes avoidSegments locations
     = Ok r).
Proof.
  intros Hwf.
  assert (forall x, dijkstraRestricted g x x avoidNodes avoidSegments = Ok [])
    as Hself by (intros x; by apply dijkstraRestricted_self).
  split; [done|]. split; [|split; [|split; [|by apply findEcoRoute_total]]].
  - unfold survivor. case_bool_decide; [done|].
    rewrite Hself. simpl.
    by destruct (dijkstraRestricted_total g source dest avoidNodes avoidSegments Hwf)
      as [walk ->].
  - unfold survivor. case_bool_decide; [done|].
    destruct (dijkstraRestricted_total g source dest avoidNodes avoidSegments Hwf)
      as [drive ->].
    simpl. rewrite Hself. simpl. by rewrite orb_true_r.
  - intros drive park walk msg Hres Hne.
    destruct (findEcoRoute_Chosen _ _ _ _ _ _ _ _ _ _ _ Hres Hne)
      as (b & [_ Hfirst] & Hinit & <- & <- & <-).
    destruct Hfirst as [-> | (_ & _ & _ & Hsurv & _)]; [done|].
    apply survivor_Some in Hsurv as (_ & _ & Hd & Hw & Hdne & Hwne & _).
    split; intros Heq; rewrite Heq, Hself in *; congruence.
Qed.

Lemma eco_route_parking_not_endpoint_witness :
  wfGraph scenarioGraph /\
  findEcoRoute scenarioGraph "A" "D" 15 ∅ ∅ parkingAtEnds
    = Ok (["A"; "C"], "C", ["C"; "D"], "Eco route found.") /\
  survivor scenarioGraph "A" "D" 15 ∅ ∅ "D" = Ok None /\
  ("C" ≠ "A" /\ "C" ≠ "D").
Proof.
  destruct (eco_route_parking_not_endpoint scenarioGraph "A" "D" 15 ∅ ∅
              parkingAtEnds scenarioGraph_wf) as (_ & _ & HD & H & _).
  assert (findEcoRoute scenarioGraph "A" "D" 15 ∅ ∅ parkingAtEnds
          = Ok (["A"; "C"], "C", ["C"; "D"], "Eco route found.")) as E
    by (vm_compute; reflexivity).
  split; [exact scenarioGraph_wf|]. split; [exact E|]. split; [exact HD|].
  apply (H _ _ _ _ E). discriminate.
Defined.

(** C1, what the code does instead.  The walk leg is searched by
    [dijkstraRestricted], which reads driving times only, and the
    aggregate [-1] of a leg that cannot be walked passes the test
    [walkTime > maxWalkTime]: the route handed back walks the segment C–D,
    whose walking time is the sentinel. *)
Theorem eco_route_walks_unwalkable_segment :
  findEcoRoute unwalkableGraph "A" "D" 15 ∅ ∅ scenarioLocations
    = Ok (["A"; "C"], "C", ["C"; "D"], "Eco route found.") /\
  firstEdgeTo "D" (neighbors unwalkableGraph "C") = Some (mkEdgeData 5 (-1)) /\
  calculateWalkingTime unwalkableGraph ["C"; "D"] = -1.
Proof. repeat split; vm_compute; reflexivity. Qed.

(** * Further properties of the code *)

(** ** graph.cpp: what [addEdge] builds *)

Lemma neighbors_addEdge g a b dTime wTime x :
  neighbors (addEdge g a b dTime wTime) x
  = neighbors g x
    ++ (if decide (x = a) then [(b, mkEdgeData dTime wTime)] else [])
    ++ (if decide (x = b) then [(a, mkEdgeData dTime wTime)] else []).
Proof.
  unfold addEdge, neighbors.
  destruct (decide (x = a)) as [Hxa | Hxa], (decide (x = b)) as [Hxb | Hxb];
    subst.
  - rewrite !lookup_insert_eq. simpl. by rewrite <- ?app_assoc.
  - rewrite lookup_insert_ne by done. rewrite lookup_insert_eq. simpl.
    by rewrite ?app_nil_r.
  - rewrite lookup_insert_eq. simpl. by rewrite lookup_insert_ne by done.
  - rewrite !lookup_insert_ne by done. simpl. by rewrite ?app_nil_r.
Qed.

Lemma dom_addEdge g a b dTime wTime :
  dom (addEdge g a b dTime wTime) = {[a; b]} ∪ dom g.
Proof. unfold addEdge. rewrite !dom_insert_L. set_solver. Qed.

(** X1.  [addEdge] appends one entry to the list of each end, in this order,
    and touches no other list: a node never seen before gets a list, and a
    segment from a node to itself puts two entries in the same list.  The
    nodes of the map are the old ones and the two ends. *)
Theorem addEdge_appends_to_both_ends g a b dTime wTime :
  (forall x,
     neighbors (addEdge g a b dTime wTime) x
     = neighbors g x
       ++ (if decide (x = a) then [(b, mkEdgeData dTime wTime)] else [])
       ++ (if decide (x = b) then [(a, mkEdgeData dTime wTime)] else [])) /\
  dom (addEdge g a b dTime wTime) = {[a; b]} ∪ dom g.
Proof. split; [intros x; apply neighbors_addEdge | apply dom_addEdge]. Qed.

Lemma neighbors_elem (g : Graph) u v e :
  (v, e) ∈ neighbors g u <-> exists l, g !! u = Some l /\ (v, e) ∈ l.
Proof.
  unfold neighbors. destruct (g !! u) as [l|]; simpl.
  - split; [eauto | by intros (? & [= <-] & ?)].
  - split; [by intros ?%elem_of_nil | by intros (? & ? & ?)].
Qed.

Lemma buildGraph_snoc edges e :
  buildGraph (edges ++ [e])
  = addEdge (buildGraph edges) (from e) (to e) (eDrivingTime e) (eWalkingTime e).
Proof. unfold buildGraph. by rewrite foldl_app. Qed.

(** An induction principle for the graphs that [main] builds. *)
Lemma buildGraph_ind (P : Graph -> Prop) :
  P ∅ ->
  (forall g a b dTime wTime, P g -> P (addEdge g a b dTime wTime)) ->
  forall edges, P (buildGraph edges).
Proof.
  intros Hnil Hadd edges.
  induction edges as [|e edges IH] using rev_ind; [done|].
  rewrite buildGraph_snoc. by apply Hadd.
Qed.

Lemma graphClosed_spec g :
  graphClosed g <-> forall u v e, (v, e) ∈ neighbors g u -> v ∈ dom g.
Proof.
  unfold graphClosed. split.
  - intros H u v e (l & Hl & Hin)%neighbors_elem.
    specialize (H u l Hl). rewrite Forall_forall in H. by apply (H (v, e)).
  - intros H u l Hl. apply Forall_forall. intros [v e] Hin.
    apply (H u v e). apply neighbors_elem. eauto.
Qed.

Lemma buildGraph_graphClosed edges : graphClosed (buildGraph edges).
Proof.
  apply buildGraph_ind.
  - intros u l. by rewrite lookup_empty.
  - intros g a b dTime wTime Hg. apply graphClosed_spec.
    rewrite graphClosed_spec in Hg.
    intros u v e. rewrite neighbors_addEdge, dom_addEdge.
    rewrite !elem_of_app. intros [Hin | [Hin | Hin]].
    + apply Hg in Hin. set_solver.
    + destruct (decide (u = a)); [|by apply elem_of_nil in Hin].
      apply list_elem_of_singleton in Hin as [= -> _]. set_solver.
    + destruct (decide (u = b)); [|by apply elem_of_nil in Hin].
      apply list_elem_of_singleton in Hin as [= -> _]. set_solver.
Qed.

Lemma dom_buildGraph edges :
  dom (buildGraph edges)
  = list_to_set (from <$> edges) ∪ list_to_set (to <$> edges).
Proof.
  induction edges as [|e edges IH] using rev_ind.
  - unfold buildGraph. simpl. set_solver.
  - rewrite buildGraph_snoc, dom_addEdge, IH, !fmap_app, !list_to_set_app_L.
    simpl. set_solver.
Qed.

(** X2.  The nodes of the graph that [main] builds are exactly the ends of
    the segments read, and every neighbour in an adjacency list is itself
    a node of the map. *)
Theorem buildGraph_nodes edges :
  dom (buildGraph edges)
  = list_to_set (from <$> edges) ∪ list_to_set (to <$> edges) /\
  graphClosed (buildGraph edges).
Proof. split; [apply dom_buildGraph | apply buildGraph_graphClosed]. Qed.

Lemma buildGraph_mirror edges u v e :
  (v, e) ∈ neighbors (buildGraph edges) u <->
  (u, e) ∈ neighbors (buildGraph edges) v.
Proof.
  revert u v e. apply (buildGraph_ind (fun g => forall u v e,
    (v, e) ∈ neighbors g u <-> (u, e) ∈ neighbors g v)).
  - intros u v e. unfold neighbors. rewrite !lookup_empty. simpl.
    split; by intros ?%elem_of_nil.
  - intros g a b dTime wTime IH u v e.
    rewrite !neighbors_addEdge, !elem_of_app. rewrite (IH u v e).
    repeat case_decide; subst;
      rewrite ?list_elem_of_singleton, ?elem_of_nil; naive_solver.
Qed.

Lemma edgeCount_insert (g : Graph) k x :
  edgeCount (<[k := neighbors g k ++ [x]]> g) = S (edgeCount g).
Proof.
  unfold edgeCount, neighbors. destruct (g !! k) as [l|] eqn:Hk; simpl.
  - rewrite <- (insert_delete_eq g k (l ++ [x])).
    rewrite map_fold_insert_L; [|intros; lia | apply lookup_delete_eq].
    rewrite <- (insert_id g k l Hk) at 2.
    rewrite <- (insert_delete_eq g k l).
    rewrite (map_fold_insert_L _ _ k l); [|intros; lia | apply lookup_delete_eq].
    rewrite length_app. simpl. lia.
  - rewrite map_fold_insert_L; [done | intros; lia | done].
Qed.

(** X3.  Every [addEdge] call adds exactly two adjacency entries, so the
    map built from a list of segments holds twice as many entries as there
    are segments. *)
Theorem edgeCount_buildGraph edges :
  edgeCount (buildGraph edges) = (2 * length edges)%nat.
Proof.
  induction edges as [|e edges IH] using rev_ind; [done|].
  rewrite buildGraph_snoc, length_app. simpl. unfold addEdge.
  rewrite !edgeCount_insert. lia.
Qed.

(** ** route.cpp: the aggregated time does not depend on the direction *)

Lemma firstEdgeTo_entriesTo b l : firstEdgeTo b l = head (entriesTo b l).
Proof.
  unfold entriesTo. induction l as [|[w e] l IH]; [done|].
  simpl. rewrite filter_cons. simpl.
  destruct (decide (w = b)); [done | apply IH].
Qed.

Lemma entriesTo_app b l1 l2 :
  entriesTo b (l1 ++ l2) = entriesTo b l1 ++ entriesTo b l2.
Proof. unfold entriesTo. by rewrite filter_app, fmap_app. Qed.

Lemma entriesTo_singleton b v e :
  entriesTo b [(v, e)] = if decide (v = b) then [e] else [].
Proof.
  unfold entriesTo. rewrite filter_cons. simpl.
  destruct (decide (v = b)); done.
Qed.

(** The parallel entries between two nodes come in the same order in the
    lists of both. *)
Lemma buildGraph_entriesTo edges a b :
  entriesTo b (neighbors (buildGraph edges) a)
  = entriesTo a (neighbors (buildGraph edges) b).
Proof.
  revert a b. apply (buildGraph_ind (fun g => forall a b,
    entriesTo b (neighbors g a) = entriesTo a (neighbors g b))).
  - intros a b. unfold neighbors. by rewrite !lookup_empty.
  - intros g p q dTime wTime IH a b.
    rewrite !neighbors_addEdge, !entriesTo_app, (IH a b). f_equal.
    destruct (decide (a = p)) as [Hap | Hap], (decide (a = q)) as [Haq | Haq],
             (decide (b = p)) as [Hbp | Hbp], (decide (b = q)) as [Hbq | Hbq];
      subst; rewrite ?entriesTo_singleton; simpl;
      repeat case_decide; subst; done.
Qed.

Lemma buildGraph_segmentTime weight edges a b :
  segmentTime weight (buildGraph edges) a b
  = segmentTime weight (buildGraph edges) b a.
Proof.
  unfold segmentTime. by rewrite !firstEdgeTo_entriesTo, buildGraph_entriesTo.
Qed.

(** X4.  The graph that [main] builds is undirected: an entry from [u] to
    [v] is matched by an entry from [v] to [u] with the same two times, the
    parallel entries between two nodes come in the same order in both
    lists, and so the entry that the time aggregation reads for a segment
    is the same in both directions. *)
Theorem buildGraph_symmetric edges u v :
  (forall e, (v, e) ∈ neighbors (buildGraph edges) u <->
             (u, e) ∈ neighbors (buildGraph edges) v) /\
  entriesTo v (neighbors (buildGraph edges) u)
  = entriesTo u (neighbors (buildGraph edges) v) /\
  firstEdgeTo v (neighbors (buildGraph edges) u)
  = firstEdgeTo u (neighbors (buildGraph edges) v).
Proof.
  split; [intros e; apply buildGraph_mirror|]. split.
  - apply buildGraph_entriesTo.
  - by rewrite !firstEdgeTo_entriesTo, buildGraph_entriesTo.
Qed.

Lemma sumTimes_foldTimes weight g path total :
  sumTimes weight g path total = foldTimes (timesOf weight g path) total.
Proof.
  revert total. induction path as [|a [|b r] IH]; intros total; try done.
  rewrite sumTimes_cons. unfold timesOf. rewrite segmentsOf_cons, fmap_cons.
  simpl. destruct (segmentTime weight g a b); [apply IH | done].
Qed.

Lemma segmentsOf_reverse p :
  segmentsOf (reverse p) = reverse (prod_swap <$> segmentsOf p).
Proof.
  induction p as [|a [|b r] IH]; [done | done |].
  rewrite reverse_cons.
  rewrite (segmentsOf_snoc _ b a).
  - rewrite IH, segmentsOf_cons, fmap_cons, reverse_cons. done.
  - rewrite reverse_cons. apply last_snoc.
Qed.

Lemma foldTimes_None ts total : None ∈ ts -> foldTimes ts total = -1.
Proof.
  revert total. induction ts as [|[w|] ts IH]; intros total Hin.
  - by apply elem_of_nil in Hin.
  - simpl. apply IH. by apply elem_of_cons in Hin as [? | ?].
  - done.
Qed.

Lemma foldTimes_Some ws total :
  foldTimes (Some <$> ws) total
  = match ws with [] => total | _ => wrap (total + sumZ ws) end.
Proof.
  revert total. induction ws as [|w ws IH]; intros total; [done|].
  rewrite fmap_cons. simpl. rewrite IH. unfold int_add.
  destruct ws as [|w' ws]; simpl.
  - by rewrite Z.add_0_r.
  - rewrite wrap_add_l. f_equal. lia.
Qed.

Lemma all_Some_fmap {A} (ts : list (option A)) :
  None ∉ ts -> exists ws, ts = Some <$> ws.
Proof.
  induction ts as [|[w|] ts IH]; intros H.
  - by exists [].
  - destruct IH as [ws ->]; [intros ?; apply H; by right|]. by exists (w :: ws).
  - exfalso. apply H. left.
Qed.

Lemma sumZ_app ws1 ws2 : sumZ (ws1 ++ ws2) = sumZ ws1 + sumZ ws2.
Proof. unfold sumZ. induction ws1 as [|w ws1 IH]; simpl; lia. Qed.

Lemma sumZ_reverse ws : sumZ (reverse ws) = sumZ ws.
Proof.
  induction ws as [|w ws IH]; [done|].
  rewrite reverse_cons, sumZ_app, IH. unfold sumZ. simpl. lia.
Qed.

Lemma foldTimes_reverse ts total :
  foldTimes (reverse ts) total = foldTimes ts total.
Proof.
  destruct (decide (None ∈ ts)) as [Hin | Hnot].
  - rewrite !foldTimes_None; [done | done | by apply elem_of_reverse].
  - destruct (all_Some_fmap ts Hnot) as [ws ->].
    rewrite <- fmap_reverse, !foldTimes_Some, sumZ_reverse.
    destruct ws as [|w ws]; [done|].
    rewrite reverse_cons. by destruct (reverse ws).
Qed.

Lemma calculateTime_reverse weight edges path :
  calculateTime weight (buildGraph edges) (reverse path)
  = calculateTime weight (buildGraph edges) path.
Proof.
  rewrite !calculateTime_sumTimes, !sumTimes_foldTimes.
  unfold timesOf. rewrite segmentsOf_reverse, fmap_reverse, foldTimes_reverse.
  f_equal. rewrite <- list_fmap_compose. apply list_fmap_ext.
  intros i [a b] _. simpl. apply buildGraph_segmentTime.
Qed.

(** X5.  On a graph built by [addEdge] calls only, a path and the same
    path walked backwards have the same aggregated driving time and the
    same aggregated walking time; in particular one is invalid ([-1]) when
    the other is. *)
Theorem aggregated_time_of_reversed_path edges path :
  calculateDrivingTime (buildGraph edges) (reverse path)
  = calculateDrivingTime (buildGraph edges) path /\
  calculateWalkingTime (buildGraph edges) (reverse path)
  = calculateWalkingTime (buildGraph edges) path.
Proof. split; apply calculateTime_reverse. Qed.

(** ** route.cpp: the searches return shortest routes *)

Section Shortest.

Variable skip : string -> string -> EdgeData -> bool.
Hypothesis skip_sentinel : forall u v e, drivingTime e = -1 -> skip u v e = true.
Variable g : Graph.
Hypothesis g_wf : wfGraph g.
Hypothesis g_closed : graphClosed g.
Hypothesis g_below : driveTotal g < INT_MAX.
Variable source : string.

Local Abbreviation Reach := (Reach skip g source).
Local Abbreviation BoundedBy := (BoundedBy g source).
Local Abbreviation Mono := (Mono source).
Local Abbreviation Exact := (Exact skip g source).
Local Abbreviation relaxedFrom := (relaxedFrom skip source).
Local Abbreviation RelaxedBut := (RelaxedBut skip g source).
Local Abbreviation Relaxed := (Relaxed skip g source).
Local Abbreviation Optimal := (Optimal skip g source).

Lemma relaxedFrom_weaken st st' x l :
  relaxedFrom st x l ->
  dom (prev st) ⊆ dom (prev st') ->
  (forall v, distAt (dist st') v <= distAt (dist st) v) ->
  distAt (dist st') x = distAt (dist st) x ->
  relaxedFrom st' x l.
Proof.
  intros H Hdom Hdist Hx v e Hin Hskip.
  destruct (H v e Hin Hskip) as [Hfin Hle]. split.
  - destruct Hfin as [-> | Hfin]; [by left | right; by apply Hdom].
  - rewrite Hx. specialize (Hdist v). lia.
Qed.

Lemma Exact_relaxEdge rk slack st u v e done :
  Reach st -> Mono rk st -> Pivot u st ->
  BoundedBy (Z.max 0 (drivingTime e) + slack) st -> 0 <= slack ->
  u = source \/ u ∈ dom (prev st) ->
  (v, e) ∈ neighbors g u ->
  Exact st -> RelaxedBut u done st ->
  Exact (relaxEdge skip u v e st) /\
  RelaxedBut u (done ++ [(v, e)]) (relaxEdge skip u v e st).
Proof.
  intros HR HM [Hu Hord] HB Hslack Hfin Hin [Hprev Hun] [Hothers Hdone].
  assert (edgeOk (v, e)) as Hok.
  { pose proof (wfGraph_neighbors g u g_wf) as Hall.
    rewrite Forall_forall in Hall. by apply Hall. }
  unfold relaxEdge. destruct (skip u v e) eqn:Hskip.
  { split; [done|]. split; [done|].
    intros v' e' [Hin' | [= -> ->]%list_elem_of_singleton]%elem_of_app Hs;
      [by apply Hdone | congruence]. }
  destruct Hok as [Hm1 | Hd]; simpl in *.
  { by rewrite skip_sentinel in Hskip. }
  rewrite (relaxEdge_no_wrap g g_wf source slack st u e HB Hslack Hfin Hd).
  destruct (BoundedBy_node g source _ _ _ HB Hfin) as [Hu0 Hu1].
  destruct (Z.gtb_spec (distAt (dist st) v) (distAt (dist st) u + drivingTime e))
    as [Hgt | Hle].
  - assert (v ∉ visited st) as Hv.
    { intros Hv. specialize (Hord v Hv). lia. }
    assert (v ≠ u) as Hvu by (intros ->; done).
    assert (forall x, x ∈ visited st -> v ≠ x) as Hne by (intros x Hx ->; done).
    set (st' := {| dist := <[v:=distAt (dist st) u + drivingTime e]> (dist st);
                   prev := <[v:=u]> (prev st);
                   visited := visited st;
                   pq := (distAt (dist st) u + drivingTime e, v) :: pq st |}).
    assert (dom (prev st) ⊆ dom (prev st')) as Hdom.
    { simpl. rewrite dom_insert_L. set_solver. }
    assert (forall w, distAt (dist st') w <= distAt (dist st) w) as Hdec.
    { intros w. simpl. rewrite distAt_insert. case_decide; subst; lia. }
    assert (forall x, x ∈ visited st ->
              distAt (dist st') x = distAt (dist st) x) as Hkeep.
    { intros x Hx. simpl. rewrite distAt_insert, decide_False; auto. }
    split; [split|split].
    + intros v' u'. simpl. destruct (decide (v = v')) as [<- | Hvv].
      * rewrite lookup_insert_eq. intros [= <-]. exists e.
        split; [done|]. split; [done|].
        rewrite !distAt_insert, decide_True, decide_False by done. done.
      * rewrite lookup_insert_ne by done. intros Hp.
        destruct (Hprev _ _ Hp) as (e' & ? & ? & Heq). exists e'.
        split; [done|]. split; [done|].
        destruct (reach_prev _ _ _ _ HR _ _ Hp) as [Hu' _].
        rewrite !distAt_insert, !decide_False by auto. done.
    + intros y Hy Hys. simpl. rewrite dom_insert_L, distAt_insert.
      intros Hnot. rewrite decide_False by set_solver.
      apply Hun; [done | done | set_solver].
    + intros x Hx Hxu. apply (relaxedFrom_weaken st); auto.
    + intros v' e' [Hin' | [= -> ->]%list_elem_of_singleton]%elem_of_app Hs.
      * apply (relaxedFrom_weaken st st' u done); auto.
      * split.
        -- right. simpl. rewrite dom_insert_L. set_solver.
        -- simpl. rewrite !distAt_insert, decide_True, decide_False by done. lia.
  - split; [done|]. split; [done|].
    intros v' e' [Hin' | [= -> ->]%list_elem_of_singleton]%elem_of_app Hs;
      [by apply Hdone|].
    split; [|lia].
    destruct (decide (v = source)) as [|Hvs]; [by left | right].
    destruct (decide (v ∈ dom (prev st))) as [|Hnot]; [done | exfalso].
    assert (v ∈ dom g) as Hg.
    { rewrite graphClosed_spec in g_closed. by eapply g_closed. }
    specialize (Hun v Hg Hvs Hnot). lia.
Qed.

Lemma Exact_relaxEdges rk slack u todo : forall done st,
  (forall ve, ve ∈ todo -> ve ∈ neighbors g u) ->
  Reach st -> Mono rk st -> Pivot u st ->
  BoundedBy (driveWeight todo + slack) st -> 0 <= slack ->
  u = source \/ u ∈ dom (prev st) ->
  Exact st -> RelaxedBut u done st ->
  Exact (relaxEdges skip u todo st) /\
  RelaxedBut u (done ++ todo) (relaxEdges skip u todo st).
Proof.
  induction todo as [|[v e] todo IH];
    intros done st Hsub HR HM HP HB Hslack Hfin HE HRel.
  - simpl. by rewrite app_nil_r.
  - simpl in *.
    assert ((v, e) ∈ neighbors g u) as Hin by (apply Hsub; left).
    assert (edgeOk (v, e)) as Hok.
    { pose proof (wfGraph_neighbors g u g_wf) as Hall.
      rewrite Forall_forall in Hall. by apply Hall. }
    pose proof (driveWeight_nonneg todo).
    assert (BoundedBy (Z.max 0 (drivingTime e) + (driveWeight todo + slack)) st)
      as HB' by (by rewrite Z.add_assoc).
    destruct (Exact_relaxEdge rk (driveWeight todo + slack) st u v e done)
      as [HE' HRel']; try done; [lia|].
    destruct (Mono_relaxEdge skip skip_sentinel g g_wf source rk st u v e HM HP)
      as [HM' HP'].
    { intros Hskip. destruct Hok as [Hm1 | Hd]; simpl in *.
      - by rewrite skip_sentinel in Hskip.
      - split; [done|].
        apply (relaxEdge_no_wrap g g_wf source (driveWeight todo + slack));
          (done || lia). }
    replace (done ++ (v, e) :: todo) with ((done ++ [(v, e)]) ++ todo)
      by (by rewrite <- app_assoc).
    apply IH; try done.
    + intros ve Hve. apply Hsub. by right.
    + apply Reach_relaxEdge; [done | by destruct HP | done].
    + apply (BoundedBy_relaxEdge skip skip_sentinel g g_wf source); (done || lia).
    + destruct Hfin as [-> | Hfin]; [by left | right].
      by apply (relaxEdge_dom_prev skip skip_sentinel g g_wf).
Qed.

(** The state in which the edges of the popped node are about to be
    relaxed. *)
Lemma Mono_visit rk st d u rest :
  Reach st -> Mono rk st ->
  pqPop (pq st) = Some ((d, u), rest) -> u ∉ visited st ->
  exists rk',
    Mono rk' {| dist := dist st; prev := prev st;
                visited := {[u]} ∪ visited st; pq := rest |} /\
    Pivot u {| dist := dist st; prev := prev st;
               visited := {[u]} ∪ visited st; pq := rest |}.
Proof.
  intros HR [M1 M2 M3 M4 M5] Hpop Hu.
  apply pqPop_Some in Hpop as (Hin & _ & Hmin & Hsub & Hrest).
  assert (u = source \/ u ∈ dom (prev st)) as Hfin
    by (by apply (reach_pq _ _ _ _ HR d)).
  assert (distAt (dist st) u = d) as Hd.
  { pose proof (M2 _ _ Hin) as Hle.
    pose proof (Hmin _ (M3 u Hfin Hu)) as Hge. simpl in Hge. lia. }
  exists (fun x => if decide (x = u) then size (visited st) else rk x).
  split; [split|split]; simpl.
  - intros x k y [->%elem_of_singleton | Hx]%elem_of_union Hky.
    + rewrite Hd. apply (Hmin (k, y)). auto.
    + eauto.
  - eauto.
  - intros y Hy Hvis. apply Hrest; [apply M3; [done | set_solver]|].
    intros [= _ ->]. set_solver.
  - intros v w Hp Hv. destruct (reach_prev _ _ _ _ HR _ _ Hp) as [Hw _].
    rewrite (decide_False (P := w = u)) by (intros ->; done).
    apply elem_of_union in Hv as [->%elem_of_singleton | Hv].
    + rewrite decide_True by done. by apply M5.
    + rewrite decide_False by (intros ->; done). eauto.
  - intros x Hx.
    rewrite size_union, size_singleton by set_solver.
    destruct (decide (x = u)) as [-> | Hne]; [lia|].
    assert (x ∈ visited st) as Hx' by set_solver.
    specialize (M5 x Hx'). lia.
  - set_solver.
  - intros x [->%elem_of_singleton | Hx]%elem_of_union; [lia|].
    rewrite Hd. apply (M1 x d u); done.
Qed.

Lemma Optimal_init : Optimal (initState g source).
Proof.
  split; [by apply Settled_init|]. split; [split|].
  - intros v u. simpl. by rewrite lookup_empty.
  - intros y Hy Hys _. simpl. rewrite distAt_insert, decide_False by done.
    unfold distAt. rewrite lookup_fmap.
    apply elem_of_dom in Hy as [l ->]. done.
  - intros x. simpl. by intros ?%not_elem_of_empty.
Qed.

Lemma Optimal_visitNode st d u rest :
  Optimal st -> pqPop (pq st) = Some ((d, u), rest) ->
  Optimal (visitNode skip g u rest st).
Proof.
  intros (HS & HE & HRel) Hpop.
  split; [by eapply Settled_visitNode|].
  destruct HS as [[HR HB] (rk & HM)].
  pose proof Hpop as (Hin & _)%pqPop_Some.
  unfold visitNode. case_bool_decide as Hu.
  - split; [by destruct HE|]. intros x Hx. by apply HRel.
  - destruct (Mono_visit rk st d u rest HR HM Hpop Hu) as (rk' & HM' & HP').
    assert (u = source \/ u ∈ dom (prev st)) as Hfin
      by (by apply (reach_pq _ _ _ _ HR d)).
    set (st1 := {| dist := dist st; prev := prev st;
                   visited := {[u]} ∪ visited st; pq := rest |}) in *.
    destruct (Exact_relaxEdges rk' (pendingDrive ({[u]} ∪ visited st) g) u
                (neighbors g u) [] st1) as [HE' [Hothers Hdone]]; try done.
    + destruct HR as [R1 R2 R3]. split; simpl.
      * intros k y Hy. apply (R1 k). by apply pqPop_Some in Hpop as (_ & _ & _ & Hsub & _); apply Hsub.
      * intros y [->%elem_of_singleton | Hy]%elem_of_union; eauto.
      * intros v w Hvw. destruct (R3 _ _ Hvw) as [? ?].
        split; [set_solver | done].
    + rewrite <- pendingDrive_visit by done. destruct HB. split; done.
    + apply pendingDrive_nonneg.
    + by destruct HE.
    + split.
      * intros x [->%elem_of_singleton | Hx]%elem_of_union Hxu; [done|].
        by apply HRel.
      * intros v e ?%elem_of_nil. done.
    + split; [done|]. intros x. rewrite relaxEdges_visited. simpl.
      intros Hx. destruct (decide (x = u)) as [-> | Hxu]; [done|].
      apply Hothers; [|done]. by rewrite relaxEdges_visited.
Qed.

Lemma Optimal_final fuel st :
  dijkstraLoop skip g fuel (initState g source) = Some st ->
  Optimal st /\ pq st = [].
Proof.
  apply dijkstraLoop_invariant; [|apply Optimal_init].
  intros. by eapply Optimal_visitNode.
Qed.

Lemma final_visited rk st y :
  Mono rk st -> pq st = [] ->
  y = source \/ y ∈ dom (prev st) -> y ∈ visited st.
Proof.
  intros HM Hpq Hy.
  destruct (decide (y ∈ visited st)) as [|Hn]; [done|].
  pose proof (mono_live _ _ _ HM y Hy Hn) as Hin.
  rewrite Hpq in Hin. by apply elem_of_nil in Hin.
Qed.

(** No route beats the distance found for its last node. *)
Lemma final_lower rk st q c :
  Reach st -> Mono rk st -> Relaxed st -> pq st = [] ->
  realises skip g q c ->
  forall x y, head q = Some x -> x ∈ visited st -> last q = Some y ->
    (y = source \/ y ∈ dom (prev st)) /\
    distAt (dist st) y <= distAt (dist st) x + c.
Proof.
  intros HR HM HRel Hpq.
  induction 1 as [z | z y' rest e c Hin Hskip Hq IH];
    intros x y Hhead Hx Hlast.
  - simpl in *. injection Hhead as <-. injection Hlast as <-.
    split; [|lia]. by apply (reach_visited _ _ _ _ HR).
  - simpl in Hhead. injection Hhead as <-.
    destruct (HRel z Hx y' e Hin Hskip) as [Hfin Hle].
    pose proof (final_visited rk st y' HM Hpq Hfin) as Hy'.
    destruct (IH y' y eq_refl Hy') as [Hyfin Hyle]; [done|].
    split; [done | lia].
Qed.

Lemma realises_snoc p c u a e :
  realises skip g p c -> last p = Some u ->
  (a, e) ∈ neighbors g u -> skip u a e = false ->
  realises skip g (p ++ [a]) (c + drivingTime e).
Proof.
  intros H. revert u. induction H as [z | z y rest e' c Hin Hskip Hq IH];
    intros u Hlast Ha Hs.
  - simpl in Hlast. injection Hlast as ->. simpl.
    replace (0 + drivingTime e) with (drivingTime e + 0) by lia.
    constructor; [done | done | constructor].
  - change ((z :: y :: rest) ++ [a]) with (z :: y :: (rest ++ [a])).
    replace (drivingTime e' + c + drivingTime e)
      with (drivingTime e' + (c + drivingTime e)) by lia.
    constructor; [done | done |].
    change (y :: rest ++ [a]) with ((y :: rest) ++ [a]). by eapply IH.
Qed.

(** The route that [search] hands back costs the distance found for its
    last node. *)
Lemma final_upper st a l :
  Reach st -> BoundedBy (pendingDrive (visited st) g) st -> Exact st ->
  chainTo (prev st) source a l ->
  a = source \/ a ∈ dom (prev st) ->
  realises skip g (reverse (l ++ [source])) (distAt (dist st) a).
Proof.
  intros HR HB HE. induction 1 as [|a l Hne H IH]; intros Ha.
  - simpl. rewrite (bnd_source_dist _ _ _ _ HB). constructor.
  - destruct Ha as [-> | Ha]; [done|].
    apply elem_of_dom in Ha as [u Hu].
    destruct (exact_prev _ _ _ _ HE _ _ Hu) as (e & Hin & Hskip & Heq).
    destruct (reach_prev _ _ _ _ HR _ _ Hu) as [Hvis _].
    assert (prevAt (prev st) a = u) as Hpa by (unfold prevAt; by rewrite Hu).
    rewrite Hpa in *.
    destruct (chainTo_route _ _ _ _ H) as (_ & Hlast & _).
    replace (reverse ((a :: l) ++ [source]))
      with (reverse (l ++ [source]) ++ [a])
      by (simpl; by rewrite reverse_cons).
    rewrite Heq. eapply realises_snoc; [|done..].
    apply IH. by apply (reach_visited _ _ _ _ HR).
Qed.

(** The route handed back for a destination other than the source is a
    cheapest one: it has a cost, no larger than the total of the graph, and
    no route from the source to the destination costs less. *)
Lemma search_optimal dest p :
  search skip g source dest = Ok p -> p ≠ [] ->
  exists c,
    realises skip g p c /\ 0 <= c <= driveTotal g /\
    forall q c', head q = Some source -> last q = Some dest ->
                 realises skip g q c' -> c <= c'.
Proof.
  unfold search.
  destruct (dijkstraLoop _ _ _ _) as [st|] eqn:Hloop; [|done].
  apply Optimal_final in Hloop as [([[HR HB] (rk & HM)] & HE & HRel) Hpq].
  case_bool_decide as Hdest; [|by intros [= <-]].
  destruct (walkBack _ _ _ _ _) as [path|] eqn:Hwalk; [|done].
  apply walkBack_chain in Hwalk as (l & -> & Hchain). simpl.
  intros [= <-] _. exists (distAt (dist st) dest).
  split; [by apply final_upper; auto|]. split.
  - pose proof (pendingDrive_nonneg (visited st) g).
    destruct (BoundedBy_node g source _ _ dest HB (or_intror Hdest)). lia.
  - intros q c' Hhead Hlast Hq.
    assert (source ∈ visited st) as Hs
      by (apply (final_visited rk); auto).
    destruct (final_lower rk st q c' HR HM HRel Hpq Hq source dest Hhead Hs Hlast)
      as [_ Hle].
    rewrite (bnd_source_dist _ _ _ _ HB) in Hle. lia.
Qed.

(** A destination that some route reaches gets a path. *)
Lemma search_complete dest q c :
  dest ≠ source ->
  head q = Some source -> last q = Some dest -> realises skip g q c ->
  exists p, search skip g source dest = Ok p /\ p ≠ [].
Proof.
  intros Hne Hhead Hlast Hq. unfold search.
  destruct (dijkstraLoop_initState skip g source) as [st Hst]. rewrite Hst.
  apply Optimal_final in Hst as [([[HR HB] (rk & HM)] & HE & HRel) Hpq].
  assert (source ∈ visited st) as Hs by (apply (final_visited rk); auto).
  destruct (final_lower rk st q c HR HM HRel Hpq Hq source dest Hhead Hs Hlast)
    as [[-> | Hdest] _]; [done|].
  rewrite bool_decide_eq_true_2 by done.
  destruct (walkBack_terminates skip g source rk st
              (S (rk dest)) dest [] HR HM Hpq (or_intror Hdest))
    as [path Hpath]; [lia|].
  rewrite (walkBack_fuel_enough _ _ _ _ _ _ Hpath).
  eexists. split; [done|].
  rewrite reverse_app. done.
Qed.

End Shortest.

(** *** Routes, drivable paths and aggregated times *)

Lemma realises_nonempty skip g q c : realises skip g q c -> q ≠ [].
Proof. by destruct 1. Qed.

Lemma realises_weaken skip1 skip2 g q c :
  (forall u v e, skip1 u v e = false -> skip2 u v e = false) ->
  realises skip1 g q c -> realises skip2 g q c.
Proof. intros H. induction 1; constructor; auto. Qed.

Lemma skipShortest_false u v e :
  skipShortest u v e = false <-> drivingTime e ≠ -1.
Proof. unfold skipShortest. apply Z.eqb_neq. Qed.

Lemma realises_drivable skip g q c :
  (forall u v e, drivingTime e = -1 -> skip u v e = true) ->
  realises skip g q c -> drivable g q.
Proof.
  intros Hsent. induction 1 as [x | x y rest e c Hin Hskip Hq IH]; intros a b.
  - unfold segmentsOf. simpl. by intros ?%elem_of_nil.
  - rewrite segmentsOf_cons. intros [[= -> ->] | Hab]%elem_of_cons; [|by apply IH].
    exists e. split; [done|]. intros Hd. by rewrite Hsent in Hskip.
Qed.

Lemma drivable_realises g q :
  q ≠ [] -> drivable g q -> exists c, realises skipShortest g q c.
Proof.
  induction q as [|x [|y rest] IH]; intros Hne Hq; [done | |].
  - exists 0. constructor.
  - destruct (Hq x y) as (e & Hin & Hd); [rewrite segmentsOf_cons; left|].
    destruct IH as [c Hc]; [done | |].
    { intros a b Hab. apply Hq. rewrite segmentsOf_cons. by right. }
    exists (drivingTime e + c). constructor; [done | | done].
    by apply skipShortest_false.
Qed.

Lemma firstEdgeTo_simple g x y e :
  simpleGraph g -> (y, e) ∈ neighbors g x ->
  firstEdgeTo y (neighbors g x) = Some e.
Proof.
  intros Hsimple (l & Hl & Hin)%neighbors_elem.
  unfold neighbors. rewrite Hl. simpl.
  specialize (Hsimple x l Hl). simpl in Hsimple. clear Hl.
  induction l as [|[w e'] l IH]; [by apply elem_of_nil in Hin|].
  rewrite fmap_cons in Hsimple. apply NoDup_cons in Hsimple as [Hw Hnd].
  simpl. destruct (decide (w = y)) as [-> | Hne].
  - apply elem_of_cons in Hin as [[= ->] | Hin]; [done|].
    exfalso. apply Hw. simpl. apply list_elem_of_fmap. by exists (y, e).
  - apply elem_of_cons in Hin as [[= -> ->] | Hin]; [done|]. by apply IH.
Qed.

(** On a simple well-formed graph the aggregated driving time of a route is
    its cost. *)
Lemma realises_pathSum skip g q c :
  (forall u v e, drivingTime e = -1 -> skip u v e = true) ->
  wfGraph g -> simpleGraph g ->
  realises skip g q c ->
  pathSum drivingTime g q = c /\
  forall a b, (a, b) ∈ segmentsOf q ->
    exists w, segmentTime drivingTime g a b = Some w /\ 0 <= w.
Proof.
  intros Hsent Hwf Hsimple.
  induction 1 as [x | x y rest e c Hin Hskip Hq [IH1 IH2]].
  - split; [done|]. intros a b. unfold segmentsOf. simpl. by intros ?%elem_of_nil.
  - assert (drivingTime e ≠ -1) as Hd by (intros Hd; by rewrite Hsent in Hskip).
    assert (segmentTime drivingTime g x y = Some (drivingTime e)) as Hseg.
    { unfold segmentTime. rewrite (firstEdgeTo_simple g x y e) by done.
      by rewrite (proj2 (Z.eqb_neq _ _) Hd). }
    split.
    + unfold pathSum in *. rewrite segmentsOf_cons. simpl. rewrite Hseg.
      simpl. by rewrite IH1.
    + intros a b. rewrite segmentsOf_cons.
      intros [[= -> ->] | Hab]%elem_of_cons; [|by apply IH2].
      exists (drivingTime e). split; [done|].
      pose proof (wfGraph_neighbors g x Hwf) as Hall.
      rewrite Forall_forall in Hall. destruct (Hall (y, e) Hin); simpl in *; lia.
Qed.

Lemma realises_calculateDrivingTime skip g q c :
  (forall u v e, drivingTime e = -1 -> skip u v e = true) ->
  wfGraph g -> simpleGraph g ->
  realises skip g q c -> c <= INT_MAX ->
  calculateDrivingTime g q = c.
Proof.
  intros Hsent Hwf Hsimple Hq Hc.
  destruct (realises_pathSum skip g q c Hsent Hwf Hsimple Hq) as [Hsum Hv].
  unfold calculateDrivingTime. rewrite calculateTime_sumTimes.
  rewrite (sumTimes_exact drivingTime g q 0 Hv); lia.
Qed.

(** A path whose segments all have a time is a route of the plain search,
    at the cost of the entries that the aggregation reads. *)
Lemma validPath_realises g q :
  q ≠ [] -> validPath drivingTime g q ->
  realises skipShortest g q (pathSum drivingTime g q).
Proof.
  unfold pathSum.
  induction q as [|x [|y rest] IH]; intros Hne Hv; [done | constructor |].
  rewrite segmentsOf_cons. simpl.
  destruct (Hv x y) as [w Hw]; [rewrite segmentsOf_cons; left|].
  rewrite Hw. simpl. unfold segmentTime in Hw.
  destruct (firstEdgeTo y (neighbors g x)) as [e|] eqn:He; [|done].
  destruct (drivingTime e =? -1) eqn:Hd; [done|]. injection Hw as <-.
  constructor.
  - by apply firstEdgeTo_Some.
  - done.
  - apply IH; [done|]. intros a b Hab. apply Hv. rewrite segmentsOf_cons. by right.
Qed.

Lemma validPath_respects_realises avoidNodes avoidSegments g q :
  q ≠ [] -> validPath drivingTime g q -> respects avoidNodes avoidSegments q ->
  realises (skipRestricted avoidNodes avoidSegments) g q
           (pathSum drivingTime g q).
Proof.
  unfold pathSum.
  induction q as [|x [|y rest] IH]; intros Hne Hv Hr; [done | constructor |].
  rewrite segmentsOf_cons. simpl.
  destruct (Hv x y) as [w Hw]; [rewrite segmentsOf_cons; left|].
  destruct (Hr x y) as (Hn & Hs1 & Hs2); [rewrite segmentsOf_cons; left|].
  rewrite Hw. simpl. unfold segmentTime in Hw.
  destruct (firstEdgeTo y (neighbors g x)) as [e|] eqn:He; [|done].
  destruct (drivingTime e =? -1) eqn:Hd; [done|]. injection Hw as <-.
  constructor.
  - by apply firstEdgeTo_Some.
  - unfold skipRestricted. rewrite Hd.
    by rewrite !bool_decide_eq_false_2.
  - apply IH; [done | |].
    + intros a b Hab. apply Hv. rewrite segmentsOf_cons. by right.
    + intros a b Hab. apply Hr. rewrite segmentsOf_cons. by right.
Qed.

(** What a search hands back on a simple graph: its aggregated driving
    time is valid and no route of the same search costs less. *)
Lemma search_cheapest skip g source dest p :
  (forall u v e, drivingTime e = -1 -> skip u v e = true) ->
  wfGraph g -> graphClosed g -> driveTotal g < INT_MAX -> simpleGraph g ->
  search skip g source dest = Ok p -> p ≠ [] ->
  realises skip g p (calculateDrivingTime g p) /\
  0 <= calculateDrivingTime g p /\
  forall q c, head q = Some source -> last q = Some dest ->
              realises skip g q c -> calculateDrivingTime g p <= c.
Proof.
  intros Hsent Hwf Hclosed Hbelow Hsimple Hp Hne.
  destruct (search_optimal skip Hsent g Hwf Hclosed Hbelow source dest p Hp Hne)
    as (c & Hc & Hrange & Hmin).
  rewrite (realises_calculateDrivingTime skip g p c) by (done || lia).
  split; [done|]. split; [lia | done].
Qed.

(** ** route.cpp: [dijkstraShortestPath] *)

(** X6.  A non-empty path returned by [dijkstraShortestPath] starts at the
    source, ends at the destination, repeats no node, and each of its
    segments has an adjacency entry open to cars.  On a well-formed graph
    the call returns. *)
Theorem shortest_path_is_drivable_route g source dest :
  (forall p, dijkstraShortestPath g source dest = Ok p -> p ≠ [] ->
     head p = Some source /\ last p = Some dest /\ NoDup p /\ drivable g p) /\
  (wfGraph g -> exists p, dijkstraShortestPath g source dest = Ok p).
Proof.
  split; [|apply dijkstraShortestPath_total].
  intros p Hp Hne.
  destruct (search_route _ _ _ _ _ Hp Hne) as ([t ->] & Hlast & Hnd & Hseg).
  split; [done|]. split; [done|]. split; [done|].
  intros a b Hab. destruct (Hseg a b Hab) as (e & Hin & Hskip).
  exists e. split; [done|]. by apply (skipShortest_false a b e).
Qed.

Lemma shortest_path_is_drivable_route_witness :
  dijkstraShortestPath scenarioGraph "A" "D" = Ok ["A"; "C"; "D"] /\
  drivable scenarioGraph ["A"; "C"; "D"] /\
  exists p, dijkstraShortestPath scenarioGraph "A" "D" = Ok p.
Proof.
  destruct (shortest_path_is_drivable_route scenarioGraph "A" "D") as [H1 H2].
  assert (dijkstraShortestPath scenarioGraph "A" "D" = Ok ["A"; "C"; "D"]) as E
    by (vm_compute; reflexivity).
  split; [exact E|]. split.
  - destruct (H1 _ E) as (_ & _ & _ & H); [discriminate | exact H].
  - apply H2. exact scenarioGraph_wf.
Defined.

Lemma search_no_entry skip g source dest :
  (forall u e, (dest, e) ∉ neighbors g u) ->
  search skip g source dest = Ok [].
Proof.
  intros Hno. unfold search.
  destruct (dijkstraLoop_initState skip g source) as [st Hst]. rewrite Hst.
  apply Reach_final in Hst as [HR _].
  rewrite bool_decide_eq_false_2; [done|].
  intros [u Hu]%elem_of_dom.
  destruct (reach_prev _ _ _ _ HR _ _ Hu) as (_ & e & Hin & _).
  by apply (Hno u e).
Qed.

Lemma search_isolated_source skip g source dest :
  neighbors g source = [] -> search skip g source dest = Ok [].
Proof.
  intros Hsrc. unfold search.
  destruct (dijkstraLoop_initState skip g source) as [st Hst]. rewrite Hst.
  assert (prev st = ∅) as ->.
  { apply (dijkstraLoop_invariant skip g
      (fun st => prev st = ∅ /\ forall k y, (k, y) ∈ pq st -> y = source))
      in Hst as [[H _] _]; [done | |].
    - intros st' d u rest [Hprev Hpq] Hpop.
      apply pqPop_Some in Hpop as (Hin & _ & _ & Hsub & _).
      rewrite (Hpq d u Hin). unfold visitNode. rewrite Hsrc.
      case_bool_decide; simpl; (split; [done|]); intros k y Hy;
        apply (Hpq k); by apply Hsub.
    - split; [done|]. simpl. by intros k y [= _ ->]%list_elem_of_singleton. }
  by rewrite dom_empty_L, bool_decide_eq_false_2 by set_solver.
Qed.

(** X7.  A source without adjacency entries (in particular one that is not
    in the map), or a destination that no adjacency entry leads to, gives
    the empty path, for the plain and for the restricted search and
    whatever the other arguments are. *)
Theorem unknown_endpoint_gives_empty_path
    g source dest avoidNodes avoidSegments :
  neighbors g source = [] \/ (forall u e, (dest, e) ∉ neighbors g u) ->
  dijkstraShortestPath g source dest = Ok [] /\
  dijkstraRestricted g source dest avoidNodes avoidSegments = Ok [].
Proof.
  intros [H | H]; split;
    (by apply search_isolated_source) || (by apply search_no_entry).
Qed.

Lemma unknown_endpoint_gives_empty_path_witness :
  neighbors scenarioGraph "E" = [] /\
  dijkstraShortestPath scenarioGraph "E" "A" = Ok [] /\
  dijkstraRestricted scenarioGraph "E" "A" {["B"]} ∅ = Ok [].
Proof.
  assert (neighbors scenarioGraph "E" = []) as H by (vm_compute; reflexivity).
  split; [exact H|].
  apply (unknown_endpoint_gives_empty_path scenarioGraph "E" "A" {["B"]} ∅).
  left. exact H.
Defined.

(** X8.  On a well-formed graph in which every neighbour is a node and the
    driving times sum below [INT_MAX], and for a destination other than
    the source, [dijkstraShortestPath] returns a non-empty path exactly
    when some path from the source to the destination is drivable. *)
Theorem shortest_path_found_iff_drivable g source dest :
  wfGraph g -> graphClosed g -> driveTotal g < INT_MAX -> dest ≠ source ->
  exists p, dijkstraShortestPath g source dest = Ok p /\
    (p ≠ [] <->
     exists q, head q = Some source /\ last q = Some dest /\ drivable g q).
Proof.
  intros Hwf Hclosed Hbelow Hne.
  destruct (dijkstraShortestPath_total g source dest Hwf) as [p Hp].
  exists p. split; [done|]. split.
  - intros Hp'. exists p.
    destruct (search_route _ _ _ _ _ Hp Hp') as ([t ->] & Hlast & _ & Hseg).
    split; [done|]. split; [done|].
    intros a b Hab. destruct (Hseg a b Hab) as (e & Hin & Hskip).
    exists e. split; [done|]. by apply (skipShortest_false a b e).
  - intros (q & Hhead & Hlast & Hq).
    destruct (drivable_realises g q) as [c Hc]; [by destruct q | done |].
    destruct (search_complete skipShortest skipShortest_sentinel g Hwf Hclosed
                Hbelow source dest q c Hne Hhead Hlast Hc) as (p' & Hp' & Hne').
    unfold dijkstraShortestPath in Hp. congruence.
Qed.

Lemma shortest_path_found_iff_drivable_witness :
  exists p, dijkstraShortestPath scenarioGraph "A" "D" = Ok p /\
    (p ≠ [] <->
     exists q, head q = Some "A" /\ last q = Some "D" /\
               drivable scenarioGraph q).
Proof.
  apply (shortest_path_found_iff_drivable scenarioGraph "A" "D").
  - exact scenarioGraph_wf.
  - apply (bool_decide_unpack (graphClosed scenarioGraph)). vm_compute. exact I.
  - vm_compute. reflexivity.
  - discriminate.
Defined.

(** X9.  On a well-formed simple graph (no neighbour listed twice, every
    neighbour a node, driving times summing below [INT_MAX]) the path of
    [dijkstraShortestPath] is a shortest one: its aggregated driving time
    is valid, and no path from the source to the destination whose
    segments all have a driving time has a smaller sum. *)
Theorem shortest_path_is_shortest g source dest p :
  wfGraph g -> graphClosed g -> driveTotal g < INT_MAX -> simpleGraph g ->
  dijkstraShortestPath g source dest = Ok p -> p ≠ [] ->
  0 <= calculateDrivingTime g p /\
  calculateDrivingTime g p = pathSum drivingTime g p /\
  forall q, head q = Some source -> last q = Some dest ->
            validPath drivingTime g q ->
            calculateDrivingTime g p <= pathSum drivingTime g q.
Proof.
  intros Hwf Hclosed Hbelow Hsimple Hp Hne.
  destruct (search_cheapest skipShortest g source dest p skipShortest_sentinel
              Hwf Hclosed Hbelow Hsimple Hp Hne) as (Hreal & Hpos & Hmin).
  split; [done|]. split.
  - symmetry.
    by apply (realises_pathSum skipShortest g p _ skipShortest_sentinel).
  - intros q Hhead Hlast Hq. apply (Hmin q); [done | done |].
    apply validPath_realises; [by destruct q | done].
Qed.

Lemma shortest_path_is_shortest_witness :
  calculateDrivingTime scenarioGraph ["A"; "C"; "D"] = 10 /\
  0 <= calculateDrivingTime scenarioGraph ["A"; "C"; "D"] /\
  calculateDrivingTime scenarioGraph ["A"; "C"; "D"]
  = pathSum drivingTime scenarioGraph ["A"; "C"; "D"] /\
  forall q, head q = Some "A" -> last q = Some "D" ->
            validPath drivingTime scenarioGraph q ->
            calculateDrivingTime scenarioGraph ["A"; "C"; "D"]
            <= pathSum drivingTime scenarioGraph q.
Proof.
  split; [vm_compute; reflexivity|].
  apply (shortest_path_is_shortest scenarioGraph "A" "D").
  - exact scenarioGraph_wf.
  - apply (bool_decide_unpack (graphClosed scenarioGraph)). vm_compute. exact I.
  - vm_compute. reflexivity.
  - apply (bool_decide_unpack (simpleGraph scenarioGraph)). vm_compute. exact I.
  - vm_compute. reflexivity.
  - discriminate.
Defined.

(** ** route.cpp: [dijkstraRestricted] *)

(** X10.  On a well-formed simple graph the path of [dijkstraRestricted] is
    a shortest one among the paths that obey the exclusions: its
    aggregated driving time is valid, it obeys the exclusions itself, and
    no path from the source to the destination that has a driving time on
    every segment, enters no excluded node and uses no excluded segment in
    either direction has a smaller sum. *)
Theorem restricted_path_is_shortest_allowed
    g source dest avoidNodes avoidSegments p :
  wfGraph g -> graphClosed g -> driveTotal g < INT_MAX -> simpleGraph g ->
  dijkstraRestricted g source dest avoidNodes avoidSegments = Ok p -> p ≠ [] ->
  0 <= calculateDrivingTime g p /\
  respects avoidNodes avoidSegments p /\
  forall q, head q = Some source -> last q = Some dest ->
            validPath drivingTime g q ->
            respects avoidNodes avoidSegments q ->
            calculateDrivingTime g p <= pathSum drivingTime g q.
Proof.
  intros Hwf Hclosed Hbelow Hsimple Hp Hne.
  destruct (search_cheapest (skipRestricted avoidNodes avoidSegments)
              g source dest p (skipRestricted_sentinel avoidNodes avoidSegments)
              Hwf Hclosed Hbelow Hsimple Hp Hne) as (Hreal & Hpos & Hmin).
  split; [done|]. split.
  - destruct (dijkstraRestricted_route _ _ _ _ _ _ Hp Hne) as (_ & _ & _ & H).
    intros a b Hab. by destruct (H a b Hab) as [_ ?].
  - intros q Hhead Hlast Hq Hr. apply (Hmin q); [done | done |].
    apply validPath_respects_realises; [by destruct q | done | done].
Qed.

Lemma restricted_path_is_shortest_allowed_witness :
  dijkstraRestricted scenarioGraph "A" "D" {["C"]} ∅ = Ok ["A"; "B"; "D"] /\
  0 <= calculateDrivingTime scenarioGraph ["A"; "B"; "D"] /\
  respects {["C"]} ∅ ["A"; "B"; "D"] /\
  forall q, head q = Some "A" -> last q = Some "D" ->
            validPath drivingTime scenarioGraph q ->
            respects {["C"]} ∅ q ->
            calculateDrivingTime scenarioGraph ["A"; "B"; "D"]
            <= pathSum drivingTime scenarioGraph q.
Proof.
  split; [vm_compute; reflexivity|].
  apply (restricted_path_is_shortest_allowed scenarioGraph "A" "D").
  - exact scenarioGraph_wf.
  - apply (bool_decide_unpack (graphClosed scenarioGraph)). vm_compute. exact I.
  - vm_compute. reflexivity.
  - apply (bool_decide_unpack (simpleGraph scenarioGraph)). vm_compute. exact I.
  - vm_compute. reflexivity.
  - discriminate.
Defined.

Lemma skipRestricted_skipShortest avoidNodes avoidSegments u v e :
  skipRestricted avoidNodes avoidSegments u v e = false ->
  skipShortest u v e = false.
Proof.
  unfold skipRestricted, skipShortest.
  by destruct (drivingTime e =? -1).
Qed.

(** A search with fewer guards finds a route whenever one with more guards
    does, and its route costs no more. *)
Lemma guarded_not_shorter skip1 skip2 g source dest pr :
  (forall u v e, drivingTime e = -1 -> skip1 u v e = true) ->
  (forall u v e, drivingTime e = -1 -> skip2 u v e = true) ->
  (forall u v e, skip2 u v e = false -> skip1 u v e = false) ->
  wfGraph g -> graphClosed g -> driveTotal g < INT_MAX -> simpleGraph g ->
  search skip2 g source dest = Ok pr -> pr ≠ [] ->
  exists ps, search skip1 g source dest = Ok ps /\ ps ≠ [] /\
             calculateDrivingTime g ps <= calculateDrivingTime g pr.
Proof.
  intros Hsent1 Hsent2 Hweak Hwf Hclosed Hbelow Hsimple Hp Hne.
  destruct (search_cheapest skip2 g source dest pr Hsent2 Hwf Hclosed Hbelow
              Hsimple Hp Hne) as (Hreal & _ & _).
  apply (realises_weaken skip2 skip1) in Hreal; [|done].
  destruct (search_route _ _ _ _ _ Hp Hne) as ([t Ht] & Hlast & _ & _).
  assert (head pr = Some source) as Hhead by (by rewrite Ht).
  assert (dest ≠ source) as Hds.
  { intros ->. rewrite (search_self skip2 Hsent2 g Hwf source) in Hp.
    by injection Hp as <-. }
  destruct (search_complete skip1 Hsent1 g Hwf Hclosed
              Hbelow source dest pr _ Hds Hhead Hlast Hreal)
    as (ps & Hps & Hne').
  exists ps. split; [done|]. split; [done|].
  destruct (search_cheapest skip1 g source dest ps Hsent1
              Hwf Hclosed Hbelow Hsimple Hps Hne') as (_ & _ & Hmin).
  by apply (Hmin pr).
Qed.

Lemma skipRestricted_mono avoidNodes avoidSegments avoidNodes' avoidSegments'
    u v e :
  avoidNodes ⊆ avoidNodes' -> avoidSegments ⊆ avoidSegments' ->
  skipRestricted avoidNodes' avoidSegments' u v e = false ->
  skipRestricted avoidNodes avoidSegments u v e = false.
Proof.
  intros Hn Hs. unfold skipRestricted.
  destruct (drivingTime e =? -1); [done|].
  case_bool_decide as Hv; [done|].
  intros [H1 H2]%orb_false_iff.
  apply bool_decide_eq_false in H1, H2.
  rewrite !bool_decide_eq_false_2 by set_solver. done.
Qed.

(** X11.  Exclusions never shorten the route.  On a well-formed simple
    graph, whenever [dijkstraRestricted] finds a path under some
    exclusions, it finds one under any smaller sets of exclusions too, and
    so does [dijkstraShortestPath], each with an aggregated driving time
    that is no larger. *)
Theorem exclusions_never_shorten
    g source dest avoidNodes avoidSegments avoidNodes' avoidSegments' pr :
  wfGraph g -> graphClosed g -> driveTotal g < INT_MAX -> simpleGraph g ->
  avoidNodes ⊆ avoidNodes' -> avoidSegments ⊆ avoidSegments' ->
  dijkstraRestricted g source dest avoidNodes' avoidSegments' = Ok pr ->
  pr ≠ [] ->
  exists p ps,
    dijkstraRestricted g source dest avoidNodes avoidSegments = Ok p /\
    dijkstraShortestPath g source dest = Ok ps /\
    p ≠ [] /\ ps ≠ [] /\
    calculateDrivingTime g ps <= calculateDrivingTime g p /\
    calculateDrivingTime g p <= calculateDrivingTime g pr.
Proof.
  intros Hwf Hclosed Hbelow Hsimple Hn Hs Hp Hne.
  destruct (guarded_not_shorter (skipRestricted avoidNodes avoidSegments)
              (skipRestricted avoidNodes' avoidSegments') g source dest pr)
    as (p & Hp1 & Hne1 & Hle1); try done.
  { apply skipRestricted_sentinel. }
  { apply skipRestricted_sentinel. }
  { intros u v e. by apply skipRestricted_mono. }
  destruct (guarded_not_shorter skipShortest
              (skipRestricted avoidNodes avoidSegments) g source dest p)
    as (ps & Hp2 & Hne2 & Hle2); try done.
  { apply skipShortest_sentinel. }
  { apply skipRestricted_sentinel. }
  { apply skipRestricted_skipShortest. }
  by exists p, ps.
Qed.

Lemma exclusions_never_shorten_witness :
  dijkstraRestricted scenarioGraph "A" "D" {["C"]} {[("A", "D")]}
  = Ok ["A"; "B"; "D"] /\
  calculateDrivingTime scenarioGraph ["A"; "B"; "D"] = 20 /\
  exists p ps,
    dijkstraRestricted scenarioGraph "A" "D" ∅ {[("A", "D")]} = Ok p /\
    dijkstraShortestPath scenarioGraph "A" "D" = Ok ps /\
    p ≠ [] /\ ps ≠ [] /\
    calculateDrivingTime scenarioGraph ps
    <= calculateDrivingTime scenarioGraph p /\
    calculateDrivingTime scenarioGraph p
    <= calculateDrivingTime scenarioGraph ["A"; "B"; "D"].
Proof.
  split; [vm_compute; reflexivity|]. split; [vm_compute; reflexivity|].
  apply (exclusions_never_shorten scenarioGraph "A" "D"
           ∅ {[("A", "D")]} {["C"]} {[("A", "D")]}).
  - exact scenarioGraph_wf.
  - apply (bool_decide_unpack (graphClosed scenarioGraph)). vm_compute. exact I.
  - vm_compute. reflexivity.
  - apply (bool_decide_unpack (simpleGraph scenarioGraph)). vm_compute. exact I.
  - apply (bool_decide_unpack (_ ⊆ _)). vm_compute. exact I.
  - apply (bool_decide_unpack (_ ⊆ _)). vm_compute. exact I.
  - vm_compute. reflexivity.
  - discriminate.
Defined.

(** ** route.cpp and batch.cpp: the alternative route *)

Lemma segmentsOf_head (p : list string) :
  (2 <= length p)%nat -> exists a b, (a, b) ∈ segmentsOf p.
Proof.
  destruct p as [|a [|b r]]; simpl; try lia. intros _.
  exists a, b. rewrite segmentsOf_cons. left.
Qed.

(** X12.  On a well-formed simple graph and for a main path of at least two
    nodes, the path of [findAlternativeRoute] is a shortest one among the
    paths that enter no intermediate node of the main path and use none of
    its segments in either direction. *)
Theorem alternative_route_is_shortest_disjoint g source dest mainPath p :
  wfGraph g -> graphClosed g -> driveTotal g < INT_MAX -> simpleGraph g ->
  (2 <= length mainPath)%nat ->
  findAlternativeRoute g source dest mainPath = Ok p -> p ≠ [] ->
  0 <= calculateDrivingTime g p /\
  forall q, head q = Some source -> last q = Some dest ->
    validPath drivingTime g q ->
    (forall a b, (a, b) ∈ segmentsOf q ->
       (b ∉ intermediateNodes mainPath) /\
       ((a, b) ∉ segmentsOf mainPath) /\ ((b, a) ∉ segmentsOf mainPath)) ->
    calculateDrivingTime g p <= pathSum drivingTime g q.
Proof.
  intros Hwf Hclosed Hbelow Hsimple Hlen Hp Hne.
  destruct (findAlternativeRoute_search g source dest mainPath Hlen)
    as (E & HE & Heq).
  rewrite Heq in Hp.
  destruct (search_cheapest _ g source dest p
              (skipRestricted_sentinel (list_to_set (intermediateNodes mainPath)) E)
              Hwf Hclosed Hbelow Hsimple Hp Hne) as (_ & Hpos & Hmin).
  split; [done|].
  intros q Hhead Hlast Hq Hdis. apply (Hmin q); [done | done |].
  apply validPath_respects_realises; [by destruct q | done |].
  intros a b Hab. destruct (Hdis a b Hab) as (Hn & Hs1 & Hs2).
  rewrite elem_of_list_to_set, !HE. tauto.
Qed.

Lemma alternative_route_is_shortest_disjoint_witness :
  findAlternativeRoute scenarioGraph "A" "D" ["A"; "C"; "D"]
  = Ok ["A"; "B"; "D"] /\
  0 <= calculateDrivingTime scenarioGraph ["A"; "B"; "D"] /\
  forall q, head q = Some "A" -> last q = Some "D" ->
    validPath drivingTime scenarioGraph q ->
    (forall a b, (a, b) ∈ segmentsOf q ->
       (b ∉ intermediateNodes ["A"; "C"; "D"]) /\
       ((a, b) ∉ segmentsOf ["A"; "C"; "D"]) /\
       ((b, a) ∉ segmentsOf ["A"; "C"; "D"])) ->
    calculateDrivingTime scenarioGraph ["A"; "B"; "D"]
    <= pathSum drivingTime scenarioGraph q.
Proof.
  split; [vm_compute; reflexivity|].
  apply (alternative_route_is_shortest_disjoint scenarioGraph "A" "D"
           ["A"; "C"; "D"]).
  - exact scenarioGraph_wf.
  - apply (bool_decide_unpack (graphClosed scenarioGraph)). vm_compute. exact I.
  - vm_compute. reflexivity.
  - apply (bool_decide_unpack (simpleGraph scenarioGraph)). vm_compute. exact I.
  - simpl. lia.
  - vm_compute. reflexivity.
  - discriminate.
Defined.

(** X13.  The [driving] mode of the batch file: when it produces its two
    routes, the best one is not empty, the alternative differs from it,
    and on a well-formed simple graph an alternative that exists takes at
    least as long as the best route. *)
Theorem batch_driving_alternative_not_better g sourceCode destCode path alt :
  batchDriving g sourceCode destCode = Ok (path, alt) ->
  path ≠ [] /\ alt ≠ path /\
  (wfGraph g -> graphClosed g -> driveTotal g < INT_MAX -> simpleGraph g ->
   alt ≠ [] -> calculateDrivingTime g path <= calculateDrivingTime g alt).
Proof.
  unfold batchDriving. intros H.
  destruct (dijkstraShortestPath g sourceCode destCode) as [path'| |] eqn:Hp;
    simpl in H; try done.
  destruct (findAlternativeRoute g sourceCode destCode path')
    as [alt'| |] eqn:Ha; simpl in H; try done.
  injection H as -> ->.
  assert (2 <= length path)%nat as Hlen.
  { destruct (decide (2 <= length path)%nat) as [|Hshort]; [done|].
    rewrite findAlternativeRoute_short in Ha by lia. done. }
  destruct (findAlternativeRoute_search g sourceCode destCode path Hlen)
    as (E & HE & Heq).
  rewrite Heq in Ha.
  assert (path ≠ []) as Hpath by (intros ->; simpl in Hlen; lia).
  split; [done|]. split.
  - intros ->.
    destruct (segmentsOf_head path Hlen) as (a & b & Hab).
    destruct (search_route _ _ _ _ _ Ha Hpath) as (_ & _ & _ & Hseg).
    destruct (Hseg a b Hab) as (e & _ & Hskip).
    unfold skipAlternative in Hskip.
    destruct (drivingTime e =? -1); [done|].
    case_bool_decide; [done|].
    apply orb_false_iff in Hskip as [Hskip _].
    apply bool_decide_eq_false in Hskip. apply Hskip, HE. by left.
  - intros Hwf Hclosed Hbelow Hsimple Hne.
    destruct (guarded_not_shorter skipShortest _ g sourceCode destCode alt
                skipShortest_sentinel
                (skipRestricted_sentinel _ E)
                (skipRestricted_skipShortest _ E)
                Hwf Hclosed Hbelow Hsimple Ha Hne) as (ps & Hps & _ & Hle).
    unfold dijkstraShortestPath in Hp. congruence.
Qed.

Lemma batch_driving_alternative_not_better_witness :
  batchDriving scenarioGraph "A" "D" = Ok (["A"; "C"; "D"], ["A"; "B"; "D"]) /\
  calculateDrivingTime scenarioGraph ["A"; "C"; "D"]
  <= calculateDrivingTime scenarioGraph ["A"; "B"; "D"].
Proof.
  assert (batchDriving scenarioGraph "A" "D"
          = Ok (["A"; "C"; "D"], ["A"; "B"; "D"])) as E
    by (vm_compute; reflexivity).
  split; [exact E|].
  destruct (batch_driving_alternative_not_better scenarioGraph "A" "D" _ _ E)
    as (_ & _ & H).
  apply H.
  - exact scenarioGraph_wf.
  - apply (bool_decide_unpack (graphClosed scenarioGraph)). vm_compute. exact I.
  - vm_compute. reflexivity.
  - apply (bool_decide_unpack (simpleGraph scenarioGraph)). vm_compute. exact I.
  - discriminate.
Defined.

(** ** route.cpp: the shortest time is the same in both directions *)

Lemma realises_reverse g p c :
  (forall u v e, (v, e) ∈ neighbors g u -> (u, e) ∈ neighbors g v) ->
  realises skipShortest g p c -> realises skipShortest g (reverse p) c.
Proof.
  intros Hsym. induction 1 as [x | x y rest e c Hin Hskip Hq IH].
  - constructor.
  - rewrite reverse_cons.
    replace (drivingTime e + c) with (c + drivingTime e) by lia.
    apply (realises_snoc skipShortest g _ c y x e); [done | | by apply Hsym | done].
    by rewrite last_reverse.
Qed.

(** X14.  On the graph that [main] builds, when it is well formed and
    simple, a route found from [source] to [dest] means that one is found
    from [dest] to [source] as well, with the same aggregated driving
    time. *)
Theorem shortest_time_is_symmetric edges source dest p :
  wfGraph (buildGraph edges) -> driveTotal (buildGraph edges) < INT_MAX ->
  simpleGraph (buildGraph edges) ->
  dijkstraShortestPath (buildGraph edges) source dest = Ok p -> p ≠ [] ->
  exists p', dijkstraShortestPath (buildGraph edges) dest source = Ok p' /\
    p' ≠ [] /\
    calculateDrivingTime (buildGraph edges) p'
    = calculateDrivingTime (buildGraph edges) p.
Proof.
  intros Hwf Hbelow Hsimple Hp Hne.
  pose proof (buildGraph_graphClosed edges) as Hclosed.
  assert (forall u v e, (v, e) ∈ neighbors (buildGraph edges) u ->
                        (u, e) ∈ neighbors (buildGraph edges) v) as Hsym
    by (intros u v e; apply buildGraph_mirror).
  destruct (search_cheapest skipShortest _ source dest p skipShortest_sentinel
              Hwf Hclosed Hbelow Hsimple Hp Hne) as (Hreal & _ & Hmin).
  destruct (search_route _ _ _ _ _ Hp Hne) as ([t Ht] & Hlast & _ & _).
  assert (head p = Some source) as Hhead by (by rewrite Ht).
  assert (source ≠ dest) as Hds.
  { intros <-. unfold dijkstraShortestPath in Hp.
    rewrite (search_self skipShortest skipShortest_sentinel _ Hwf source) in Hp.
    by injection Hp as <-. }
  destruct (search_complete skipShortest skipShortest_sentinel _ Hwf Hclosed
              Hbelow dest source (reverse p)
              (calculateDrivingTime (buildGraph edges) p) Hds)
    as (p' & Hp' & Hne').
  { by rewrite head_reverse. }
  { by rewrite last_reverse. }
  { by apply realises_reverse. }
  exists p'. split; [done|]. split; [done|].
  destruct (search_cheapest skipShortest _ dest source p' skipShortest_sentinel
              Hwf Hclosed Hbelow Hsimple Hp' Hne') as (Hreal' & _ & Hmin').
  destruct (search_route _ _ _ _ _ Hp' Hne') as ([t' Ht'] & Hlast' & _ & _).
  assert (calculateDrivingTime (buildGraph edges) p'
          <= calculateDrivingTime (buildGraph edges) p).
  { apply (Hmin' (reverse p)); [by rewrite head_reverse | by rewrite last_reverse|].
    by apply realises_reverse. }
  assert (calculateDrivingTime (buildGraph edges) p
          <= calculateDrivingTime (buildGraph edges) p').
  { apply (Hmin (reverse p')).
    - by rewrite head_reverse.
    - rewrite last_reverse. by rewrite Ht'.
    - by apply realises_reverse. }
  lia.
Qed.

Lemma shortest_time_is_symmetric_witness :
  dijkstraShortestPath scenarioGraph "A" "D" = Ok ["A"; "C"; "D"] /\
  exists p', dijkstraShortestPath scenarioGraph "D" "A" = Ok p' /\ p' ≠ [] /\
    calculateDrivingTime scenarioGraph p'
    = calculateDrivingTime scenarioGraph ["A"; "C"; "D"].
Proof.
  split; [vm_compute; reflexivity|].
  apply (shortest_time_is_symmetric
           [mkEdge "A" "B" 10 20; mkEdge "B" "D" 10 20;
            mkEdge "A" "C" 5 (-1); mkEdge "C" "D" 5 15] "A" "D").
  - exact scenarioGraph_wf.
  - vm_compute. reflexivity.
  - apply (bool_decide_unpack (simpleGraph scenarioGraph)). vm_compute. exact I.
  - vm_compute. reflexivity.
  - discriminate.
Defined.

(** ** route.cpp: what [findAlternativeRoute] forbids *)

Lemma intermediateNodes_route (source dest : string) t' :
  intermediateNodes (source :: t' ++ [dest]) = t'.
Proof.
  unfold intermediateNodes. simpl. rewrite length_app. simpl.
  replace (length t' + 1 - 1)%nat with (length t') by lia.
  apply take_app_length.
Qed.

(** X15.  For a route found by [dijkstraShortestPath] on a well-formed graph
    both loops that build the forbidden sets of [findAlternativeRoute]
    stay inside the route; the forbidden nodes are nodes of the route but
    neither its source nor its destination, and the forbidden segments
    are those of the route in both directions. *)
Theorem alternative_search_keeps_endpoints g source dest path :
  wfGraph g ->
  dijkstraShortestPath g source dest = Ok path -> path ≠ [] ->
  exists forbiddenNodes forbiddenEdges,
    forbiddenNodesOf path = Ok forbiddenNodes /\
    forbiddenEdgesOf path = Ok forbiddenEdges /\
    (source ∉ forbiddenNodes) /\ (dest ∉ forbiddenNodes) /\
    (forall x, x ∈ forbiddenNodes -> x ∈ path) /\
    (forall a b, (a, b) ∈ forbiddenEdges <->
       (a, b) ∈ segmentsOf path \/ (b, a) ∈ segmentsOf path).
Proof.
  intros Hwf Hp Hne.
  destruct (search_route _ _ _ _ _ Hp Hne) as ([t ->] & Hlast & Hnd & _).
  assert (source ≠ dest) as Hds.
  { intros <-. unfold dijkstraShortestPath in Hp.
    rewrite (search_self skipShortest skipShortest_sentinel _ Hwf source) in Hp.
    discriminate Hp. }
  destruct t as [|y t]; [simpl in Hlast; congruence|].
  change (last (source :: y :: t)) with (last (y :: t)) in Hlast.
  apply last_Some in Hlast as [t' Ht']. rewrite Ht' in *.
  destruct (forbiddenEdgesOf_ok (source :: t' ++ [dest])) as (E & HE & Hin);
    [simpl; lia|].
  exists (list_to_set t'), E.
  rewrite forbiddenNodesOf_ok by (simpl; rewrite length_app; simpl; lia).
  rewrite intermediateNodes_route.
  apply NoDup_cons in Hnd as [Hsrc Hnd].
  apply NoDup_app in Hnd as (_ & Hdest & _).
  split; [done|]. split; [done|]. split; [|split; [|split; [|done]]].
  - rewrite elem_of_list_to_set. intros Hx. apply Hsrc.
    apply elem_of_app. by left.
  - rewrite elem_of_list_to_set. intros Hx. apply (Hdest dest Hx). left.
  - intros x Hx%elem_of_list_to_set. right. apply elem_of_app. by left.
Qed.

Lemma alternative_search_keeps_endpoints_witness :
  dijkstraShortestPath scenarioGraph "A" "D" = Ok ["A"; "C"; "D"] /\
  exists forbiddenNodes forbiddenEdges,
    forbiddenNodesOf ["A"; "C"; "D"] = Ok forbiddenNodes /\
    forbiddenEdgesOf ["A"; "C"; "D"] = Ok forbiddenEdges /\
    ("A" ∉ forbiddenNodes) /\ ("D" ∉ forbiddenNodes) /\
    (forall x, x ∈ forbiddenNodes -> x ∈ ["A"; "C"; "D"]) /\
    (forall a b, (a, b) ∈ forbiddenEdges <->
       (a, b) ∈ segmentsOf ["A"; "C"; "D"] \/
       (b, a) ∈ segmentsOf ["A"; "C"; "D"]).
Proof.
  split; [vm_compute; reflexivity|].
  apply (alternative_search_keeps_endpoints scenarioGraph "A" "D").
  - exact scenarioGraph_wf.
  - vm_compute. reflexivity.
  - discriminate.
Defined.

(** ** route.cpp: what [findEcoRoute] reports *)

Lemma parkingCodes_elem locations c :
  c ∈ parkingCodes locations <->
  exists loc, loc ∈ locations /\ hasParking loc = true /\ code loc = c.
Proof.
  unfold parkingCodes. rewrite list_elem_of_fmap. split.
  - intros (loc & -> & [Hp Hin]%list_elem_of_filter). by exists loc.
  - intros (loc & Hin & Hp & <-). exists loc. split; [done|].
    by apply list_elem_of_filter.
Qed.

(** X16.  [findEcoRoute] ends in one of three ways.  Without any location
    with parking it reports that and hands back empty values; when the
    loop keeps no candidate it reports that no viable route exists and
    hands back empty values; otherwise it reports a route, both legs are
    not empty and the parking node is the code of a location with
    parking. *)
Theorem eco_route_message
    g source dest maxWalkTime avoidNodes avoidSegments locations
    drive park walk msg :
  findEcoRoute g source dest maxWalkTime avoidNodes avoidSegments locations
    = Ok (drive, park, walk, msg) ->
  (msg = "No parking nodes available." /\
   drive = [] /\ park = "" /\ walk = [] /\
   forall loc, loc ∈ locations -> hasParking loc = false) \/
  (msg = "No viable eco route found." /\
   drive = [] /\ park = "" /\ walk = [] /\
   exists loc, loc ∈ locations /\ hasParking loc = true) \/
  (msg = "Eco route found." /\ drive ≠ [] /\ walk ≠ [] /\
   exists loc, loc ∈ locations /\ hasParking loc = true /\ code loc = park).
Proof.
  unfold findEcoRoute.
  destruct (parkingCodes locations) as [|c cands] eqn:Hcands.
  { simpl. intros [= <- <- <- <-]. left. repeat split.
    intros loc Hin. destruct (hasParking loc) eqn:Hp; [|done].
    assert (code loc ∈ parkingCodes locations) as Hc
      by (apply parkingCodes_elem; by exists loc).
    rewrite Hcands in Hc. by apply elem_of_nil in Hc. }
  simpl isEmpty. cbv iota.
  destruct (ecoLoop _ _ _ _ _ _ _ _) as [b| |] eqn:Hloop; [|done..]. simpl.
  pose proof (ecoLoop_Chosen _ _ _ _ _ _ _ [] initBest b
                (Chosen_nil _ _ _ _ _ _) Hloop) as [_ Hfirst].
  simpl in Hfirst. rewrite <- Hcands in Hfirst.
  destruct (isEmpty (bestDrivePath b) || isEmpty (bestWalkPath b)) eqn:Hempty.
  - intros [= <- <- <- <-]. right. left. repeat split.
    assert (c ∈ parkingCodes locations) as Hc by (rewrite Hcands; left).
    apply parkingCodes_elem in Hc as (loc & ? & ? & _). by exists loc.
  - intros [= <- <- <- <-]. right. right.
    apply orb_false_iff in Hempty as [Hd Hw].
    split; [done|]. split; [by destruct (bestDrivePath b)|].
    split; [by destruct (bestWalkPath b)|].
    destruct Hfirst as [-> | (pre & post & Hseen & _)]; [done|].
    apply parkingCodes_elem. rewrite Hseen.
    apply elem_of_app. right. left.
Qed.

Lemma eco_route_message_witness :
  findEcoRoute scenarioGraph "A" "D" 15 ∅ ∅ scenarioLocations
    = Ok (["A"; "C"], "C", ["C"; "D"], "Eco route found.") /\
  exists loc, loc ∈ scenarioLocations /\ hasParking loc = true /\
              code loc = "C".
Proof.
  assert (findEcoRoute scenarioGraph "A" "D" 15 ∅ ∅ scenarioLocations
          = Ok (["A"; "C"], "C", ["C"; "D"], "Eco route found.")) as E
    by (vm_compute; reflexivity).
  split; [exact E|].
  destruct (eco_route_message _ _ _ _ _ _ _ _ _ _ _ E)
    as [(H & _) | [(H & _) | (_ & _ & _ & H)]];
    [discriminate H | discriminate H | exact H].
Defined.



(** ** parser.cpp: the look-ups between ids and codes *)

Lemma getCodeById_absent locations i :
  (forall loc, loc ∈ locations -> id loc ≠ i) -> getCodeById locations i = "".
Proof.
  induction locations as [|l0 rest IH]; intros H; [done|]. simpl.
  rewrite (proj2 (Z.eqb_neq _ _)) by (apply H; left).
  apply IH. intros loc Hin. apply H. by right.
Qed.

Lemma getIdByCode_absent locations c :
  (forall loc, loc ∈ locations -> code loc ≠ c) -> getIdByCode locations c = -1.
Proof.
  induction locations as [|l0 rest IH]; intros H; [done|]. simpl.
  rewrite bool_decide_eq_false_2 by (apply H; left).
  apply IH. intros loc Hin. apply H. by right.
Qed.

Lemma getCodeById_first locations i :
  (forall loc, loc ∈ locations -> id loc ≠ i) \/
  exists pre loc post,
    locations = pre ++ loc :: post /\ id loc = i /\
    (forall l, l ∈ pre -> id l ≠ i) /\
    getCodeById locations i = code loc.
Proof.
  induction locations as [|l0 rest IH].
  - left. by intros loc ?%elem_of_nil.
  - simpl. destruct (Z.eqb_spec (id l0) i) as [Heq | Hne].
    + right. exists [], l0, rest. repeat split; [done|].
      by intros l ?%elem_of_nil.
    + destruct IH as [Habs | (pre & loc & post & -> & Hid & Hpre & Hres)].
      * left. intros loc [-> | Hin]%elem_of_cons; [done | by apply Habs].
      * right. exists (l0 :: pre), loc, post. repeat split; [done | | done].
        intros l [-> | Hin]%elem_of_cons; [done | by apply Hpre].
Qed.

Lemma getIdByCode_first locations c :
  (forall loc, loc ∈ locations -> code loc ≠ c) \/
  exists pre loc post,
    locations = pre ++ loc :: post /\ code loc = c /\
    (forall l, l ∈ pre -> code l ≠ c) /\
    getIdByCode locations c = id loc.
Proof.
  induction locations as [|l0 rest IH].
  - left. by intros loc ?%elem_of_nil.
  - simpl. case_bool_decide as Hc.
    + right. exists [], l0, rest. repeat split; [done|].
      by intros l ?%elem_of_nil.
    + destruct IH as [Habs | (pre & loc & post & -> & Hid & Hpre & Hres)].
      * left. intros loc [-> | Hin]%elem_of_cons; [done | by apply Habs].
      * right. exists (l0 :: pre), loc, post. repeat split; [done | | done].
        intros l [-> | Hin]%elem_of_cons; [done | by apply Hpre].
Qed.

(** X18.  Both look-ups return the field of the first location that
    matches, and their not-found value ([""], [-1]) when none does. *)
Theorem lookup_returns_first_match locations :
  (forall i,
     (getCodeById locations i = "" /\
      forall loc, loc ∈ locations -> id loc ≠ i) \/
     exists pre loc post,
       locations = pre ++ loc :: post /\ id loc = i /\
       (forall l, l ∈ pre -> id l ≠ i) /\
       getCodeById locations i = code loc) /\
  (forall c,
     (getIdByCode locations c = -1 /\
      forall loc, loc ∈ locations -> code loc ≠ c) \/
     exists pre loc post,
       locations = pre ++ loc :: post /\ code loc = c /\
       (forall l, l ∈ pre -> code l ≠ c) /\
       getIdByCode locations c = id loc).
Proof.
  split.
  - intros i. destruct (getCodeById_first locations i) as [H | H];
      [left | by right].
    split; [by apply getCodeById_absent | done].
  - intros c. destruct (getIdByCode_first locations c) as [H | H];
      [left | by right].
    split; [by apply getIdByCode_absent | done].
Qed.

Lemma getCodeById_unique locations loc :
  NoDup (id <$> locations) -> loc ∈ locations ->
  getCodeById locations (id loc) = code loc.
Proof.
  induction locations as [|l0 rest IH]; intros Hnd Hin;
    [by apply elem_of_nil in Hin|].
  rewrite fmap_cons in Hnd. apply NoDup_cons in Hnd as [Hfresh Hnd]. simpl.
  apply elem_of_cons in Hin as [-> | Hin]; [by rewrite Z.eqb_refl|].
  rewrite (proj2 (Z.eqb_neq _ _)); [by apply IH|].
  intros Heq. apply Hfresh. rewrite Heq. apply list_elem_of_fmap. by exists loc.
Qed.

Lemma getIdByCode_unique locations loc :
  NoDup (code <$> locations) -> loc ∈ locations ->
  getIdByCode locations (code loc) = id loc.
Proof.
  induction locations as [|l0 rest IH]; intros Hnd Hin;
    [by apply elem_of_nil in Hin|].
  rewrite fmap_cons in Hnd. apply NoDup_cons in Hnd as [Hfresh Hnd]. simpl.
  apply elem_of_cons in Hin as [-> | Hin]; [by rewrite bool_decide_eq_true_2|].
  rewrite bool_decide_eq_false_2; [by apply IH|].
  intros Heq. apply Hfresh. rewrite Heq. apply list_elem_of_fmap. by exists loc.
Qed.

(** X19.  When no two locations share an id and no two share a code, the
    two look-ups are inverse to each other on the locations: the id of a
    location leads to its code and back. *)
Theorem id_code_round_trip locations loc :
  NoDup (id <$> locations) -> NoDup (code <$> locations) ->
  loc ∈ locations ->
  getCodeById locations (id loc) = code loc /\
  getIdByCode locations (code loc) = id loc /\
  getIdByCode locations (getCodeById locations (id loc)) = id loc /\
  getCodeById locations (getIdByCode locations (code loc)) = code loc.
Proof.
  intros Hids Hcodes Hin.
  rewrite (getCodeById_unique locations loc Hids Hin).
  rewrite (getIdByCode_unique locations loc Hcodes Hin).
  rewrite (getCodeById_unique locations loc Hids Hin).
  done.
Qed.

Lemma id_code_round_trip_witness :
  getCodeById scenarioLocations 3 = "C" /\
  getIdByCode scenarioLocations "C" = 3 /\
  getIdByCode scenarioLocations (getCodeById scenarioLocations 3) = 3 /\
  getCodeById scenarioLocations (getIdByCode scenarioLocations "C") = "C".
Proof.
  apply (id_code_round_trip scenarioLocations (mkLocation "c" 3 "C" true)).
  - apply (bool_decide_unpack (NoDup (id <$> scenarioLocations))).
    vm_compute. exact I.
  - apply (bool_decide_unpack (NoDup (code <$> scenarioLocations))).
    vm_compute. exact I.
  - unfold scenarioLocations. right. right. left.
Defined.

(** ** parser.cpp: [cleanCode] *)

Lemma hasSpace_cleanCode s : hasSpace (cleanCode s) = false.
Proof.
  induction s as [|c s IH]; [done|]. simpl.
  destruct (Ascii.eqb c " ") eqn:Hc; [done|]. simpl. by rewrite Hc.
Qed.

Lemma cleanCode_no_space s : hasSpace s = false -> cleanCode s = s.
Proof.
  induction s as [|c s IH]; [done|]. simpl.
  destruct (Ascii.eqb c " "); [done|]. simpl. intros H. by rewrite IH.
Qed.

Lemma cleanCode_length s : (String.length (cleanCode s) <= String.length s)%nat.
Proof.
  induction s as [|c s IH]; [done|]. simpl.
  destruct (Ascii.eqb c " "); simpl; lia.
Qed.

Lemma cleanCode_app s1 s2 :
  cleanCode (s1 +:+ s2) = cleanCode s1 +:+ cleanCode s2.
Proof.
  induction s1 as [|c s1 IH]; [done|]. simpl.
  destruct (Ascii.eqb c " "); [done|]. simpl. by rewrite IH.
Qed.

(** X20.  [cleanCode] removes the spaces and nothing else: its result has
    no space, a code without spaces is returned unchanged (and only such a
    code is), cleaning twice is cleaning once, the result is never longer,
    and cleaning distributes over concatenation. *)
Theorem cleanCode_removes_the_spaces s :
  hasSpace (cleanCode s) = false /\
  (cleanCode s = s <-> hasSpace s = false) /\
  cleanCode (cleanCode s) = cleanCode s /\
  (String.length (cleanCode s) <= String.length s)%nat /\
  forall s', cleanCode (s +:+ s') = cleanCode s +:+ cleanCode s'.
Proof.
  split; [apply hasSpace_cleanCode|]. split; [|split; [|split]].
  - split; [|apply cleanCode_no_space].
    intros H. rewrite <- H. apply hasSpace_cleanCode.
  - apply cleanCode_no_space, hasSpace_cleanCode.
  - apply cleanCode_length.
  - intros s'. apply cleanCode_app.
Qed.

(** ** batch.cpp: requests by id *)

Lemma getCodeById_unknown locations i :
  i ∉ id <$> locations -> getCodeById locations i = "".
Proof.
  intros H. apply getCodeById_absent. intros loc Hin Heq. apply H.
  apply list_elem_of_fmap. by exists loc.
Qed.

Lemma segmentsOf_tail_elem (p : list string) x :
  x ∈ tail p -> exists a, (a, x) ∈ segmentsOf p.
Proof.
  induction p as [|a [|b r] IH]; simpl; [by intros ?%elem_of_nil..|].
  intros [-> | Hin]%elem_of_cons.
  - exists a. rewrite segmentsOf_cons. left.
  - destruct (IH Hin) as [a' Ha']. exists a'. rewrite segmentsOf_cons. by right.
Qed.

(** The nodes of a route are nodes of the map. *)
Lemma search_nodes skip g source dest p :
  (forall u v e, drivingTime e = -1 -> skip u v e = true) ->
  wfGraph g -> graphClosed g ->
  search skip g source dest = Ok p -> forall x, x ∈ p -> x ∈ dom g.
Proof.
  intros Hsent Hwf Hclosed Hp x Hx.
  assert (p ≠ []) as Hne by (intros ->; by apply elem_of_nil in Hx).
  destruct (search_route _ _ _ _ _ Hp Hne) as ([t ->] & Hlast & _ & Hseg).
  rewrite graphClosed_spec in Hclosed.
  apply elem_of_cons in Hx as [-> | Hx].
  - destruct t as [|y t].
    { simpl in Hlast. injection Hlast as <-.
      rewrite (search_self skip Hsent g Hwf source) in Hp. discriminate Hp. }
    destruct (Hseg source y) as (e & Hin & _); [rewrite segmentsOf_cons; left|].
    apply neighbors_elem in Hin as (l & Hl & _). by apply elem_of_dom.
  - destruct (segmentsOf_tail_elem (source :: t) x Hx) as [a Ha].
    destruct (Hseg a x Ha) as (e & Hin & _). by apply (Hclosed a x e).
Qed.

(** The route of the [driving-restricted] mode, with or without a
    mandatory node, goes from the source to the destination through nodes
    of the map. *)
Lemma batchRestricted_route
    g sourceCode destCode includeCode avoidCodes avoidSegmentCodes p :
  wfGraph g -> graphClosed g ->
  batchRestricted g sourceCode destCode includeCode avoidCodes avoidSegmentCodes
    = Ok p ->
  p ≠ [] ->
  head p = Some sourceCode /\ last p = Some destCode /\
  forall x, x ∈ p -> x ∈ dom g.
Proof.
  intros Hwf Hclosed. unfold batchRestricted.
  case_bool_decide as Hinc; simpl.
  - intros Hp Hne.
    destruct (search_route _ _ _ _ _ Hp Hne) as ([t ->] & Hlast & _).
    split; [done|]. split; [done|].
    apply (search_nodes _ g sourceCode destCode _
             (skipRestricted_sentinel _ _) Hwf Hclosed Hp).
  - destruct (dijkstraRestricted g sourceCode includeCode _ _)
      as [p1| |] eqn:Hp1; [|done..].
    simpl.
    destruct (dijkstraRestricted g includeCode destCode _ _)
      as [p2| |] eqn:Hp2; [|done..].
    simpl.
    destruct (decide (p1 = [])) as [-> | Hne1]; [by intros [= <-]|].
    destruct (decide (p2 = [])) as [-> | Hne2].
    { rewrite andb_false_r. by intros [= <-]. }
    replace (negb (isEmpty p1) && negb (isEmpty p2)) with true
      by (by destruct p1, p2).
    intros [= <-] _.
    pose proof (search_nodes _ g _ _ _ (skipRestricted_sentinel _ _)
                  Hwf Hclosed Hp1) as Hdom1.
    pose proof (search_nodes _ g _ _ _ (skipRestricted_sentinel _ _)
                  Hwf Hclosed Hp2) as Hdom2.
    destruct (search_route _ _ _ _ _ Hp1 Hne1) as ([t1 Ht1] & Hlast1 & _).
    destruct (search_route _ _ _ _ _ Hp2 Hne2) as (_ & Hlast2 & _).
    assert (sourceCode ≠ includeCode) as Hsi.
    { intros <-. unfold dijkstraRestricted in Hp1.
      rewrite (search_self _ (skipRestricted_sentinel _ _) g Hwf sourceCode)
        in Hp1.
      by injection Hp1 as <-. }
    apply last_Some in Hlast1 as [l1 Hl1].
    rewrite Hl1, removelast_last.
    destruct l1 as [|a l1].
    { rewrite Ht1 in Hl1. simpl in Hl1. by injection Hl1 as -> _. }
    assert (a = sourceCode) as ->
      by (rewrite Ht1 in Hl1; simpl in Hl1; by injection Hl1 as -> _).
    split; [done|]. split.
    + rewrite last_app, Hlast2. done.
    + intros x [Hx | Hx]%elem_of_app; [|by apply Hdom2].
      apply Hdom1. rewrite Hl1. apply elem_of_app. by left.
Qed.

Lemma batchRestricted_isolated_source
    g sourceCode destCode includeCode avoidCodes avoidSegmentCodes :
  wfGraph g -> neighbors g sourceCode = [] ->
  batchRestricted g sourceCode destCode includeCode avoidCodes avoidSegmentCodes
  = Ok [].
Proof.
  intros Hwf Hsrc. unfold batchRestricted, dijkstraRestricted.
  destruct (negb _).
  - rewrite (search_isolated_source _ g sourceCode includeCode Hsrc). simpl.
    destruct (dijkstraRestricted_total g includeCode destCode avoidCodes
                avoidSegmentCodes Hwf) as [p2 Hp2].
    unfold dijkstraRestricted in Hp2. by rewrite Hp2.
  - by apply search_isolated_source.
Qed.

Lemma batchRestricted_no_entry
    g sourceCode destCode includeCode avoidCodes avoidSegmentCodes :
  wfGraph g -> (forall u e, (destCode, e) ∉ neighbors g u) ->
  batchRestricted g sourceCode destCode includeCode avoidCodes avoidSegmentCodes
  = Ok [].
Proof.
  intros Hwf Hdst. unfold batchRestricted, dijkstraRestricted.
  destruct (negb _).
  - destruct (dijkstraRestricted_total g sourceCode includeCode avoidCodes
                avoidSegmentCodes Hwf) as [p1 Hp1].
    unfold dijkstraRestricted in Hp1. rewrite Hp1. simpl.
    rewrite (search_no_entry _ g includeCode destCode Hdst). simpl.
    by rewrite andb_false_r.
  - by apply search_no_entry.
Qed.

(** X21.  A mandatory node whose id belongs to no location is ignored
    without notice: the request is served as if it named no mandatory
    node. *)
Theorem unknown_include_node_is_ignored
    locations g sourceId destId includeNodeId avoidNodeIds avoidSegmentIds :
  includeNodeId ∉ id <$> locations ->
  batchRestrictedRequest locations g sourceId destId includeNodeId
                         avoidNodeIds avoidSegmentIds
  = batchRestrictedRequest locations g sourceId destId (-1)
                           avoidNodeIds avoidSegmentIds.
Proof.
  intros H. unfold batchRestrictedRequest. cbv zeta.
  rewrite (getCodeById_unknown locations includeNodeId H).
  by destruct (includeNodeId =? -1).
Qed.

Lemma unknown_include_node_is_ignored_witness :
  batchRestrictedRequest scenarioLocations scenarioGraph 1 4 9 ∅ ∅
  = batchRestrictedRequest scenarioLocations scenarioGraph 1 4 (-1) ∅ ∅ /\
  batchRestrictedRequest scenarioLocations scenarioGraph 1 4 9 ∅ ∅
  = Ok (Some ([1; 3; 4], 10)).
Proof.
  split; [|vm_compute; reflexivity].
  apply (unknown_include_node_is_ignored scenarioLocations scenarioGraph 1 4 9).
  apply (bool_decide_unpack (9 ∉ id <$> scenarioLocations)).
  vm_compute. exact I.
Defined.

(** X22.  A source or a destination whose id belongs to no location is
    looked up as the empty code; on a well-formed graph whose nodes are
    closed under neighbours and do not include the empty code, the
    [driving-restricted] mode then prints [none], whatever the other
    fields of the request are. *)
Theorem unknown_source_or_destination_prints_none
    locations g sourceId destId includeNodeId avoidNodeIds avoidSegmentIds :
  wfGraph g -> graphClosed g -> "" ∉ dom g ->
  sourceId ∉ id <$> locations \/ destId ∉ id <$> locations ->
  batchRestrictedRequest locations g sourceId destId includeNodeId
                         avoidNodeIds avoidSegmentIds
  = Ok None.
Proof.
  intros Hwf Hclosed Hempty Hunknown.
  unfold batchRestrictedRequest. cbv zeta.
  destruct Hunknown as [H | H]; rewrite (getCodeById_unknown locations _ H).
  - rewrite batchRestricted_isolated_source; [done | done |].
    unfold neighbors. apply not_elem_of_dom in Hempty. by rewrite Hempty.
  - rewrite batchRestricted_no_entry; [done | done |].
    intros u e Hin. apply Hempty.
    rewrite graphClosed_spec in Hclosed. by apply (Hclosed u "" e).
Qed.

Lemma unknown_source_or_destination_prints_none_witness :
  batchRestrictedRequest scenarioLocations scenarioGraph 9 4 2 {[3]} ∅
  = Ok None.
Proof.
  apply (unknown_source_or_destination_prints_none
           scenarioLocations scenarioGraph 9 4 2 {[3]} ∅).
  - exact scenarioGraph_wf.
  - apply (bool_decide_unpack (graphClosed scenarioGraph)). vm_compute. exact I.
  - apply (bool_decide_unpack ("" ∉ dom scenarioGraph)). vm_compute. exact I.
  - left. apply (bool_decide_unpack (9 ∉ id <$> scenarioLocations)).
    vm_compute. exact I.
Defined.

Lemma getIdByCode_decodes locations c :
  NoDup (id <$> locations) -> c ∈ code <$> locations ->
  getCodeById locations (getIdByCode locations c) = c.
Proof.
  intros Hnd Hc.
  destruct (getIdByCode_first locations c)
    as [Habs | (pre & loc & post & Hl & <- & _ & ->)].
  - apply list_elem_of_fmap in Hc as (loc & -> & Hin). by destruct (Habs loc Hin).
  - apply getCodeById_unique; [done|]. rewrite Hl.
    apply elem_of_app. right. left.
Qed.

(** X23.  When no two locations share an id and every node of the map is
    the code of a location, the ids that the [driving-restricted] mode
    prints decode to a path from the requested source to the requested
    destination, and the time printed is the aggregated driving time of
    that path. *)
Theorem batch_restricted_output_decodes
    locations g sourceId destId includeNodeId avoidNodeIds avoidSegmentIds
    ids time :
  wfGraph g -> graphClosed g ->
  NoDup (id <$> locations) -> dom g ⊆ list_to_set (code <$> locations) ->
  batchRestrictedRequest locations g sourceId destId includeNodeId
                         avoidNodeIds avoidSegmentIds
  = Ok (Some (ids, time)) ->
  head (getCodeById locations <$> ids) = Some (getCodeById locations sourceId) /\
  last (getCodeById locations <$> ids) = Some (getCodeById locations destId) /\
  calculateDrivingTime g (getCodeById locations <$> ids) = time.
Proof.
  intros Hwf Hclosed Hnd Hcodes.
  unfold batchRestrictedRequest. cbv zeta.
  destruct (batchRestricted _ _ _ _ _ _) as [path| |] eqn:Hpath; [|done..].
  simpl. destruct (isEmpty path) eqn:Hempty; [done|].
  intros [= <- <-].
  assert (path ≠ []) as Hne by (by intros ->).
  destruct (batchRestricted_route _ _ _ _ _ _ _ Hwf Hclosed Hpath Hne)
    as (Hhead & Hlast & Hdom).
  assert (getCodeById locations <$> (getIdByCode locations <$> path) = path)
    as ->; [|done].
  clear Hhead Hlast Hpath Hne Hempty.
  induction path as [|x path IH]; [done|].
  rewrite !fmap_cons. f_equal.
  - apply getIdByCode_decodes; [done|].
    assert (x ∈ dom g) as Hx by (apply Hdom; left).
    apply Hcodes in Hx. by apply elem_of_list_to_set in Hx.
  - apply IH. intros y Hy. apply Hdom. by right.
Qed.

Lemma batch_restricted_output_decodes_witness :
  batchRestrictedRequest scenarioLocations scenarioGraph 1 4 2 {[3]} ∅
  = Ok (Some ([1; 2; 4], 20)) /\
  head (getCodeById scenarioLocations <$> [1; 2; 4])
  = Some (getCodeById scenarioLocations 1) /\
  last (getCodeById scenarioLocations <$> [1; 2; 4])
  = Some (getCodeById scenarioLocations 4) /\
  calculateDrivingTime scenarioGraph (getCodeById scenarioLocations <$> [1; 2; 4])
  = 20.
Proof.
  assert (batchRestrictedRequest scenarioLocations scenarioGraph 1 4 2 {[3]} ∅
          = Ok (Some ([1; 2; 4], 20))) as E by (vm_compute; reflexivity).
  split; [exact E|].
  apply (batch_restricted_output_decodes scenarioLocations scenarioGraph
           1 4 2 {[3]} ∅).
  - exact scenarioGraph_wf.
  - apply (bool_decide_unpack (graphClosed scenarioGraph)). vm_compute. exact I.
  - apply (bool_decide_unpack (NoDup (id <$> scenarioLocations))).
    vm_compute. exact I.
  - apply (bool_decide_unpack
             (dom scenarioGraph ⊆ list_to_set (code <$> scenarioLocations))).
    vm_compute. exact I.
  - exact E.
Defined.

(** ** main.cpp: the fastest route of the menu *)

(** X24.  Option 1 of the menu on a well-formed simple graph: the call
    returns; it reports that no route exists exactly when the two ids
    lead to the same code or no drivable path joins the two codes; and a
    time that it prints is the smallest sum of driving times over the
    paths between the two codes. *)
Theorem fastest_route_option locations g src dst :
  wfGraph g -> graphClosed g -> driveTotal g < INT_MAX -> simpleGraph g ->
  exists r, handleOptionFastest locations g src dst = Ok r /\
    (r = None <->
     getCodeById locations src = getCodeById locations dst \/
     ~ exists q, head q = Some (getCodeById locations src) /\
                 last q = Some (getCodeById locations dst) /\ drivable g q) /\
    forall ids time, r = Some (ids, time) ->
      0 <= time /\
      forall q, head q = Some (getCodeById locations src) ->
                last q = Some (getCodeById locations dst) ->
                validPath drivingTime g q ->
                time <= pathSum drivingTime g q.
Proof.
  intros Hwf Hclosed Hbelow Hsimple.
  unfold handleOptionFastest. cbv zeta.
  set (code1 := getCodeById locations src).
  set (code2 := getCodeById locations dst).
  destruct (dijkstraShortestPath_total g code1 code2 Hwf) as [p Hp].
  rewrite Hp. simpl.
  destruct (decide (p = [])) as [-> | Hne].
  - exists None. split; [done|]. split; [|done].
    split; [|done]. intros _.
    destruct (decide (code1 = code2)) as [|Hcodes]; [by left|]. right.
    intros (q & Hhead & Hlast & Hq).
    destruct (drivable_realises g q) as [c Hc]; [by destruct q | done |].
    destruct (search_complete skipShortest skipShortest_sentinel g Hwf Hclosed
                Hbelow code1 code2 q c) as (p' & Hp' & Hne'); [done..|].
    unfold dijkstraShortestPath in Hp. congruence.
  - replace (isEmpty p) with false by (by destruct p).
    eexists. split; [done|]. split.
    + split; [done|]. intros [Hsame | Hnone]; exfalso.
      * unfold dijkstraShortestPath in Hp. rewrite Hsame in Hp.
        rewrite (search_self skipShortest skipShortest_sentinel g Hwf) in Hp.
        by injection Hp as <-.
      * apply Hnone. exists p.
        destruct (search_route _ _ _ _ _ Hp Hne) as ([t ->] & Hlast & _ & Hseg).
        split; [done|]. split; [done|].
        intros a b Hab. destruct (Hseg a b Hab) as (e & Hin & Hskip).
        exists e. split; [done|]. by apply (skipShortest_false a b e).
    + intros ids time [= <- <-].
      destruct (search_cheapest skipShortest g code1 code2 p
                  skipShortest_sentinel Hwf Hclosed Hbelow Hsimple Hp Hne)
        as (_ & Hpos & Hmin).
      split; [done|]. intros q Hhead Hlast Hq.
      apply (Hmin q); [done | done |].
      apply validPath_realises; [by destruct q | done].
Qed.

Lemma fastest_route_option_witness :
  handleOptionFastest scenarioLocations scenarioGraph 1 4
  = Ok (Some ([1; 3; 4], 10)) /\
  exists r, handleOptionFastest scenarioLocations scenarioGraph 1 4 = Ok r /\
    (r = None <->
     getCodeById scenarioLocations 1 = getCodeById scenarioLocations 4 \/
     ~ exists q, head q = Some (getCodeById scenarioLocations 1) /\
                 last q = Some (getCodeById scenarioLocations 4) /\
                 drivable scenarioGraph q) /\
    forall ids time, r = Some (ids, time) ->
      0 <= time /\
      forall q, head q = Some (getCodeById scenarioLocations 1) ->
                last q = Some (getCodeById scenarioLocations 4) ->
                validPath drivingTime scenarioGraph q ->
                time <= pathSum drivingTime scenarioGraph q.
Proof.
  split; [vm_compute; reflexivity|].
  apply (fastest_route_option scenarioLocations scenarioGraph 1 4).
  - exact scenarioGraph_wf.
  - apply (bool_decide_unpack (graphClosed scenarioGraph)). vm_compute. exact I.
  - vm_compute. reflexivity.
  - apply (bool_decide_unpack (simpleGraph scenarioGraph)). vm_compute. exact I.
Defined.

(** ** route.cpp: [findEcoRoute] and the walking budget *)

Lemma better_trans_init c b :
  better c b = true -> b = initBest \/ better b initBest = true ->
  better c initBest = true.
Proof.
  intros Hcb [-> | Hb]; [done|].
  apply better_spec in Hcb, Hb. apply better_spec. lia.
Qed.

Lemma ecoLoop_beats_init g source dest maxWalkTime avoidNodes avoidSegments
    cands : forall b b',
  b = initBest \/ better b initBest = true ->
  ecoLoop g source dest maxWalkTime avoidNodes avoidSegments cands b = Ok b' ->
  b' = initBest \/ better b' initBest = true.
Proof.
  induction cands as [|park rest IH]; intros b b' Hb.
  - simpl. by intros [= <-].
  - rewrite ecoLoop_cons.
    destruct (survivor _ _ _ _ _ _ park) as [c| |]; [|done..]. simpl.
    destruct c as [c|]; [|by apply IH].
    destruct (better c b) eqn:Hcb; [|by apply IH].
    apply IH. right. by apply (better_trans_init c b).
Qed.

Lemma findEcoRoute_loop g source dest maxWalkTime avoidNodes avoidSegments
    locations drive park walk msg :
  findEcoRoute g source dest maxWalkTime avoidNodes avoidSegments locations
    = Ok (drive, park, walk, msg) ->
  drive ≠ [] ->
  exists b,
    ecoLoop g source dest maxWalkTime avoidNodes avoidSegments
            (parkingCodes locations) initBest = Ok b /\
    bestDrivePath b = drive /\ bestPark b = park /\ bestWalkPath b = walk.
Proof.
  unfold findEcoRoute.
  destruct (isEmpty (parkingCodes locations)); [by intros [= <- _ _ _]|].
  destruct (ecoLoop _ _ _ _ _ _ _ _) as [b| |] eqn:Hloop; [|done..]. simpl.
  destruct (isEmpty (bestDrivePath b) || isEmpty (bestWalkPath b));
    [by intros [= <- _ _ _]|].
  intros [= <- <- <- _] _. by exists b.
Qed.

Lemma survivor_budget g source dest maxWalkTime maxWalkTime'
    avoidNodes avoidSegments park b :
  maxWalkTime <= maxWalkTime' ->
  survivor g source dest maxWalkTime avoidNodes avoidSegments park
    = Ok (Some b) ->
  survivor g source dest maxWalkTime' avoidNodes avoidSegments park
    = Ok (Some b).
Proof.
  intros Hle. unfold survivor. case_bool_decide; [done|].
  destruct (dijkstraRestricted g source park _ _) as [drive| |]; [|done..].
  simpl.
  destruct (dijkstraRestricted g park dest _ _) as [walk| |]; [|done..].
  simpl. destruct (isEmpty drive || isEmpty walk); [done|].
  destruct (Z.gtb_spec (calculateWalkingTime g walk) maxWalkTime); [done|].
  destruct (Z.gtb_spec (calculateWalkingTime g walk) maxWalkTime'); [lia|].
  done.
Qed.

(** X25.  A larger walking budget never loses the route nor makes it
    slower: on a well-formed graph, when [findEcoRoute] hands back a route
    under a budget, it hands back one under any larger budget too, and
    its total time (driving plus walking, in [int] arithmetic) is no
    larger. *)
Theorem eco_route_budget_monotone
    g source dest maxWalkTime maxWalkTime' avoidNodes avoidSegments locations
    drive park walk msg :
  wfGraph g -> maxWalkTime <= maxWalkTime' ->
  findEcoRoute g source dest maxWalkTime avoidNodes avoidSegments locations
    = Ok (drive, park, walk, msg) ->
  drive ≠ [] ->
  exists drive' park' walk' msg',
    findEcoRoute g source dest maxWalkTime' avoidNodes avoidSegments locations
      = Ok (drive', park', walk', msg') /\
    drive' ≠ [] /\
    int_add (calculateDrivingTime g drive') (calculateWalkingTime g walk')
    <= int_add (calculateDrivingTime g drive) (calculateWalkingTime g walk).
Proof.
  intros Hwf Hle Hres Hne.
  destruct (findEcoRoute_loop _ _ _ _ _ _ _ _ _ _ _ Hres Hne)
    as (b & Hloop & <- & <- & <-).
  pose proof (ecoLoop_Chosen _ _ _ _ _ _ _ [] initBest b
                (Chosen_nil _ _ _ _ _ _) Hloop) as [_ Hfirst].
  simpl in Hfirst.
  destruct Hfirst as [-> | (pre & post & Hseen & Hsurv & _)]; [done|].
  assert (better b initBest = true) as Hbeats.
  { destruct (ecoLoop_beats_init _ _ _ _ _ _ _ initBest b (or_introl eq_refl)
                Hloop) as [-> | H]; done. }
  assert (bestPark b ∈ parkingCodes locations) as Hin.
  { rewrite Hseen. apply elem_of_app. right. left. }
  apply (survivor_budget _ _ _ _ maxWalkTime') in Hsurv as Hsurv'; [|done].
  destruct (findEcoRoute_total g source dest maxWalkTime' avoidNodes
              avoidSegments locations Hwf) as [[[[drive' park'] walk'] msg'] Hres'].
  exists drive', park', walk', msg'. split; [done|].
  destruct (decide (drive' = [])) as [-> | Hne'].
  { rewrite (findEcoRoute_none _ _ _ _ _ _ _ _ _ _ _ _ Hres' Hin Hsurv')
      in Hbeats. done. }
  split; [done|].
  destruct (findEcoRoute_Chosen _ _ _ _ _ _ _ _ _ _ _ Hres' Hne')
    as (b' & [Hbest Hfirst'] & Hinit' & <- & <- & <-).
  destruct Hfirst' as [-> | (_ & _ & _ & Hsurvb' & _)]; [done|].
  apply survivor_Some in Hsurv as (_ & _ & _ & _ & _ & _ & _ & _ & Htot).
  apply survivor_Some in Hsurvb' as (_ & _ & _ & _ & _ & _ & _ & _ & Htot').
  rewrite <- Htot, <- Htot'.
  specialize (Hbest _ _ Hin Hsurv'). apply not_better_spec in Hbest. lia.
Qed.

Lemma eco_route_budget_monotone_witness :
  findEcoRoute scenarioGraph "A" "D" 15 ∅ ∅ scenarioLocations
    = Ok (["A"; "C"], "C", ["C"; "D"], "Eco route found.") /\
  exists drive' park' walk' msg',
    findEcoRoute scenarioGraph "A" "D" 40 ∅ ∅ scenarioLocations
      = Ok (drive', park', walk', msg') /\
    drive' ≠ [] /\
    int_add (calculateDrivingTime scenarioGraph drive')
            (calculateWalkingTime scenarioGraph walk')
    <= int_add (calculateDrivingTime scenarioGraph ["A"; "C"])
               (calculateWalkingTime scenarioGraph ["C"; "D"]).
Proof.
  assert (findEcoRoute scenarioGraph "A" "D" 15 ∅ ∅ scenarioLocations
          = Ok (["A"; "C"], "C", ["C"; "D"], "Eco route found.")) as E
    by (vm_compute; reflexivity).
  split; [exact E|].
  apply (eco_route_budget_monotone scenarioGraph "A" "D" 15 40 ∅ ∅
           scenarioLocations ["A"; "C"] "C" ["C"; "D"] "Eco route found.").
  - exact scenarioGraph_wf.
  - lia.
  - exact E.
  - discriminate.
Defined.

(** ** route.cpp: the searches read driving times only *)

Lemma neighbors_setWalking h g u :
  neighbors (setWalking h g) u
  = (fun ve : string * EdgeData =>
       (ve.1, mkEdgeData (drivingTime ve.2) (h ve.2))) <$> neighbors g u.
Proof.
  unfold neighbors, setWalking. rewrite lookup_fmap.
  by destruct (g !! u).
Qed.

Lemma edgeCount_setWalking h g : edgeCount (setWalking h g) = edgeCount g.
Proof.
  unfold edgeCount, setWalking. rewrite map_fold_fmap.
  induction g as [|k l m Hk IH] using map_ind.
  - by rewrite !map_fold_empty.
  - rewrite !map_fold_insert_L by (done || intros; simpl; lia).
    simpl. by rewrite IH, length_fmap.
Qed.

Section DrivingOnly.

Variable skip : string -> string -> EdgeData -> bool.
Hypothesis skip_driving : forall u v e e',
  drivingTime e = drivingTime e' -> skip u v e = skip u v e'.
Variable h : EdgeData -> Z.
Variable g : Graph.

Lemma relaxEdges_setWalking u l st :
  relaxEdges skip u
    ((fun ve : string * EdgeData =>
        (ve.1, mkEdgeData (drivingTime ve.2) (h ve.2))) <$> l) st
  = relaxEdges skip u l st.
Proof.
  revert st. induction l as [|[v e] l IH]; intros st; [done|].
  rewrite fmap_cons. simpl. rewrite IH. f_equal.
  unfold relaxEdge. simpl.
  by rewrite (skip_driving u v (mkEdgeData (drivingTime e) (h e)) e).
Qed.

Lemma visitNode_setWalking u rest st :
  visitNode skip (setWalking h g) u rest st = visitNode skip g u rest st.
Proof.
  unfold visitNode. by rewrite neighbors_setWalking, relaxEdges_setWalking.
Qed.

Lemma dijkstraLoop_setWalking fuel st :
  dijkstraLoop skip (setWalking h g) fuel st = dijkstraLoop skip g fuel st.
Proof.
  revert st. induction fuel as [|fuel IH]; intros st; simpl.
  - done.
  - destruct (pqPop (pq st)) as [[[d u] rest]|]; [|done].
    by rewrite visitNode_setWalking, IH.
Qed.

Lemma search_setWalking source dest :
  search skip (setWalking h g) source dest = search skip g source dest.
Proof.
  unfold search. rewrite edgeCount_setWalking, dijkstraLoop_setWalking.
  replace (initState (setWalking h g) source) with (initState g source); [done|].
  unfold initState, setWalking. by rewrite <- map_fmap_compose.
Qed.

End DrivingOnly.

(** X26.  The three searches read driving times only: with any other
    walking times on the entries of the map they return the same
    result. *)
Theorem searches_ignore_walking_times
    h g source dest avoidNodes avoidSegments mainPath :
  dijkstraShortestPath (setWalking h g) source dest
  = dijkstraShortestPath g source dest /\
  dijkstraRestricted (setWalking h g) source dest avoidNodes avoidSegments
  = dijkstraRestricted g source dest avoidNodes avoidSegments /\
  findAlternativeRoute (setWalking h g) source dest mainPath
  = findAlternativeRoute g source dest mainPath.
Proof.
  split; [|split].
  - apply search_setWalking. intros u v e e' He.
    unfold skipShortest. by rewrite He.
  - apply search_setWalking. intros u v e e' He.
    unfold skipRestricted. by rewrite He.
  - unfold findAlternativeRoute.
    destruct (forbiddenNodesOf mainPath) as [F| |]; [|done..]. simpl.
    destruct (forbiddenEdgesOf mainPath) as [E| |]; [|done..]. simpl.
    apply search_setWalking. intros u v e e' He.
    unfold skipAlternative. by rewrite He.
Qed.

(** ** route.cpp: the length of a route *)

(** X27.  On a well-formed graph in which every neighbour is a node, the
    nodes of a path returned by [dijkstraRestricted] (and so by
    [dijkstraShortestPath], the case without exclusions) are nodes of the
    map, and the path has at most as many nodes as the map. *)
Theorem route_stays_in_the_map g source dest avoidNodes avoidSegments p :
  wfGraph g -> graphClosed g ->
  dijkstraRestricted g source dest avoidNodes avoidSegments = Ok p ->
  (forall x, x ∈ p -> x ∈ dom g) /\ (length p <= size (dom g))%nat.
Proof.
  intros Hwf Hclosed Hp.
  pose proof (search_nodes _ g source dest p (skipRestricted_sentinel _ _)
                Hwf Hclosed Hp) as Hdom.
  split; [done|].
  destruct (decide (p = [])) as [-> | Hne]; [simpl; lia|].
  destruct (search_route _ _ _ _ _ Hp Hne) as (_ & _ & Hnd & _).
  rewrite <- (size_list_to_set (C:=gset string) p Hnd).
  apply subseteq_size. intros x Hx%elem_of_list_to_set. by apply Hdom.
Qed.

Lemma route_stays_in_the_map_witness :
  dijkstraRestricted scenarioGraph "A" "D" {["C"]} ∅ = Ok ["A"; "B"; "D"] /\
  (forall x, x ∈ ["A"; "B"; "D"] -> x ∈ dom scenarioGraph) /\
  (length ["A"; "B"; "D"] <= size (dom scenarioGraph))%nat.
Proof.
  split; [vm_compute; reflexivity|].
  apply (route_stays_in_the_map scenarioGraph "A" "D" {["C"]} ∅).
  - exact scenarioGraph_wf.
  - apply (bool_decide_unpack (graphClosed scenarioGraph)). vm_compute. exact I.
  - vm_compute. reflexivity.
Defined.
